(** * sveltegame engine: reactive state core

    A shallow embedding of the store-composition code of the engine
    (middleware pipeline, scoped store, event bus, modal queue), of the
    calendar service, of the scene store and of the reactive achievement
    manager, with the properties the specification states about them and
    further properties of the code.

    Conventions.
    - JSON-serialisable data is the type [json]; a state object is an
      [obj], an association list in insertion order (the order
      [JSON.stringify] and [Object.keys] follow; numbers are integers and
      keys are not array indices).
    - A JS [Set] is a [jsset]: the entry list of the language
      specification, where [delete] leaves a hole, [add] appends and
      [forEach] walks the live list by index.
    - A callback is a function identity (a number) together with a body
      given by the environment.  In the queue, the bus and the scoped
      store a body is a script: the calls it makes on the component it was
      registered with, and whether it throws.  The scripts are run by the
      same interpreter as the top-level calls; recursion through callbacks
      is bounded by fuel and [None] means the fuel ran out.  These bodies
      do not write to the values they are handed.
    - A middleware hook is a function of the contents of the objects it
      receives; it may write to these objects, which live in a heap, so
      that what a write reaches is decided by which object was passed.
    - [console.error] appends to the trace, like every callback call.
    - The base store [createGameStore] is not among the sources; its
      model follows section 4.1 of the specification and is marked.
    - In the scene store a hook or subscriber returns or throws and does
      not call the store; an async call is run to the point where its
      promise has settled.
    - The base achievement manager is not among the sources; [check] is
      given over any base manager. *)

From Stdlib Require Import ZArith QArith Lia.
From stdpp Require Import base option list strings gmap.

Set Warnings "-register-all".

(** ** Calendar service (ui/ModalQueue.ts, second part: CalendarService) *)

Module Calendar.
Local Open Scope Z_scope.

(** The numbers of the configuration and the days are integers. *)
Record CalendarConfig := {
  daysPerSeason : Z;
  seasons : list string;
  startDayOfWeek : option Z
}.

(** The closure returned by [createCalendarService]: the destructured
    configuration (with the default applied) and [daysPerYear]. *)
Record CalendarService := {
  svc_daysPerSeason : Z;
  svc_seasons : list string;
  svc_startDayOfWeek : Z;
  svc_daysPerYear : Z
}.

Inductive construction :=
| Throws (message : string)
| Service (svc : CalendarService).

Definition createCalendarService (config : CalendarConfig) : construction :=
  let startDay := default 0 (startDayOfWeek config) in
  if (length (seasons config) =? 0)%nat then
    Throws "At least one season must be defined"
  else if daysPerSeason config <=? 0 then
    Throws "daysPerSeason must be positive"
  else
    Service {| svc_daysPerSeason := daysPerSeason config;
               svc_seasons := seasons config;
               svc_startDayOfWeek := startDay;
               svc_daysPerYear :=
                 daysPerSeason config * Z.of_nat (length (seasons config)) |}.

(** [Math.max(1, day)]. *)
Definition normalizeDay (day : Z) : Z := Z.max 1 day.

(** [%] is the truncated remainder [Z.rem]; [Math.floor(a / b)] is the
    floor quotient [Z.div]. *)
Definition getSeasonIndex (svc : CalendarService) (day : Z) : Z :=
  let normalizedDay := normalizeDay day in
  let dayIndex := normalizedDay - 1 in
  let dayInYear := Z.rem dayIndex (svc_daysPerYear svc) in
  dayInYear / svc_daysPerSeason svc.

(** [seasons[i]]: [None] is [undefined]. *)
Definition index_seasons (l : list string) (i : Z) : option string :=
  if i <? 0 then None else l !! Z.to_nat i.

Definition getSeason (svc : CalendarService) (day : Z) : option string :=
  index_seasons (svc_seasons svc) (getSeasonIndex svc day).

Definition getDayInSeason (svc : CalendarService) (day : Z) : Z :=
  let normalizedDay := normalizeDay day in
  let dayIndex := normalizedDay - 1 in
  Z.rem dayIndex (svc_daysPerSeason svc) + 1.

Definition getYear (svc : CalendarService) (day : Z) : Z :=
  let normalizedDay := normalizeDay day in
  (normalizedDay - 1) / svc_daysPerYear svc + 1.

Definition getSeasonProgress (svc : CalendarService) (day : Z) : Q :=
  let dayInSeason := getDayInSeason svc day in
  if svc_daysPerSeason svc =? 1 then 0%Q
  else (inject_Z (dayInSeason - 1) / inject_Z (svc_daysPerSeason svc - 1))%Q.

Definition getDayOfWeek (svc : CalendarService) (day : Z) : Z :=
  let normalizedDay := normalizeDay day in
  Z.rem (svc_startDayOfWeek svc + normalizedDay - 1) 7.

Definition standardConfig : CalendarConfig :=
  {| daysPerSeason := 7;
     seasons := ["Spring"; "Summer"; "Fall"; "Winter"];
     startDayOfWeek := None |}.

Definition standardService : CalendarService :=
  {| svc_daysPerSeason := 7;
     svc_seasons := ["Spring"; "Summer"; "Fall"; "Winter"];
     svc_startDayOfWeek := 0;
     svc_daysPerYear := 28 |}.

End Calendar.

(** ** JSON data and objects *)

Module Json.

(** The data [JSON.parse (JSON.stringify x)] can return.  An object keeps
    its properties in insertion order. *)
Inductive json :=
| JNull
| JBool (b : bool)
| JNum (n : Z)
| JStr (s : string)
| JArr (items : list json)
| JObj (fields : list (string * json)).

Definition json_eq_dec : ∀ a b : json, {a = b} + {a ≠ b}.
Proof.
  fix IH 1. intros a b.
  decide equality.
  - apply bool_dec.
  - apply Z.eq_dec.
  - apply String.string_dec.
  - apply (List.list_eq_dec IH).
  - apply List.list_eq_dec. intros [k1 v1] [k2 v2].
    destruct (String.string_dec k1 k2) as [->|Hk]; [|right; congruence].
    destruct (IH v1 v2) as [->|Hv]; [left; reflexivity|right; congruence].
Defined.

#[global] Instance json_eq_decision : EqDecision json := json_eq_dec.

(** A state object ([T extends object]): its own properties, in order. *)
Definition obj := list (string * json).

(** [o[k]]; [None] is [undefined]. *)
Fixpoint get_field (o : obj) (k : string) : option json :=
  match o with
  | [] => None
  | (k', v) :: rest => if decide (k' = k) then Some v else get_field rest k
  end.

(** [o[k] = v]: an existing property keeps its place, a new one goes last. *)
Fixpoint set_field (o : obj) (k : string) (v : json) : obj :=
  match o with
  | [] => [(k, v)]
  | (k', v') :: rest =>
      if decide (k' = k) then (k, v) :: rest else (k', v') :: set_field rest k v
  end.

(** [{ ...a, ...b }]. *)
Definition spread (a b : obj) : obj :=
  fold_left (fun acc kv => set_field acc kv.1 kv.2) b a.

(** [Object.keys(o)]. *)
Definition keys (o : obj) : list string := o.*1.

(** The text of [JSON.stringify], as its sequence of lexical tokens. *)
Inductive token :=
| TNull | TTrue | TFalse
| TNumber (n : Z)
| TString (s : string)
| TLBracket | TRBracket | TLBrace | TRBrace | TComma | TColon.

#[global] Instance token_eq_decision : EqDecision token.
Proof. solve_decision. Defined.

Fixpoint stringify (j : json) : list token :=
  match j with
  | JNull => [TNull]
  | JBool true => [TTrue]
  | JBool false => [TFalse]
  | JNum n => [TNumber n]
  | JStr s => [TString s]
  | JArr items =>
      let fix elements (l : list json) : list token :=
        match l with
        | [] => []
        | [x] => stringify x
        | x :: rest => stringify x ++ TComma :: elements rest
        end in
      TLBracket :: elements items ++ [TRBracket]
  | JObj fields =>
      let fix members (l : list (string * json)) : list token :=
        match l with
        | [] => []
        | [(k, v)] => TString k :: TColon :: stringify v
        | (k, v) :: rest =>
            TString k :: TColon :: stringify v ++ TComma :: members rest
        end in
      TLBrace :: members fields ++ [TRBrace]
  end.

(** The tokens of the elements of an array and of the members of an
    object, as [stringify] lays them out. *)
Fixpoint elements (l : list json) : list token :=
  match l with
  | [] => []
  | [x] => stringify x
  | x :: rest => stringify x ++ TComma :: elements rest
  end.

Fixpoint members (l : list (string * json)) : list token :=
  match l with
  | [] => []
  | [(k, v)] => TString k :: TColon :: stringify v
  | (k, v) :: rest => TString k :: TColon :: stringify v ++ TComma :: members rest
  end.

(** The tokens a value can begin with. *)
Definition starts_value (t : token) : Prop :=
  match t with
  | TRBracket | TRBrace | TComma | TColon => False
  | _ => True
  end.

(** [JSON.stringify(x)] for [x] a property read: [undefined] has no text. *)
Definition stringify_opt (x : option json) : option (list token) :=
  stringify <$> x.

(** [JSON.parse(JSON.stringify(x))] on JSON data: an equal value.  (The
    fresh object identity it also gives is explicit in the heap model of
    the middleware store, see [Middleware.deepClone].) *)
Definition deepClone {A : Type} (x : A) : A := x.

End Json.

(** ** The JS [Set] *)

Module JsSet.
Section JsSet.
Context {A : Type} `{EqDecision A}.

(** The entry list of a [Set]: [None] marks a deleted entry. *)
Definition jsset := list (option A).

Definition empty : jsset := [].

Definition has (x : A) (s : jsset) : bool := bool_decide (Some x ∈ s).

(** [s.add(x)]. *)
Definition add (x : A) (s : jsset) : jsset :=
  if has x s then s else s ++ [Some x].

(** [s.delete(x)]. *)
Definition delete (x : A) (s : jsset) : jsset :=
  (fun e => if decide (e = Some x) then None else e) <$> s.

(** [[...s]]: the entries present, in insertion order. *)
Definition values (s : jsset) : list A := omap id s.

Definition size (s : jsset) : nat := length (values s).

End JsSet.
Global Arguments jsset : clear implicits.
End JsSet.

(** ** Modal queue (ui/ModalQueue.ts, first part) *)

Module ModalQueue.
Import Json.

Record ModalQueueItem := {
  id : string;
  component : json;
  props : option json;
  onClose : option nat        (* the identity of the [onClose] function *)
}.

(** What a callback body may do with the queue it was registered on. *)
Inductive call :=
| CPush (item : ModalQueueItem)
| CPop (result : option json)
| CClear
| CSubscribe (callback : nat)
| CUnsubscribe (callback : nat).   (* the handle [subscribe] returned *)

Inductive stmt :=
| Call (c : call)
| Throw.

Definition script := list stmt.

#[global] Instance item_eq_decision : EqDecision ModalQueueItem.
Proof. solve_decision. Defined.
#[global] Instance call_eq_decision : EqDecision call.
Proof. solve_decision. Defined.
#[global] Instance stmt_eq_decision : EqDecision stmt.
Proof. solve_decision. Defined.

(** The bodies of the functions the application registered. *)
Record bodies := {
  subscriberBody : nat -> list ModalQueueItem -> script;
  onCloseBody : nat -> option json -> script
}.

Inductive event :=
| SubscriberCalled (callback : nat) (snapshot : list ModalQueueItem)
| OnCloseCalled (callback : nat) (result : option json)
| ConsoleError (message : string) (subject : string).

Record state := {
  queue : list ModalQueueItem;
  subscribers : JsSet.jsset nat;
  trace : list event
}.

Definition createModalQueue : state :=
  {| queue := []; subscribers := JsSet.empty; trace := [] |}.

Definition with_queue (q : list ModalQueueItem) (st : state) : state :=
  {| queue := q; subscribers := subscribers st; trace := trace st |}.

Definition with_subscribers (s : JsSet.jsset nat) (st : state) : state :=
  {| queue := queue st; subscribers := s; trace := trace st |}.

Definition log (e : event) (st : state) : state :=
  {| queue := queue st; subscribers := subscribers st; trace := trace st ++ [e] |}.

Inductive completion := Normal | Thrown.

Section Interpreter.
Variable env : bodies.

Section Step.
(** The API at the fuel left for calls made from inside a callback. *)
Variable api : call -> state -> option state.

(** Run a callback body: a [throw] abandons the rest of it. *)
Fixpoint run_body (s : script) (st : state) : option (completion * state) :=
  match s with
  | [] => Some (Normal, st)
  | Throw :: _ => Some (Thrown, st)
  | Call c :: rest => st1 ← api c st; run_body rest st1
  end.

(** [try { callback(snapshot) } catch (error) { console.error(...) }] *)
Definition call_subscriber (callback : nat) (snapshot : list ModalQueueItem)
    (st : state) : option state :=
  r ← run_body (subscriberBody env callback snapshot)
               (log (SubscriberCalled callback snapshot) st);
  match r with
  | (Normal, st1) => Some st1
  | (Thrown, st1) => Some (log (ConsoleError "ModalQueue subscriber error:" "") st1)
  end.

(** [subscribers.forEach(...)] from entry [i] on: the live entry list is
    read again at every step. *)
Fixpoint forEach_from (steps : nat) (i : nat) (snapshot : list ModalQueueItem)
    (st : state) : option state :=
  match steps with
  | 0 => None
  | S steps =>
      match subscribers st !! i with
      | None => Some st
      | Some None => forEach_from steps (S i) snapshot st
      | Some (Some callback) =>
          st1 ← call_subscriber callback snapshot st;
          forEach_from steps (S i) snapshot st1
      end
  end.

Definition notify (steps : nat) (st : state) : option state :=
  let snapshot := queue st in
  forEach_from steps 0 snapshot st.

Definition safeOnClose (item : ModalQueueItem) (result : option json)
    (st : state) : option state :=
  match onClose item with
  | Some f =>
      r ← run_body (onCloseBody env f result) (log (OnCloseCalled f result) st);
      match r with
      | (Normal, st1) => Some st1
      | (Thrown, st1) =>
          Some (log (ConsoleError "ModalQueue onClose error for" (id item)) st1)
      end
  | None => Some st
  end.

(** [items.forEach((item) => safeOnClose(item, undefined))] *)
Fixpoint close_all (items : list ModalQueueItem) (st : state) : option state :=
  match items with
  | [] => Some st
  | item :: rest => st1 ← safeOnClose item None st; close_all rest st1
  end.

End Step.

(** The methods of the returned object.  [fuel] bounds the depth of calls
    through callbacks and the length of each [forEach]. *)
Fixpoint exec (fuel : nat) (c : call) (st : state) : option state :=
  match fuel with
  | 0 => None
  | S fuel =>
      match c with
      | CPush item =>
          notify (exec fuel) fuel (with_queue (queue st ++ [item]) st)
      | CPop result =>
          match queue st with
          | item :: rest =>
              st1 ← safeOnClose (exec fuel) item result (with_queue rest st);
              notify (exec fuel) fuel st1
          | [] => notify (exec fuel) fuel st
          end
      | CClear =>
          let items := queue st in
          st1 ← close_all (exec fuel) items (with_queue [] st);
          notify (exec fuel) fuel st1
      | CSubscribe callback =>
          call_subscriber (exec fuel) callback (queue st)
            (with_subscribers (JsSet.add callback (subscribers st)) st)
      | CUnsubscribe callback =>
          Some (with_subscribers (JsSet.delete callback (subscribers st)) st)
      end
  end.

Definition push (fuel : nat) (item : ModalQueueItem) := exec fuel (CPush item).
Definition pop (fuel : nat) (result : option json) := exec fuel (CPop result).
Definition clear (fuel : nat) := exec fuel CClear.
Definition subscribe (fuel : nat) (callback : nat) := exec fuel (CSubscribe callback).
Definition unsubscribe (fuel : nat) (callback : nat) := exec fuel (CUnsubscribe callback).

End Interpreter.

Definition getCurrent (st : state) : option ModalQueueItem := head (queue st).
Definition getQueue (st : state) : list ModalQueue.ModalQueueItem := queue st.
Definition isEmpty (st : state) : bool := bool_decide (length (queue st) = 0).

Definition is_throw (s : stmt) : bool :=
  match s with Throw => true | Call _ => false end.

(** A body that does not call back into the queue: it returns or throws. *)
Definition quiet (s : script) : bool := forallb is_throw s.

Definition throws (s : script) : bool := existsb is_throw s.

Definition quiet_bodies (env : bodies) : Prop :=
  (∀ callback snapshot, quiet (subscriberBody env callback snapshot) = true) ∧
  (∀ callback result, quiet (onCloseBody env callback result) = true).

Definition log_all (es : list event) (st : state) : state :=
  {| queue := queue st; subscribers := subscribers st; trace := trace st ++ es |}.

(** What one call of a quiet subscriber leaves in the trace. *)
Definition subscriber_events (env : bodies) (snapshot : list ModalQueueItem)
    (callback : nat) : list event :=
  SubscriberCalled callback snapshot ::
  (if throws (subscriberBody env callback snapshot)
   then [ConsoleError "ModalQueue subscriber error:" ""] else []).

(** One pass over quiet subscribers: each one present, once, in order. *)
Definition notify_events (env : bodies) (snapshot : list ModalQueueItem)
    (subs : JsSet.jsset nat) : list event :=
  flat_map (subscriber_events env snapshot) (JsSet.values subs).

Definition onClose_events (env : bodies) (item : ModalQueueItem)
    (result : option json) : list event :=
  match onClose item with
  | Some f =>
      OnCloseCalled f result ::
      (if throws (onCloseBody env f result)
       then [ConsoleError "ModalQueue onClose error for" (id item)] else [])
  | None => []
  end.

(** The calls of [onClose] functions and of subscribers that a trace records. *)
Definition onClose_calls (t : list event) : list (nat * option json) :=
  omap (fun e => match e with
                 | OnCloseCalled f result => Some (f, result)
                 | _ => None
                 end) t.

Definition subscriber_calls (t : list event) : list (nat * list ModalQueueItem) :=
  omap (fun e => match e with
                 | SubscriberCalled callback snapshot => Some (callback, snapshot)
                 | _ => None
                 end) t.

(** The functions of the tests: [vi.fn()] and one that throws. *)
Definition passive_bodies : bodies :=
  {| subscriberBody := fun _ _ => []; onCloseBody := fun _ _ => [] |}.

Definition throwing_bodies : bodies :=
  {| subscriberBody := fun _ _ => [Throw]; onCloseBody := fun _ _ => [Throw] |}.

(** A body in which the subscriber at most unsubscribes itself. *)
Definition only_leaves (callback : nat) (s : script) : bool :=
  forallb (fun x => match x with
                    | Throw => true
                    | Call (CUnsubscribe c) => bool_decide (c = callback)
                    | Call _ => false
                    end) s.

Definition leaving (env : bodies) : Prop :=
  ∀ callback snapshot, only_leaves callback (subscriberBody env callback snapshot) = true.

(** Every subscriber unsubscribes itself when called. *)
Definition leaving_bodies : bodies :=
  {| subscriberBody := fun callback _ => [Call (CUnsubscribe callback)];
     onCloseBody := fun _ _ => [] |}.

(** Subscriber [0], once the queue is not empty, unsubscribes subscriber
    [1] and subscribes the new subscriber [2]; the others return. *)
Definition rewiring_bodies : bodies :=
  {| subscriberBody := fun callback snapshot =>
       match callback, snapshot with
       | 0, _ :: _ => [Call (CUnsubscribe 1); Call (CSubscribe 2)]
       | _, _ => []
       end;
     onCloseBody := fun _ _ => [] |}.

(** A queue on which [0] and then [1] subscribed. *)
Definition two_subscribers : state :=
  {| queue := []; subscribers := [Some 0; Some 1]; trace := [] |}.

(** An empty queue with two subscribers left after one unsubscribed. *)
Definition watched_empty_queue : state :=
  {| queue := []; subscribers := [Some 1; None; Some 2]; trace := [] |}.

Definition mock (name : string) (callback : option nat) : ModalQueueItem :=
  {| id := name; component := JStr "Mock"; props := None; onClose := callback |}.

(** [items.forEach((item) => queue.push(item))] and [n] calls of
    [pop(result)], as an application makes them. *)
Fixpoint push_all (env : bodies) (fuel : nat) (items : list ModalQueueItem)
    (st : state) : option state :=
  match items with
  | [] => Some st
  | item :: rest => st1 ← push env fuel item st; push_all env fuel rest st1
  end.

Fixpoint pop_times (env : bodies) (fuel : nat) (n : nat) (result : option json)
    (st : state) : option state :=
  match n with
  | 0 => Some st
  | S n => st1 ← pop env fuel result st; pop_times env fuel n result st1
  end.

(** The [onClose] calls that closing [items] with [result] makes. *)
Definition closings (items : list ModalQueueItem) (result : option json)
    : list (nat * option json) :=
  omap (fun item => (fun f => (f, result)) <$> onClose item) items.

(** The [console.error] calls that a trace records. *)
Definition console_errors (t : list event) : list (string * string) :=
  omap (fun e => match e with
                 | ConsoleError message subject => Some (message, subject)
                 | _ => None
                 end) t.

(** A queue of three items, the first and the last with an [onClose],
    watched by the subscribers [0] and [1]. *)
Definition busy_queue : state :=
  {| queue := [mock "A" (Some 7); mock "B" None; mock "C" (Some 8)];
     subscribers := [Some 0; Some 1]; trace := [] |}.

End ModalQueue.

(** ** Event bus (events/EventBus.ts) *)

Module EventBus.
Import Json.

(** A registered function: one the application wrote, or the closure
    [wrapper] that a call of [once] creates.  [serial] tells the closures
    of different [once] calls apart. *)
Inductive callback :=
| Fn (id : nat)
| OnceWrapper (serial : nat) (event : string) (inner : callback).

#[global] Instance callback_eq_decision : EqDecision callback.
Proof. solve_decision. Defined.

Inductive call :=
| COn (event : string) (cb : callback)
| COff (event : string) (cb : callback)
| CEmit (event : string) (data : option json)
| COnce (event : string) (cb : callback).

Inductive stmt :=
| Call (c : call)
| Throw.

Definition script := list stmt.

#[global] Instance call_eq_decision : EqDecision call.
Proof. solve_decision. Defined.
#[global] Instance stmt_eq_decision : EqDecision stmt.
Proof. solve_decision. Defined.

Inductive event :=
| Called (id : nat) (data : option json)
| ConsoleError (event : string).

#[global] Instance event_eq_decision : EqDecision event.
Proof. solve_decision. Defined.

Record state := {
  listeners : gmap string (JsSet.jsset callback);
  next_serial : nat;
  trace : list event
}.

Definition createEventBus : state :=
  {| listeners := ∅; next_serial := 0; trace := [] |}.

Definition with_listeners (m : gmap string (JsSet.jsset callback)) (st : state) : state :=
  {| listeners := m; next_serial := next_serial st; trace := trace st |}.

Definition log (e : event) (st : state) : state :=
  {| listeners := listeners st; next_serial := next_serial st;
     trace := trace st ++ [e] |}.

(** [on]: the registration; the handle it returns is [off event callback]. *)
Definition on (event : string) (cb : callback) (st : state) : state :=
  let m := if decide (is_Some (listeners st !! event)) then listeners st
           else <[event := JsSet.empty]> (listeners st) in
  with_listeners (alter (JsSet.add cb) event m) st.

Definition off (event : string) (cb : callback) (st : state) : state :=
  with_listeners (alter (JsSet.delete cb) event (listeners st)) st.

(** [once]: returns the wrapper, whose removal is the returned handle. *)
Definition once (event : string) (cb : callback) (st : state) : callback * state :=
  let wrapper := OnceWrapper (next_serial st) event cb in
  (wrapper,
   on event wrapper
     {| listeners := listeners st; next_serial := S (next_serial st);
        trace := trace st |}).

Inductive completion := Normal | Thrown.

Section Interpreter.
(** The body of each function of the application, given the data. *)
Variable body : nat -> option json -> script.

Section Step.
Variable api : call -> state -> option state.

Fixpoint run_body (s : script) (st : state) : option (completion * state) :=
  match s with
  | [] => Some (Normal, st)
  | Throw :: _ => Some (Thrown, st)
  | Call c :: rest => st1 ← api c st; run_body rest st1
  end.

(** [callback(data)].  The wrapper of [once] is
    [(data) => { this.off(event, wrapper); callback(data); }]. *)
Fixpoint invoke (cb : callback) (data : option json) (st : state)
    : option (completion * state) :=
  match cb with
  | Fn f => run_body (body f data) (log (Called f data) st)
  | OnceWrapper _ event inner as wrapper => invoke inner data (off event wrapper st)
  end.

(** [for (const callback of snapshot) { try { callback(data) } catch ... }] *)
Fixpoint emit_loop (event : string) (snapshot : list callback)
    (data : option json) (st : state) : option state :=
  match snapshot with
  | [] => Some st
  | cb :: rest =>
      r ← invoke cb data st;
      match r with
      | (Normal, st1) => emit_loop event rest data st1
      | (Thrown, st1) => emit_loop event rest data (log (ConsoleError event) st1)
      end
  end.

Definition emit_with (event : string) (data : option json) (st : state) : option state :=
  match listeners st !! event with
  | None => Some st
  | Some eventListeners =>
      let snapshot := JsSet.values eventListeners in
      emit_loop event snapshot data st
  end.

End Step.

Fixpoint exec (fuel : nat) (c : call) (st : state) : option state :=
  match fuel with
  | 0 => None
  | S fuel =>
      match c with
      | COn event cb => Some (on event cb st)
      | COff event cb => Some (off event cb st)
      | CEmit event data => emit_with (exec fuel) event data st
      | COnce event cb => Some (once event cb st).2
      end
  end.

Definition emit (fuel : nat) (event : string) (data : option json) :=
  exec fuel (CEmit event data).

End Interpreter.

Definition is_throw (s : stmt) : bool :=
  match s with Throw => true | Call _ => false end.

Definition throws (s : script) : bool := existsb is_throw s.

(** A body that makes no call on the bus: it returns or throws. *)
Definition quiet (s : script) : bool := forallb is_throw s.

(** The listeners registered for an event. *)
Definition registered (st : state) (name : string) : list callback :=
  JsSet.values (default JsSet.empty (listeners st !! name)).

(** A body that only registers and removes listeners, or throws. *)
Definition registry_only (s : script) : bool :=
  forallb (fun x => match x with
                    | Throw | Call (COn _ _) | Call (COff _ _) => true
                    | Call (CEmit _ _) | Call (COnce _ _) => false
                    end) s.

(** The function of the application that a registered callback ends in. *)
Fixpoint target (cb : callback) : nat :=
  match cb with
  | Fn f => f
  | OnceWrapper _ _ inner => target inner
  end.

(** What calling one callback of the snapshot leaves in the trace, when
    its body does not emit. *)
Definition emit_events (body : nat -> option json -> script) (name : string)
    (data : option json) (cb : callback) : list event :=
  Called (target cb) data ::
  (if throws (body (target cb) data) then [ConsoleError name] else []).

(** Listener [1] removes listener [2] and registers listener [3]. *)
Definition rewiring_body (f : nat) (data : option json) : script :=
  match f with
  | 1 => [Call (COff "x" (Fn 2)); Call (COn "x" (Fn 3))]
  | _ => []
  end.

(** [on('x', f1); on('x', f2)] on a new bus. *)
Definition two_listeners : state :=
  on "x" (Fn 2) (on "x" (Fn 1) createEventBus).

(** A listener that emits the event again when it sees the data [1]. *)
Definition reemitting_body (f : nat) (data : option json) : script :=
  match f, data with
  | 1, Some (JNum 1%Z) => [Call (CEmit "x" (Some (JNum 2%Z)))]
  | _, _ => []
  end.

(** [bus.on('x', listener1); bus.once('x', cb0)] on a new bus. *)
Definition listener_then_once : state :=
  (once "x" (Fn 0) (on "x" (Fn 1) createEventBus)).2.

(** A callback that emits the event again from inside its own call. *)
Definition self_emitting_body (f : nat) (data : option json) : script :=
  match f, data with
  | 0, Some (JNum 1%Z) => [Call (CEmit "x" (Some (JNum 2%Z)))]
  | _, _ => []
  end.

(** How often the function [f] ran, and with what. *)
Definition calls_of (f : nat) (t : list event) : list (option json) :=
  omap (fun e => match e with
                 | Called g d => if decide (g = f) then Some d else None
                 | _ => None
                 end) t.

(** The calls of application functions and the [console.error] calls that
    a trace records. *)
Definition calls (t : list event) : list (nat * option json) :=
  omap (fun e => match e with Called f d => Some (f, d) | _ => None end) t.

Definition errors (t : list event) : list string :=
  omap (fun e => match e with ConsoleError name => Some name | _ => None end) t.

(** The [once] wrappers that a call of [cb] unregisters, each with its event. *)
Fixpoint spent (cb : callback) : list (string * callback) :=
  match cb with
  | Fn _ => []
  | OnceWrapper _ event inner as wrapper => (event, wrapper) :: spent inner
  end.

(** The listeners of [name] left when the wrappers in [gone] are removed. *)
Definition without (gone : list (string * callback)) (name : string)
    (l : list callback) : list callback :=
  List.filter (fun cb => bool_decide ((name, cb) ∉ gone)) l.

(** Functions that all throw. *)
Definition throwing_body (f : nat) (data : option json) : script := [Throw].

End EventBus.

(** ** Store with middleware (state/createGameStoreWithMiddleware.ts) *)

Module Middleware.
Import Json.

(** Objects live in a heap, one cell per object handed around, so that a
    hook writing to an object it received is a write to that cell. *)
Definition loc := nat.

(** What a [beforePatch] hook returns: nothing, an object it built, or one
    of the two objects it received. *)
Inductive returned :=
| RetUndefined
| RetFresh (o : obj)
| RetStateArg
| RetPatchArg.

Inductive before_completion :=
| BReturn (r : returned)
| BThrow.

(** The effect of one call of a [beforePatch] hook: the contents of the
    two objects it received when it finishes, and how it finishes. *)
Record before_effect := {
  be_state : obj;
  be_patch : obj;
  be_completion : before_completion
}.

Inductive after_completion :=
| AReturn (v : option json)
| AThrow.

Record after_effect := {
  ae_prevState : obj;
  ae_newState : obj;
  ae_patch : obj;
  ae_completion : after_completion
}.

Record Middleware := {
  name : string;
  beforePatch : option (obj -> obj -> before_effect);
  afterPatch : option (obj -> obj -> obj -> after_effect)
}.

Inductive event :=
| BeforePatchCalled (name : string) (state patch : obj)
| AfterPatchCalled (name : string) (prevState newState patch : obj)
| ConsoleError (name : string) (hook : string)
| StateInstalled (newState : obj)
| SubscriberCalled (callback : nat) (state : obj).

Record world := {
  heap : list obj;
  base_state : loc;                      (* [baseStore]'s current state *)
  base_initial : obj;                    (* its snapshot for [reset] *)
  base_subscribers : JsSet.jsset nat;
  trace : list event
}.

Definition with_heap (h : list obj) (w : world) : world :=
  {| heap := h; base_state := base_state w; base_initial := base_initial w;
     base_subscribers := base_subscribers w; trace := trace w |}.

Definition log (e : event) (w : world) : world :=
  {| heap := heap w; base_state := base_state w; base_initial := base_initial w;
     base_subscribers := base_subscribers w; trace := trace w ++ [e] |}.

Definition read (l : loc) (w : world) : obj := default [] (heap w !! l).

Definition alloc (o : obj) (w : world) : loc * world :=
  (length (heap w), with_heap (heap w ++ [o]) w).

Definition write (l : loc) (o : obj) (w : world) : world :=
  with_heap (<[l := o]> (heap w)) w.

(** [JSON.parse(JSON.stringify(obj))]: a new object with equal content. *)
Definition deepClone (l : loc) (w : world) : loc * world := alloc (read l w) w.

(** *** The base store *)

(** Modelled from the spec: [createGameStore] (state/createGameStore.ts) is
    not among the sources.  Section 4.1: the store owns its state value and
    the initial snapshot; [get] returns an independent copy; [set] replaces
    the state wholesale, [patch] merges the top-level keys of the partial
    into it, [reset] restores the snapshot, and each of them then notifies
    the subscribers, over a snapshot of them. *)
Definition createGameStore (initialState : obj) : world :=
  {| heap := [initialState]; base_state := 0; base_initial := initialState;
     base_subscribers := JsSet.empty; trace := [] |}.

Definition stored (w : world) : obj := read (base_state w) w.

Definition base_get (w : world) : loc * world := deepClone (base_state w) w.

Definition base_notify (w : world) : world :=
  fold_left (fun w cb => log (SubscriberCalled cb (stored w)) w)
            (JsSet.values (base_subscribers w)) w.

Definition base_install (o : obj) (w : world) : world :=
  let '(l, w1) := alloc o w in
  base_notify
    (log (StateInstalled o)
       {| heap := heap w1; base_state := l; base_initial := base_initial w1;
          base_subscribers := base_subscribers w1; trace := trace w1 |}).

Definition base_set (newState : loc) (w : world) : world :=
  base_install (read newState w) w.

Definition base_patch (partial : loc) (w : world) : world :=
  base_install (spread (stored w) (read partial w)) w.

Definition base_reset (w : world) : world := base_install (base_initial w) w.

Definition base_subscribe (callback : nat) (w : world) : world :=
  log (SubscriberCalled callback (stored w))
    {| heap := heap w; base_state := base_state w; base_initial := base_initial w;
       base_subscribers := JsSet.add callback (base_subscribers w);
       trace := trace w |}.

(** *** The wrapper *)

Section Store.
Variable middleware : list Middleware.

(** One turn of the loop of [runBeforePatch]. *)
Definition before_step (state : loc) (currentPatch : loc) (mw : Middleware)
    (w : world) : loc * world :=
  match beforePatch mw with
  | Some hook =>
      let '(s, w1) := deepClone state w in
      let '(p, w2) := deepClone currentPatch w1 in
      let w3 := log (BeforePatchCalled (name mw) (read s w2) (read p w2)) w2 in
      let eff := hook (read s w3) (read p w3) in
      let w4 := write p (be_patch eff) (write s (be_state eff) w3) in
      match be_completion eff with
      | BReturn RetUndefined => (currentPatch, w4)
      | BReturn (RetFresh o) => alloc o w4
      | BReturn RetStateArg => (s, w4)
      | BReturn RetPatchArg => (p, w4)
      | BThrow => (currentPatch, log (ConsoleError (name mw) "beforePatch") w4)
      end
  | None => (currentPatch, w)
  end.

Fixpoint before_loop (mws : list Middleware) (state : loc) (currentPatch : loc)
    (w : world) : loc * world :=
  match mws with
  | [] => (currentPatch, w)
  | mw :: rest =>
      let '(currentPatch', w1) := before_step state currentPatch mw w in
      before_loop rest state currentPatch' w1
  end.

Definition runBeforePatch (state : loc) (patch : loc) (w : world) : loc * world :=
  before_loop middleware state patch w.

(** One turn of the loop of [runAfterPatch]; what the hook returns is
    not bound to anything. *)
Definition after_step (prevState newState patch : loc) (mw : Middleware)
    (w : world) : world :=
  match afterPatch mw with
  | Some hook =>
      let '(a, w1) := deepClone prevState w in
      let '(b, w2) := deepClone newState w1 in
      let '(c, w3) := deepClone patch w2 in
      let w4 := log (AfterPatchCalled (name mw) (read a w3) (read b w3) (read c w3)) w3 in
      let eff := hook (read a w4) (read b w4) (read c w4) in
      let w5 := write c (ae_patch eff)
                  (write b (ae_newState eff) (write a (ae_prevState eff) w4)) in
      match ae_completion eff with
      | AReturn _ => w5
      | AThrow => log (ConsoleError (name mw) "afterPatch") w5
      end
  | None => w
  end.

Definition runAfterPatch (prevState newState patch : loc) (w : world) : world :=
  fold_left (fun w mw => after_step prevState newState patch mw w) middleware w.

Definition get (w : world) : loc * world := base_get w.

Definition set (newState : loc) (w : world) : world :=
  let '(prevState, w1) := base_get w in
  let '(finalState, w2) := runBeforePatch prevState newState w1 in
  let w3 := base_set finalState w2 in
  let '(current, w4) := base_get w3 in
  runAfterPatch prevState current finalState w4.

(** [updater] maps the content of the copy it is given to the content of
    the object it returns. *)
Definition update (updater : obj -> obj) (w : world) : world :=
  let '(prevState, w1) := base_get w in
  let '(copy, w2) := deepClone prevState w1 in
  let '(updatedState, w3) := alloc (updater (read copy w2)) w2 in
  let '(finalState, w4) := runBeforePatch prevState updatedState w3 in
  let w5 := base_set finalState w4 in
  let '(current, w6) := base_get w5 in
  runAfterPatch prevState current finalState w6.

Definition patch (partial : loc) (w : world) : world :=
  let '(prevState, w1) := base_get w in
  let '(finalPatch, w2) := runBeforePatch prevState partial w1 in
  let w3 := base_patch finalPatch w2 in
  let '(current, w4) := base_get w3 in
  runAfterPatch prevState current finalPatch w4.

Definition reset (w : world) : world :=
  let '(prevState, w1) := base_get w in
  let w2 := base_reset w1 in
  let '(newState, w3) := base_get w2 in
  runAfterPatch prevState newState newState w3.

(** The calls with an object literal as argument. *)
Definition patch_literal (partial : obj) (w : world) : world :=
  let '(l, w1) := alloc partial w in patch l w1.

Definition set_literal (newState : obj) (w : world) : world :=
  let '(l, w1) := alloc newState w in set l w1.

End Store.

(** [store.get()] as a value. *)
Definition get_value (w : world) : obj := read (get w).1 (get w).2.

(** The state object of the store exists. *)
Definition valid (w : world) : Prop := base_state w < length (heap w).

(** [w'] has the objects of [w], untouched; it may have more objects. *)
Definition grows (w w' : world) : Prop := ∃ more, heap w' = heap w ++ more.

(** ... and the base store still holds the same state object. *)
Definition extends (w w' : world) : Prop :=
  grows w w' ∧
  base_state w' = base_state w ∧
  base_initial w' = base_initial w ∧
  base_subscribers w' = base_subscribers w.

(** *** The pipeline on values *)

(** The patch a hook call hands on, if any: what it returned. *)
Definition hook_patch (eff : before_effect) : option obj :=
  match be_completion eff with
  | BReturn RetUndefined => None
  | BReturn (RetFresh o) => Some o
  | BReturn RetStateArg => Some (be_state eff)
  | BReturn RetPatchArg => Some (be_patch eff)
  | BThrow => None
  end.

(** The current patch after the turn of [mw]. *)
Definition step_patch (mw : Middleware) (state currentPatch : obj) : obj :=
  match beforePatch mw with
  | Some hook => default currentPatch (hook_patch (hook state currentPatch))
  | None => currentPatch
  end.

(** Sequential chaining: each hook is given the patch as the hooks
    before it left it. *)
Definition chained_patch (mws : list Middleware) (state patch : obj) : obj :=
  fold_left (fun currentPatch mw => step_patch mw state currentPatch) mws patch.

Definition before_step_events (mw : Middleware) (state currentPatch : obj)
    : list event :=
  match beforePatch mw with
  | Some hook =>
      BeforePatchCalled (name mw) state currentPatch ::
      match be_completion (hook state currentPatch) with
      | BThrow => [ConsoleError (name mw) "beforePatch"]
      | BReturn _ => []
      end
  | None => []
  end.

Fixpoint before_events (mws : list Middleware) (state currentPatch : obj)
    : list event :=
  match mws with
  | [] => []
  | mw :: rest =>
      before_step_events mw state currentPatch
      ++ before_events rest state (step_patch mw state currentPatch)
  end.

Definition after_step_events (prevState newState patch : obj) (mw : Middleware)
    : list event :=
  match afterPatch mw with
  | Some hook =>
      AfterPatchCalled (name mw) prevState newState patch ::
      match ae_completion (hook prevState newState patch) with
      | AThrow => [ConsoleError (name mw) "afterPatch"]
      | AReturn _ => []
      end
  | None => []
  end.

Definition after_events (mws : list Middleware) (prevState newState patch : obj)
    : list event :=
  flat_map (after_step_events prevState newState patch) mws.

Definition install_events (subs : JsSet.jsset nat) (newState : obj) : list event :=
  StateInstalled newState ::
  ((fun cb => SubscriberCalled cb newState) <$> JsSet.values subs).

(** The hooks a write calls, in order, around the write itself. *)
Definition expected_order (mws : list Middleware) : list (string * string) :=
  omap (fun mw => (fun _ => (name mw, "beforePatch")) <$> beforePatch mw) mws
  ++ [("", "write")]
  ++ omap (fun mw => (fun _ => (name mw, "afterPatch")) <$> afterPatch mw) mws.

(** The names of the hooks called, in the order of the calls. *)
Definition hook_order (t : list event) : list (string * string) :=
  omap (fun e => match e with
                 | BeforePatchCalled n _ _ => Some (n, "beforePatch")
                 | AfterPatchCalled n _ _ _ => Some (n, "afterPatch")
                 | StateInstalled _ => Some ("", "write")
                 | _ => None
                 end) t.

(** *** The hooks of the tests *)

Definition returns (r : returned) (state patch : obj) : before_effect :=
  {| be_state := state; be_patch := patch; be_completion := BReturn r |}.

(** [if (patch.count !== undefined) return { ...patch, count: f(patch.count) }] *)
Definition on_count (f : Z -> Z) (state patch : obj) : before_effect :=
  match get_field patch "count" with
  | Some (JNum n) => returns (RetFresh (spread patch [("count", JNum (f n))])) state patch
  | _ => returns RetUndefined state patch
  end.

Definition doubling : Middleware :=
  {| name := "double"; beforePatch := Some (on_count (fun n => n * 2)%Z);
     afterPatch := None |}.

Definition addingOne : Middleware :=
  {| name := "addOne"; beforePatch := Some (on_count (fun n => n + 1)%Z);
     afterPatch := None |}.

(** A hook that answers every write with the patch [{ count: 1 }]. *)
Definition countOnly : Middleware :=
  {| name := "countOnly";
     beforePatch := Some (returns (RetFresh [("count", JNum 1)]));
     afterPatch := None |}.

(** [afterPatch(prevState, newState) { newState.count = 999 }], which also
    returns one of the objects it was given. *)
Definition meddling : Middleware :=
  {| name := "meddler"; beforePatch := None;
     afterPatch := Some (fun prevState newState patch =>
       {| ae_prevState := prevState;
          ae_newState := set_field newState "count" (JNum 999);
          ae_patch := patch;
          ae_completion := AReturn (Some (JObj newState)) |}) |}.

Definition initialState : obj :=
  [("count", JNum 0); ("name", JStr "test"); ("items", JArr [])].

Definition replacement : obj :=
  [("count", JNum 5); ("name", JStr "replaced"); ("items", JArr [JStr "a"])].

(** The same middleware with what its [afterPatch] returns forgotten. *)
Definition forget_return (mw : Middleware) : Middleware :=
  {| name := name mw;
     beforePatch := beforePatch mw;
     afterPatch :=
       (fun hook prevState newState patch =>
          let eff := hook prevState newState patch in
          {| ae_prevState := ae_prevState eff;
             ae_newState := ae_newState eff;
             ae_patch := ae_patch eff;
             ae_completion := match ae_completion eff with
                              | AReturn _ => AReturn None
                              | AThrow => AThrow
                              end |}) <$> afterPatch mw |}.

(** A middleware whose [beforePatch], if it has one, throws on every call. *)
Definition always_throws (mw : Middleware) : Prop :=
  ∀ hook state patch,
    beforePatch mw = Some hook -> be_completion (hook state patch) = BThrow.

(** [beforePatch() { throw new Error(...) }] *)
Definition failing : Middleware :=
  {| name := "failing";
     beforePatch := Some (fun state patch =>
       {| be_state := state; be_patch := patch; be_completion := BThrow |});
     afterPatch := None |}.

(** [beforePatch(state, patch) { state.count = 999; patch.count = 999 }],
    which returns nothing. *)
Definition meddlingBefore : Middleware :=
  {| name := "meddler";
     beforePatch := Some (fun state patch =>
       {| be_state := set_field state "count" (JNum 999);
          be_patch := set_field patch "count" (JNum 999);
          be_completion := BReturn RetUndefined |});
     afterPatch := None |}.

End Middleware.

(** ** Scoped store (state/createScopedStore.ts) *)

Module ScopedStore.
Import Json.

Record ScopedStoreOptions := {
  select : obj -> obj;
  update : obj -> obj -> obj
}.

(** The functions subscribed to the parent store: the arrow function that
    [createScopedStore] registers, and those of the application. *)
Inductive parent_callback :=
| ScopedHandler
| ParentFn (id : nat).

#[global] Instance parent_callback_eq_decision : EqDecision parent_callback.
Proof. solve_decision. Defined.

Inductive call :=
| CSet (newState : obj)
| CPatch (partial : obj)
| CReset
| CSubscribe (callback : nat)
| CUnsubscribe (callback : nat)
| CSubscribeToKey (key : string) (callback : nat)
| CUnsubscribeFromKey (key : string) (callback : nat)
| CParentSet (newState : obj)
| CParentPatch (partial : obj)
| CParentSubscribe (callback : nat).

Inductive stmt :=
| Call (c : call)
| Throw.

Definition script := list stmt.

Record bodies := {
  subscriberBody : nat -> obj -> script;
  keySubscriberBody : nat -> option json -> script;
  parentSubscriberBody : nat -> obj -> script
}.

Inductive event :=
| SubscriberCalled (callback : nat) (state : obj)
| KeySubscriberCalled (key : string) (callback : nat) (value : option json)
| ParentSubscriberCalled (callback : nat) (state : obj)
| ConsoleError (message : string).

Record world := {
  parent_state : obj;
  parent_initial : obj;
  parent_subscribers : JsSet.jsset parent_callback;
  initialScopedState : obj;
  lastScopedState : obj;
  subscribers : JsSet.jsset nat;
  keySubscribers : gmap string (JsSet.jsset nat);
  trace : list event
}.

Definition log (e : event) (w : world) : world :=
  {| parent_state := parent_state w; parent_initial := parent_initial w;
     parent_subscribers := parent_subscribers w;
     initialScopedState := initialScopedState w;
     lastScopedState := lastScopedState w; subscribers := subscribers w;
     keySubscribers := keySubscribers w; trace := trace w ++ [e] |}.

Definition with_parent_state (s : obj) (w : world) : world :=
  {| parent_state := s; parent_initial := parent_initial w;
     parent_subscribers := parent_subscribers w;
     initialScopedState := initialScopedState w;
     lastScopedState := lastScopedState w; subscribers := subscribers w;
     keySubscribers := keySubscribers w; trace := trace w |}.

Definition with_parent_subscribers (s : JsSet.jsset parent_callback) (w : world) : world :=
  {| parent_state := parent_state w; parent_initial := parent_initial w;
     parent_subscribers := s;
     initialScopedState := initialScopedState w;
     lastScopedState := lastScopedState w; subscribers := subscribers w;
     keySubscribers := keySubscribers w; trace := trace w |}.

Definition with_lastScopedState (s : obj) (w : world) : world :=
  {| parent_state := parent_state w; parent_initial := parent_initial w;
     parent_subscribers := parent_subscribers w;
     initialScopedState := initialScopedState w;
     lastScopedState := s; subscribers := subscribers w;
     keySubscribers := keySubscribers w; trace := trace w |}.

Definition with_subscribers (s : JsSet.jsset nat) (w : world) : world :=
  {| parent_state := parent_state w; parent_initial := parent_initial w;
     parent_subscribers := parent_subscribers w;
     initialScopedState := initialScopedState w;
     lastScopedState := lastScopedState w; subscribers := s;
     keySubscribers := keySubscribers w; trace := trace w |}.

Definition with_keySubscribers (m : gmap string (JsSet.jsset nat)) (w : world) : world :=
  {| parent_state := parent_state w; parent_initial := parent_initial w;
     parent_subscribers := parent_subscribers w;
     initialScopedState := initialScopedState w;
     lastScopedState := lastScopedState w; subscribers := subscribers w;
     keySubscribers := m; trace := trace w |}.

(** [new Set([...Object.keys(oldState), ...Object.keys(newState)])] *)
Definition allKeys (oldState newState : obj) : list string :=
  JsSet.values
    (fold_left (fun s k => JsSet.add k s) (keys oldState ++ keys newState)
               JsSet.empty).

Definition key_changed (oldState newState : obj) (key : string) : bool :=
  bool_decide (stringify_opt (get_field oldState key)
               ≠ stringify_opt (get_field newState key)).

Definition getChangedKeys (oldState newState : obj) : list string :=
  List.filter (key_changed oldState newState) (allKeys oldState newState).

Inductive completion := Normal | Thrown.

Section Interpreter.
Variable options : ScopedStoreOptions.
Variable env : bodies.

Section Step.
Variable api : call -> world -> option (completion * world).

(** Run a callback body; an exception leaving a call it makes leaves the
    body too. *)
Fixpoint run_body (s : script) (w : world) : option (completion * world) :=
  match s with
  | [] => Some (Normal, w)
  | Throw :: _ => Some (Thrown, w)
  | Call c :: rest =>
      r ← api c w;
      match r with
      | (Normal, w1) => run_body rest w1
      | (Thrown, w1) => Some (Thrown, w1)
      end
  end.

(** [cb(snapshot)], with nothing around it. *)
Definition call_subscriber (callback : nat) (snapshot : obj) (w : world)
    : option (completion * world) :=
  run_body (subscriberBody env callback snapshot)
           (log (SubscriberCalled callback snapshot) w).

(** [subscribers.forEach((cb) => cb(snapshot))] from entry [i] on. *)
Fixpoint forEach_from (steps : nat) (i : nat) (snapshot : obj) (w : world)
    : option (completion * world) :=
  match steps with
  | 0 => None
  | S steps =>
      match subscribers w !! i with
      | None => Some (Normal, w)
      | Some None => forEach_from steps (S i) snapshot w
      | Some (Some callback) =>
          r ← call_subscriber callback snapshot w;
          match r with
          | (Normal, w1) => forEach_from steps (S i) snapshot w1
          | (Thrown, w1) => Some (Thrown, w1)
          end
      end
  end.

Definition notify (steps : nat) (state : obj) (w : world)
    : option (completion * world) :=
  let snapshot := deepClone state in
  forEach_from steps 0 snapshot w.

Definition call_key_subscriber (key : string) (callback : nat)
    (value : option json) (w : world) : option (completion * world) :=
  run_body (keySubscriberBody env callback value)
           (log (KeySubscriberCalled key callback value) w).

(** [subs.forEach((cb) => cb(value))] for the set registered under [key]. *)
Fixpoint key_forEach_from (steps : nat) (i : nat) (key : string)
    (value : option json) (w : world) : option (completion * world) :=
  match steps with
  | 0 => None
  | S steps =>
      match default JsSet.empty (keySubscribers w !! key) !! i with
      | None => Some (Normal, w)
      | Some None => key_forEach_from steps (S i) key value w
      | Some (Some callback) =>
          r ← call_key_subscriber key callback value w;
          match r with
          | (Normal, w1) => key_forEach_from steps (S i) key value w1
          | (Thrown, w1) => Some (Thrown, w1)
          end
      end
  end.

Fixpoint notifyKeySubscribers (steps : nat) (changedKeys : list string)
    (state : obj) (w : world) : option (completion * world) :=
  match changedKeys with
  | [] => Some (Normal, w)
  | key :: rest =>
      r ← match keySubscribers w !! key with
          | Some _ => key_forEach_from steps 0 key (get_field state key) w
          | None => Some (Normal, w)
          end;
      match r with
      | (Normal, w1) => notifyKeySubscribers steps rest state w1
      | (Thrown, w1) => Some (Thrown, w1)
      end
  end.

(** The function subscribed to the parent store. *)
Definition handler (steps : nat) (parentState : obj) (w : world)
    : option (completion * world) :=
  let currentScoped := select options parentState in
  let changedKeys := getChangedKeys (lastScopedState w) currentScoped in
  if decide (0 < length changedKeys) then
    let w1 := with_lastScopedState (deepClone currentScoped) w in
    r ← notify steps currentScoped w1;
    match r with
    | (Normal, w2) => notifyKeySubscribers steps changedKeys currentScoped w2
    | (Thrown, w2) => Some (Thrown, w2)
    end
  else Some (Normal, w).

(** *** The parent store *)

(** Modelled from the spec: [createGameStore] (state/createGameStore.ts) is
    not among the sources.  Section 4.1: a write installs the new state and
    then notifies; the notification goes over a snapshot of the subscribers,
    each called with a copy of the state, an exception of one being caught
    and logged so that the others still run. *)
Definition parent_call (steps : nat) (cb : parent_callback) (state : obj)
    (w : world) : option world :=
  r ← match cb with
      | ScopedHandler => handler steps state w
      | ParentFn f =>
          run_body (parentSubscriberBody env f state)
                   (log (ParentSubscriberCalled f state) w)
      end;
  match r with
  | (Normal, w1) => Some w1
  | (Thrown, w1) => Some (log (ConsoleError "store subscriber error") w1)
  end.

Fixpoint parent_notify_loop (steps : nat) (snapshot : list parent_callback)
    (state : obj) (w : world) : option world :=
  match snapshot with
  | [] => Some w
  | cb :: rest =>
      w1 ← parent_call steps cb state w;
      parent_notify_loop steps rest state w1
  end.

Definition parent_notify (steps : nat) (w : world) : option world :=
  parent_notify_loop steps (JsSet.values (parent_subscribers w))
                     (parent_state w) w.

Definition parent_get (w : world) : obj := deepClone (parent_state w).

Definition parent_set (steps : nat) (newState : obj) (w : world) : option world :=
  parent_notify steps (with_parent_state newState w).

Definition parent_patch (steps : nat) (partial : obj) (w : world) : option world :=
  parent_notify steps (with_parent_state (spread (parent_state w) partial) w).

Definition parent_subscribe (steps : nat) (cb : parent_callback) (w : world)
    : option world :=
  parent_call steps cb (parent_state w)
    (with_parent_subscribers (JsSet.add cb (parent_subscribers w)) w).

(** *** The methods of the scoped store *)

Definition scoped_set (steps : nat) (newState : obj) (w : world) : option world :=
  let parentState := parent_get w in
  let newParentState := update options parentState (deepClone newState) in
  parent_set steps newParentState w.

Definition scoped_patch (steps : nat) (partial : obj) (w : world) : option world :=
  let currentScoped := select options (parent_get w) in
  let newScoped := spread currentScoped (deepClone partial) in
  scoped_set steps newScoped w.

(** [updater] maps the content of the copy it is given to the content of
    the object it returns. *)
Definition scoped_update (steps : nat) (updater : obj -> obj) (w : world)
    : option world :=
  let currentScoped := select options (parent_get w) in
  let newScoped := updater (deepClone currentScoped) in
  scoped_set steps newScoped w.

Definition scoped_reset (steps : nat) (w : world) : option world :=
  scoped_set steps (deepClone (initialScopedState w)) w.

Definition scoped_subscribe (callback : nat) (w : world)
    : option (completion * world) :=
  let w1 := with_subscribers (JsSet.add callback (subscribers w)) w in
  call_subscriber callback (deepClone (select options (parent_get w1))) w1.

Definition scoped_subscribeToKey (key : string) (callback : nat) (w : world)
    : option (completion * world) :=
  let m := if decide (is_Some (keySubscribers w !! key)) then keySubscribers w
           else <[key := JsSet.empty]> (keySubscribers w) in
  let w1 := with_keySubscribers (alter (JsSet.add callback) key m) w in
  let currentState := select options (parent_get w1) in
  call_key_subscriber key callback (get_field currentState key) w1.

End Step.

Definition normally (r : option world) : option (completion * world) :=
  w ← r; Some (Normal, w).

Fixpoint exec (fuel : nat) (c : call) (w : world) : option (completion * world) :=
  match fuel with
  | 0 => None
  | S fuel =>
      match c with
      | CSet newState => normally (scoped_set (exec fuel) fuel newState w)
      | CPatch partial => normally (scoped_patch (exec fuel) fuel partial w)
      | CReset => normally (scoped_reset (exec fuel) fuel w)
      | CSubscribe callback => scoped_subscribe (exec fuel) callback w
      | CUnsubscribe callback =>
          Some (Normal, with_subscribers (JsSet.delete callback (subscribers w)) w)
      | CSubscribeToKey key callback =>
          scoped_subscribeToKey (exec fuel) key callback w
      | CUnsubscribeFromKey key callback =>
          Some (Normal,
                with_keySubscribers
                  (alter (JsSet.delete callback) key (keySubscribers w)) w)
      | CParentSet newState => normally (parent_set (exec fuel) fuel newState w)
      | CParentPatch partial => normally (parent_patch (exec fuel) fuel partial w)
      | CParentSubscribe callback =>
          normally (parent_subscribe (exec fuel) fuel (ParentFn callback) w)
      end
  end.

(** [createGameStore(initialState)] followed by
    [createScopedStore(parentStore, options)]: the two snapshots are taken
    and the handler is subscribed, which calls it once. *)
Definition createScopedStore (fuel : nat) (initialState : obj) : option world :=
  let scoped := deepClone (select options initialState) in
  parent_subscribe (exec fuel) fuel ScopedHandler
    {| parent_state := initialState; parent_initial := initialState;
       parent_subscribers := JsSet.empty;
       initialScopedState := scoped; lastScopedState := scoped;
       subscribers := JsSet.empty; keySubscribers := ∅; trace := [] |}.

Definition get (w : world) : obj := deepClone (select options (parent_get w)).

End Interpreter.

(** The lens of the tests: the scope is the object under a top-level key. *)
Definition field_scope (k : string) : ScopedStoreOptions :=
  {| select := fun state =>
       match get_field state k with Some (JObj o) => o | _ => [] end;
     update := fun state scoped => spread state [(k, JObj scoped)] |}.

(** Functions that return without calling back into either store. *)
Definition passive (env : bodies) : Prop :=
  (∀ callback state, subscriberBody env callback state = []) ∧
  (∀ callback value, keySubscriberBody env callback value = []) ∧
  (∀ callback state, parentSubscriberBody env callback state = []).

Definition passive_bodies : bodies :=
  {| subscriberBody := fun _ _ => [];
     keySubscriberBody := fun _ _ => [];
     parentSubscriberBody := fun _ _ => [] |}.

(** Subscriber [0] throws once the health is no longer [100], subscriber
    [9] throws always; the others return. *)
Definition first_throws : bodies :=
  {| subscriberBody := fun callback state =>
       match callback, get_field state "health" with
       | 0, Some (JNum 100) => []
       | 0, _ => [Throw]
       | 9, _ => [Throw]
       | _, _ => []
       end;
     keySubscriberBody := fun _ _ => [];
     parentSubscriberBody := fun _ _ => [] |}.

(** Enough steps for one pass over each set of scoped subscribers. *)
Definition enough (steps : nat) (w : world) : Prop :=
  length (subscribers w) < steps ∧
  ∀ key subs, keySubscribers w !! key = Some subs -> length subs < steps.

Definition log_all (es : list event) (w : world) : world :=
  {| parent_state := parent_state w; parent_initial := parent_initial w;
     parent_subscribers := parent_subscribers w;
     initialScopedState := initialScopedState w;
     lastScopedState := lastScopedState w; subscribers := subscribers w;
     keySubscribers := keySubscribers w; trace := trace w ++ es |}.

(** One pass over the whole-state subscribers present. *)
Definition subscriber_events (w : world) (state : obj) : list event :=
  (fun callback => SubscriberCalled callback state) <$> JsSet.values (subscribers w).

(** One pass over the subscribers of [key] present. *)
Definition key_events (w : world) (state : obj) (key : string) : list event :=
  (fun callback => KeySubscriberCalled key callback (get_field state key))
    <$> JsSet.values (default JsSet.empty (keySubscribers w !! key)).

(** The calls of scoped subscribers that a trace records. *)
Definition is_scoped_call (e : event) : bool :=
  match e with
  | SubscriberCalled _ _ | KeySubscriberCalled _ _ _ => true
  | ParentSubscriberCalled _ _ | ConsoleError _ => false
  end.

Definition scoped_calls (t : list event) : list event :=
  List.filter is_scoped_call t.

(** The state and the stores of the tests. *)
Definition player : obj :=
  [("name", JStr "Hero"); ("health", JNum 100); ("level", JNum 1)].

Definition initialParentState : obj :=
  [("player", JObj player); ("score", JNum 0)].

(** A notification changes neither store's state nor who is subscribed. *)
Definition same_stores (w w' : world) : Prop :=
  parent_state w' = parent_state w ∧
  parent_initial w' = parent_initial w ∧
  parent_subscribers w' = parent_subscribers w ∧
  initialScopedState w' = initialScopedState w ∧
  subscribers w' = subscribers w ∧
  keySubscribers w' = keySubscribers w.

(** [callback.mockClear()]: forget the calls so far. *)
Definition mockClear (w : world) : world :=
  {| parent_state := parent_state w; parent_initial := parent_initial w;
     parent_subscribers := parent_subscribers w;
     initialScopedState := initialScopedState w;
     lastScopedState := lastScopedState w; subscribers := subscribers w;
     keySubscribers := keySubscribers w; trace := [] |}.

(** The player scope with two subscribers and one on the key [health]. *)
Definition watched_player (env : bodies) : option world :=
  w0 ← createScopedStore (field_scope "player") env 5 initialParentState;
  r1 ← exec (field_scope "player") env 5 (CSubscribe 0) w0;
  r2 ← exec (field_scope "player") env 5 (CSubscribe 1) r1.2;
  r3 ← exec (field_scope "player") env 5 (CSubscribeToKey "health" 2) r2.2;
  Some (mockClear r3.2).

(** A body in which the subscriber at most unsubscribes itself. *)
Definition only_leaves (callback : nat) (s : script) : bool :=
  forallb (fun x => match x with
                    | Call (CUnsubscribe c) => bool_decide (c = callback)
                    | _ => false
                    end) s.

Definition leaving (env : bodies) : Prop :=
  ∀ callback state, only_leaves callback (subscriberBody env callback state) = true.

Definition leaving_bodies : bodies :=
  {| subscriberBody := fun callback _ => [Call (CUnsubscribe callback)];
     keySubscriberBody := fun _ _ => [];
     parentSubscriberBody := fun _ _ => [] |}.

(** Subscriber [0], when the health is [75], unsubscribes subscriber [1]
    and subscribes the new subscriber [3]; the others return. *)
Definition rewiring_bodies : bodies :=
  {| subscriberBody := fun callback state =>
       match callback, get_field state "health" with
       | 0, Some (JNum 75) => [Call (CUnsubscribe 1); Call (CSubscribe 3)]
       | _, _ => []
       end;
     keySubscriberBody := fun _ _ => [];
     parentSubscriberBody := fun _ _ => [] |}.

(** The world these calls build. *)
Definition watched_player_world : world :=
  {| parent_state := initialParentState;
     parent_initial := initialParentState;
     parent_subscribers := [Some ScopedHandler];
     initialScopedState := player;
     lastScopedState := player;
     subscribers := [Some 0; Some 1];
     keySubscribers := {["health" := [Some 2]]};
     trace := [] |}.

(** The lens law that makes a scoped write readable: what [update] puts,
    [select] gets. *)
Definition put_get (options : ScopedStoreOptions) : Prop :=
  ∀ state scoped, select options (update options state scoped) = scoped.

(** The handler of the scoped store is subscribed to the parent store. *)
Definition attached (w : world) : Prop :=
  ScopedHandler ∈ JsSet.values (parent_subscribers w).

(** The subscribers registered for [key]. *)
Definition key_registered (w : world) (key : string) : list nat :=
  JsSet.values (default JsSet.empty (keySubscribers w !! key)).

End ScopedStore.

(** ** Scene store (scenes/sceneStore.ts) *)

Module SceneStore.
Import Json.

(** [goto], [push] and [pop] are async functions.  The model runs one call
    to completion: it gives the store as it is when the promise the call
    returned has settled, and how it settled.  The calls are made one after
    the other, each promise awaited before the next call, and the hooks
    and subscribers do not call the store. *)

(** [onEnter] and [onExit] are identities of functions. *)
Record SceneDefinition := {
  id : string;
  component : json;
  onEnter : option nat;
  onExit : option nat;
  data : option json
}.

(** [previousScene]: [None] is [null]; [transition]: [JNull] is [null]. *)
Record SceneState := {
  currentScene : string;
  previousScene : option string;
  isTransitioning : bool;
  transition : json
}.

#[global] Instance SceneState_eq_decision : EqDecision SceneState.
Proof. solve_decision. Defined.

Definition defaultTransition : json :=
  JObj [("type", JStr "none"); ("duration", JNum 0)].

(** [obj !== null && typeof obj === 'object' && 'type' in obj], on an object. *)
Definition isSceneTransition (o : obj) : bool := bool_decide ("type" ∈ keys o).

(** What is thrown, or what the promise is rejected with: the errors the
    store creates, or whatever a hook or a subscriber raised. *)
Inductive error :=
| ScenesEmpty                             (* Scenes array cannot be empty *)
| InitialSceneNotFound (initialScene : string)
| SceneNotFound (targetId : string)
| HookRaised (hook : nat)
| SubscriberRaised (callback : nat).

Inductive outcome :=
| Fulfilled
| Rejected (e : error).

Inductive event :=
| SubscriberCalled (callback : nat) (state : SceneState)
| OnExitCalled (hook : nat)
| OnEnterCalled (hook : nat).

Inductive completion := Normal | Thrown.

(** How the functions of the application end: a subscriber given a state,
    a hook called while the store shows a state. *)
Record bodies := {
  subscriberBody : nat -> SceneState -> completion;
  hookBody : nat -> SceneState -> completion
}.

Record world := {
  sceneMap : gmap string SceneDefinition;
  state : SceneState;
  sceneStack : list string;               (* the array, bottom first *)
  subscribers : JsSet.jsset nat;
  currentSceneData : json;                (* [JNull] is [null] *)
  trace : list event
}.

Definition log (e : event) (w : world) : world :=
  {| sceneMap := sceneMap w; state := state w; sceneStack := sceneStack w;
     subscribers := subscribers w; currentSceneData := currentSceneData w;
     trace := trace w ++ [e] |}.

Definition with_state (s : SceneState) (w : world) : world :=
  {| sceneMap := sceneMap w; state := s; sceneStack := sceneStack w;
     subscribers := subscribers w; currentSceneData := currentSceneData w;
     trace := trace w |}.

Definition with_sceneStack (l : list string) (w : world) : world :=
  {| sceneMap := sceneMap w; state := state w; sceneStack := l;
     subscribers := subscribers w; currentSceneData := currentSceneData w;
     trace := trace w |}.

Definition with_subscribers (s : JsSet.jsset nat) (w : world) : world :=
  {| sceneMap := sceneMap w; state := state w; sceneStack := sceneStack w;
     subscribers := s; currentSceneData := currentSceneData w;
     trace := trace w |}.

Definition with_currentSceneData (d : json) (w : world) : world :=
  {| sceneMap := sceneMap w; state := state w; sceneStack := sceneStack w;
     subscribers := subscribers w; currentSceneData := d;
     trace := trace w |}.

(** A step of an async function: it goes on, or the promise is rejected. *)
Definition action := world -> outcome * world.

Definition and_then (a b : action) : action :=
  fun w => match a w with
           | (Fulfilled, w1) => b w1
           | (Rejected e, w1) => (Rejected e, w1)
           end.

Notation "a >>> b" := (and_then a b) (at level 62, right associativity).

Section Store.
Variable env : bodies.

(** [subscribers.forEach((cb) => cb({ ...state }))]: an exception of a
    subscriber leaves the loop. *)
Fixpoint notify_loop (l : list nat) : action :=
  fun w =>
    match l with
    | [] => (Fulfilled, w)
    | cb :: rest =>
        let w1 := log (SubscriberCalled cb (state w)) w in
        match subscriberBody env cb (state w) with
        | Normal => notify_loop rest w1
        | Thrown => (Rejected (SubscriberRaised cb), w1)
        end
    end.

Definition notify : action :=
  fun w => notify_loop (JsSet.values (subscribers w)) w.

(** [state = { ...state, ...partial }; notify()], with the partial given
    as the change it makes. *)
Definition setState (partial : SceneState -> SceneState) : action :=
  fun w => notify (with_state (partial (state w)) w).

(** [if (hook) await hook()] *)
Definition await_hook (called : nat -> event) (hook : option nat) : action :=
  fun w =>
    match hook with
    | Some h =>
        let w1 := log (called h) w in
        match hookBody env h (state w) with
        | Normal => (Fulfilled, w1)
        | Thrown => (Rejected (HookRaised h), w1)
        end
    | None => (Fulfilled, w)
    end.

(** [data ?? null] *)
Definition or_null (data : option json) : json := default JNull data.

Definition transitionTo (targetId : string) (transition : option json)
    (data : option json) : action :=
  fun w =>
    let transition := default defaultTransition transition in
    match sceneMap w !! targetId with
    | None => (Rejected (SceneNotFound targetId), w)
    | Some targetScene =>
        if decide (currentScene (state w) = targetId) then (Fulfilled, w)
        else
          let currentScene_ := sceneMap w !! currentScene (state w) in
          (setState (fun s =>
             {| currentScene := currentScene s; previousScene := previousScene s;
                isTransitioning := true; transition := transition |}) >>>
           await_hook OnExitCalled (currentScene_ ≫= onExit) >>>
           (fun w => (Fulfilled, with_currentSceneData (or_null data) w)) >>>
           (fun w =>
              let previous := currentScene (state w) in
              setState (fun s =>
                {| currentScene := targetId; previousScene := Some previous;
                   isTransitioning := isTransitioning s;
                   transition := SceneStore.transition s |}) w) >>>
           await_hook OnEnterCalled (onEnter targetScene) >>>
           setState (fun s =>
             {| currentScene := currentScene s; previousScene := previousScene s;
                isTransitioning := false; transition := JNull |})) w
    end.

(** The options of [goto] and [push]: a transition, or an object with the
    optional fields [transition] and [data]. *)
Definition parse (options : option obj) : option json * option json :=
  match options with
  | Some o =>
      if isSceneTransition o then (Some (JObj o), None)
      else (get_field o "transition", get_field o "data")
  | None => (None, None)
  end.

Definition goto (sceneId : string) (options : option obj) : action :=
  fun w =>
    let w1 := with_sceneStack [] w in
    let '(transition, data) := parse options in
    transitionTo sceneId transition data w1.

Definition push (sceneId : string) (options : option obj) : action :=
  fun w =>
    let w1 := with_sceneStack (sceneStack w ++ [currentScene (state w)]) w in
    let '(transition, data) := parse options in
    transitionTo sceneId transition data w1.

Definition pop (transition : option json) : action :=
  fun w =>
    match last (sceneStack w) with
    | None => (Fulfilled, w)
    | Some previousScene =>
        let w1 := with_sceneStack (removelast (sceneStack w)) w in
        transitionTo previousScene transition None w1
    end.

(** [subscribe]: the callback is added and called at once; the handle
    returned is [unsubscribe callback]. *)
Definition subscribe (callback : nat) (w : world) : completion * world :=
  let w1 := with_subscribers (JsSet.add callback (subscribers w)) w in
  (subscriberBody env callback (state w1),
   log (SubscriberCalled callback (state w1)) w1).

End Store.

Definition unsubscribe (callback : nat) (w : world) : world :=
  with_subscribers (JsSet.delete callback (subscribers w)) w.

Definition getState (w : world) : SceneState := state w.
Definition canGoBack (w : world) : bool := bool_decide (0 < length (sceneStack w)).
Definition getStackDepth (w : world) : nat := length (sceneStack w).
Definition getSceneById (w : world) (i : string) : option SceneDefinition :=
  sceneMap w !! i.
Definition getCurrentSceneComponent (w : world) : option json :=
  component <$> sceneMap w !! currentScene (state w).
Definition getSceneData (w : world) : json := currentSceneData w.

Inductive construction :=
| Throws (e : error)
| Store (w : world).

(** [new Map(scenes.map((s) => [s.id, s]))] *)
Definition scene_map (scenes : list SceneDefinition) : gmap string SceneDefinition :=
  foldl (fun m s => <[id s := s]> m) ∅ scenes.

Definition createSceneStore (scenes : list SceneDefinition) (initialScene : string)
    : construction :=
  if decide (length scenes = 0) then Throws ScenesEmpty
  else
    let sceneMap := scene_map scenes in
    if decide (is_Some (sceneMap !! initialScene)) then
      Store {| sceneMap := sceneMap;
               state := {| currentScene := initialScene; previousScene := None;
                           isTransitioning := false; transition := JNull |};
               sceneStack := [];
               subscribers := JsSet.empty;
               currentSceneData := JNull;
               trace := [] |}
    else Throws (InitialSceneNotFound initialScene).

(** [{ ...store, subscribe: store.subscribe }]: the same store. *)
Definition createSvelteSceneStore := createSceneStore.

(** The calls an application makes on the store, one after the other. *)
Inductive call :=
| Goto (sceneId : string) (options : option obj)
| Push (sceneId : string) (options : option obj)
| Pop (transition : option json)
| Subscribe (callback : nat)
| Unsubscribe (callback : nat).

Definition exec (env : bodies) (c : call) (w : world) : world :=
  match c with
  | Goto sceneId options => (goto env sceneId options w).2
  | Push sceneId options => (push env sceneId options w).2
  | Pop transition => (pop env transition w).2
  | Subscribe callback => (subscribe env callback w).2
  | Unsubscribe callback => unsubscribe callback w
  end.

Definition run (env : bodies) (cs : list call) (w : world) : world :=
  foldl (fun w c => exec env c w) w cs.

(** Functions that all return. *)
Definition calm (env : bodies) : Prop :=
  (∀ callback s, subscriberBody env callback s = Normal) ∧
  (∀ hook s, hookBody env hook s = Normal).

Definition calm_bodies : bodies :=
  {| subscriberBody := fun _ _ => Normal; hookBody := fun _ _ => Normal |}.

(** One notification of the subscribers present, each given [s]. *)
Definition notifications (w : world) (s : SceneState) : list event :=
  (fun callback => SubscriberCalled callback s) <$> JsSet.values (subscribers w).

Definition log_all (es : list event) (w : world) : world :=
  {| sceneMap := sceneMap w; state := state w; sceneStack := sceneStack w;
     subscribers := subscribers w; currentSceneData := currentSceneData w;
     trace := trace w ++ es |}.

(** The scenes an id can name, and a store that shows and remembers only
    such scenes. *)
Definition known (w : world) (i : string) : Prop := is_Some (sceneMap w !! i).

Definition well_formed (w : world) : Prop :=
  known w (currentScene (state w)) ∧ Forall (known w) (sceneStack w).

(** The three states a completed transition shows to the subscribers. *)
Definition began (transition : json) (s : SceneState) : SceneState :=
  {| currentScene := currentScene s; previousScene := previousScene s;
     isTransitioning := true; transition := transition |}.

Definition switched (targetId : string) (transition : json) (s : SceneState)
    : SceneState :=
  {| currentScene := targetId; previousScene := Some (currentScene s);
     isTransitioning := true; transition := transition |}.

Definition arrived (targetId : string) (s : SceneState) : SceneState :=
  {| currentScene := targetId; previousScene := Some (currentScene s);
     isTransitioning := false; transition := JNull |}.

Definition hook_events (called : nat -> event) (hook : option nat) : list event :=
  match hook with Some h => [called h] | None => [] end.

(** What no step of a navigation touches. *)
Definition frame (w w' : world) : Prop :=
  sceneMap w' = sceneMap w ∧ sceneStack w' = sceneStack w ∧
  subscribers w' = subscribers w.

(** The outcomes that are not an error of the store's own: fulfilled, or
    rejected with what a function of the application raised. *)
Definition raised (o : outcome) : Prop :=
  match o with
  | Fulfilled | Rejected (HookRaised _) | Rejected (SubscriberRaised _) => True
  | Rejected _ => False
  end.

(** The scenes of the tests. *)
Definition scene (name : string) : SceneDefinition :=
  {| id := name; component := JObj [("name", JStr name)];
     onEnter := None; onExit := None; data := None |}.

Definition testScenes : list SceneDefinition :=
  [scene "menu"; scene "game"; scene "settings"].

(** The store that [createSceneStore(scenes, 'menu')] builds for them. *)
Definition menuStore : world :=
  {| sceneMap := scene_map testScenes;
     state := {| currentScene := "menu"; previousScene := None;
                 isTransitioning := false; transition := JNull |};
     sceneStack := [];
     subscribers := JsSet.empty;
     currentSceneData := JNull;
     trace := [] |}.

(** The same scenes where leaving the menu calls the hook [1] and
    entering the game calls the hook [2], and hooks that throw. *)
Definition hookedScenes : list SceneDefinition :=
  [ {| id := "menu"; component := JStr "Menu"; onEnter := None;
       onExit := Some 1; data := None |};
    {| id := "game"; component := JStr "Game"; onEnter := Some 2;
       onExit := None; data := None |} ].

Definition hookedStore : world :=
  {| sceneMap := scene_map hookedScenes;
     state := {| currentScene := "menu"; previousScene := None;
                 isTransitioning := false; transition := JNull |};
     sceneStack := [];
     subscribers := [Some 0];
     currentSceneData := JNull;
     trace := [] |}.

Definition failing_hooks : bodies :=
  {| subscriberBody := fun _ _ => Normal; hookBody := fun _ _ => Thrown |}.

End SceneStore.

(** ** Reactive achievement manager (achievements/ReactiveAchievementManager.ts) *)

Module ReactiveAchievements.

(** What a call gives: a value, or an exception. *)
Inductive result (R : Type) :=
| Returned (r : R)
| Threw.
Arguments Returned {R} r.
Arguments Threw {R}.

Inductive event :=
| IsUnlockedCalled (id : string)
| ConditionCalled (id : string)
| UnlockCalled (id : string)
| GetByIdCalled (id : string)
| ConsoleError (id : string).

Inductive completion := Normal | Thrown.

Section Manager.
(** The game state, the state of the base manager and the achievements it
    hands out. *)
Variables (T M A : Type).

(** The base manager [createAchievementManager] is not among the sources:
    [check] is given over any base manager, each method being what it
    returns, or that it throws, and the state it leaves the manager in. *)
Record AchievementManager := {
  isUnlocked : string -> M -> result bool * M;
  unlock : string -> M -> result bool * M;
  getById : string -> M -> result (option A) * M
}.

(** A condition is a function of the game state that returns or throws. *)
Record ReactiveAchievementDefinition := {
  id : string;
  name : string;
  description : string;
  condition : option (T -> result bool)
}.

(** [conditions.set(id, condition)] on a [Map]: a key already present
    keeps its place. *)
Fixpoint map_set {V : Type} (m : list (string * V)) (k : string) (v : V)
    : list (string * V) :=
  match m with
  | [] => [(k, v)]
  | (k', v') :: rest =>
      if decide (k' = k) then (k, v) :: rest else (k', v') :: map_set rest k v
  end.

(** [definitions.forEach((def) => { if (def.condition) conditions.set(...) })] *)
Definition conditions (definitions : list ReactiveAchievementDefinition)
    : list (string * (T -> result bool)) :=
  fold_left (fun m def => match condition def with
                          | Some c => map_set m (id def) c
                          | None => m
                          end) definitions [].

Variable baseManager : AchievementManager.

(** The [try] block of [check] for one condition: the manager, the
    achievements collected and the calls made. *)
Definition attempt (state : T) (i : string) (c : T -> result bool) (m : M)
    (newlyUnlocked : list A) : M * list A * list event :=
  match c state with
  | Threw => (m, newlyUnlocked, [ConditionCalled i; ConsoleError i])
  | Returned false => (m, newlyUnlocked, [ConditionCalled i])
  | Returned true =>
      match unlock baseManager i m with
      | (Threw, m1) =>
          (m1, newlyUnlocked, [ConditionCalled i; UnlockCalled i; ConsoleError i])
      | (Returned false, m1) =>
          (m1, newlyUnlocked, [ConditionCalled i; UnlockCalled i])
      | (Returned true, m1) =>
          match getById baseManager i m1 with
          | (Threw, m2) =>
              (m2, newlyUnlocked,
               [ConditionCalled i; UnlockCalled i; GetByIdCalled i; ConsoleError i])
          | (Returned None, m2) =>
              (m2, newlyUnlocked, [ConditionCalled i; UnlockCalled i; GetByIdCalled i])
          | (Returned (Some achievement), m2) =>
              (m2, newlyUnlocked ++ [achievement],
               [ConditionCalled i; UnlockCalled i; GetByIdCalled i])
          end
      end
  end.

(** [conditions.forEach((condition, id) => { ... })]: [isUnlocked] is
    called outside the [try], so that its exception leaves [check]. *)
Fixpoint check_loop (state : T) (l : list (string * (T -> result bool))) (m : M)
    (newlyUnlocked : list A) (t : list event)
    : completion * M * list A * list event :=
  match l with
  | [] => (Normal, m, newlyUnlocked, t)
  | (i, c) :: rest =>
      match isUnlocked baseManager i m with
      | (Threw, m1) => (Thrown, m1, newlyUnlocked, t ++ [IsUnlockedCalled i])
      | (Returned true, m1) =>
          check_loop state rest m1 newlyUnlocked (t ++ [IsUnlockedCalled i])
      | (Returned false, m1) =>
          let '(m2, newlyUnlocked2, es) := attempt state i c m1 newlyUnlocked in
          check_loop state rest m2 newlyUnlocked2 (t ++ IsUnlockedCalled i :: es)
      end
  end.

Definition check (definitions : list ReactiveAchievementDefinition) (state : T)
    (m : M) : completion * M * list A * list event :=
  check_loop state (conditions definitions) m [] [].

End Manager.

Arguments id {T}.
Arguments condition {T}.
Arguments isUnlocked {M A}.
Arguments unlock {M A}.
Arguments getById {M A}.

(** The ids a trace shows each method called with. *)
Definition looked (t : list event) : list string :=
  omap (fun e => match e with IsUnlockedCalled i => Some i | _ => None end) t.
Definition evaluated (t : list event) : list string :=
  omap (fun e => match e with ConditionCalled i => Some i | _ => None end) t.
Definition unlocks (t : list event) : list string :=
  omap (fun e => match e with UnlockCalled i => Some i | _ => None end) t.
Definition fetched (t : list event) : list string :=
  omap (fun e => match e with GetByIdCalled i => Some i | _ => None end) t.

(** What the calls of one pass show: the ids looked at are the first of
    [l], all of them if the pass ended; a condition is evaluated only for
    an id looked at, [unlock] called only after its condition, [getById]
    only after [unlock]. *)
Definition orderly (l : list string) (c : completion) (es : list event) : Prop :=
  looked es `prefix_of` l ∧
  (c = Normal -> looked es = l) ∧
  evaluated es ⊆ looked es ∧
  unlocks es ⊆ evaluated es ∧
  fetched es ⊆ unlocks es.

(** The ids of the definitions that have a condition. *)
Definition conditioned {T : Type} (definitions : list (ReactiveAchievementDefinition T))
    : list string :=
  omap (fun def => (fun _ => id def) <$> condition def) definitions.

End ReactiveAchievements.

(** * Properties *)

(** ** JSON text and the JS [Set] *)

Section JsonProperties.
Import Json.

Lemma json_induction (P : json -> Prop) :
  P JNull -> (∀ b, P (JBool b)) -> (∀ n, P (JNum n)) -> (∀ s, P (JStr s)) ->
  (∀ items, Forall P items -> P (JArr items)) ->
  (∀ fields, Forall (fun kv => P kv.2) fields -> P (JObj fields)) ->
  ∀ j, P j.
Proof.
  intros Hnull Hbool Hnum Hstr Harr Hobj.
  fix IH 1. intros [ |b|n|s|items|fields].
  - exact Hnull.
  - apply Hbool.
  - apply Hnum.
  - apply Hstr.
  - apply Harr. induction items as [|x items IHitems]; constructor; [apply IH|exact IHitems].
  - apply Hobj. induction fields as [|[k v] fields IHfields]; constructor;
      [apply IH|exact IHfields].
Qed.

Lemma stringify_arr items : stringify (JArr items) = TLBracket :: elements items ++ [TRBracket].
Proof. reflexivity. Qed.

Lemma stringify_obj fields : stringify (JObj fields) = TLBrace :: members fields ++ [TRBrace].
Proof. reflexivity. Qed.

Lemma stringify_head j : ∃ t rest, stringify j = t :: rest ∧ starts_value t.
Proof. destruct j as [ |[]| | | | ]; simpl; by do 2 eexists. Qed.

Lemma elements_cons x rest more :
  elements (x :: rest) ++ more
  = stringify x ++ match rest with
                   | [] => more
                   | _ => TComma :: elements rest ++ more
                   end.
Proof. destruct rest; simpl; [done|]. by rewrite <- app_assoc. Qed.

Lemma members_cons k v rest more :
  members ((k, v) :: rest) ++ more
  = TString k :: TColon :: stringify v
      ++ match rest with
         | [] => more
         | _ => TComma :: members rest ++ more
         end.
Proof. destruct rest; simpl; [done|]. by rewrite <- app_assoc. Qed.

Lemma stringify_prefix_free : ∀ a b r1 r2,
  stringify a ++ r1 = stringify b ++ r2 -> a = b ∧ r1 = r2.
Proof.
  induction a as [ |ba|na|sa|la IHa|fa IHa] using json_induction;
    intros b r1 r2 H.
  - destruct b as [ |[]| | | | ]; simpl in H; try discriminate. by injection H.
  - destruct ba, b as [ |[]| | | | ]; simpl in H; try discriminate; by injection H.
  - destruct b as [ |[]| | | | ]; simpl in H; try discriminate. by injection H as -> ->.
  - destruct b as [ |[]| | | | ]; simpl in H; try discriminate. by injection H as -> ->.
  - destruct b as [ |[]| | |lb| ]; try (simpl in H; discriminate).
    rewrite !stringify_arr in H. simpl in H. injection H as H.
    rewrite <- !app_assoc in H. simpl in H.
    enough (la = lb ∧ r1 = r2) as [-> ->] by done.
    revert lb H. induction IHa as [|x la Hx _ IHl]; intros lb H.
    + destruct lb as [|y lb]; [by injection H|].
      rewrite elements_cons in H. simpl in H.
      destruct (stringify_head y) as (t & rest & Hy & Ht). rewrite Hy in H.
      injection H as <- _. done.
    + destruct lb as [|y lb].
      { rewrite elements_cons in H. simpl in H.
        destruct (stringify_head x) as (t & rest & Hx' & Ht). rewrite Hx' in H.
        injection H as -> _. done. }
      rewrite !elements_cons in H.
      apply Hx in H as [<- H].
      destruct la as [|x' la], lb as [|y' lb]; try discriminate.
      * by injection H as ->.
      * injection H as H. destruct (IHl (y' :: lb) H) as [-> ->]. done.
  - destruct b as [ |[]| | | |fb]; try (simpl in H; discriminate).
    rewrite !stringify_obj in H. simpl in H. injection H as H.
    rewrite <- !app_assoc in H. simpl in H.
    enough (fa = fb ∧ r1 = r2) as [-> ->] by done.
    revert fb H. induction IHa as [|[k v] fa Hv _ IHl]; intros fb H.
    + destruct fb as [|[k' v'] fb]; [by injection H|].
      rewrite members_cons in H. discriminate.
    + destruct fb as [|[k' v'] fb].
      { rewrite members_cons in H. discriminate. }
      rewrite !members_cons in H. injection H as <- H.
      apply Hv in H as [<- H].
      destruct fa as [|x' fa], fb as [|y' fb]; try discriminate.
      * by injection H as ->.
      * injection H as H. destruct (IHl (y' :: fb) H) as [-> ->]. done.
Qed.

Lemma stringify_inj a b : stringify a = stringify b -> a = b.
Proof.
  intros H. apply (stringify_prefix_free a b [] []). by rewrite H.
Qed.

Lemma stringify_opt_inj x y : stringify_opt x = stringify_opt y -> x = y.
Proof.
  destruct x as [a|], y as [b|]; simpl; try discriminate; [|done].
  intros [= H]. by rewrite (stringify_inj _ _ H).
Qed.

End JsonProperties.

Section JsSetProperties.
Context {A : Type} `{EqDecision A}.
Implicit Types (s : JsSet.jsset A) (x y : A).

Lemma elem_of_values x s : x ∈ JsSet.values s ↔ Some x ∈ s.
Proof.
  unfold JsSet.values. rewrite list_elem_of_omap. split.
  - intros ([y|] & Hy & E); simpl in E; [|done]. by injection E as ->.
  - intros H. by exists (Some x).
Qed.

Lemma values_app s1 s2 : JsSet.values (s1 ++ s2) = JsSet.values s1 ++ JsSet.values s2.
Proof. apply omap_app. Qed.

Lemma elem_of_values_add x y s :
  x ∈ JsSet.values (JsSet.add y s) ↔ x = y ∨ x ∈ JsSet.values s.
Proof.
  unfold JsSet.add, JsSet.has. case_bool_decide as Hin.
  - split; [by right|]. intros [->|H]; [|done]. by apply elem_of_values.
  - rewrite values_app, elem_of_app. simpl. rewrite list_elem_of_singleton. tauto.
Qed.

Lemma elem_of_values_fold_add (l : list A) : ∀ s x,
  x ∈ JsSet.values (fold_left (fun s k => JsSet.add k s) l s)
  ↔ x ∈ l ∨ x ∈ JsSet.values s.
Proof.
  induction l as [|k l IH]; intros s x; simpl.
  - rewrite elem_of_nil. tauto.
  - rewrite IH, elem_of_values_add, elem_of_cons. tauto.
Qed.

End JsSetProperties.


(** ** Calendar service *)

Section CalendarProperties.
Import Calendar.
Local Open Scope Z_scope.

Lemma normalizeDay_nonpositive day : day <= 0 -> normalizeDay day = 1.
Proof. unfold normalizeDay. lia. Qed.

Lemma normalizeDay_one : normalizeDay 1 = 1.
Proof. reflexivity. Qed.

Lemma createCalendarService_inv config svc :
  createCalendarService config = Service svc ->
  svc_seasons svc ≠ [] ∧ 0 < svc_daysPerSeason svc ∧
  svc_daysPerYear svc
    = svc_daysPerSeason svc * Z.of_nat (length (svc_seasons svc)).
Proof.
  unfold createCalendarService.
  destruct (Nat.eqb_spec (length (seasons config)) 0) as [|Hlen]; [discriminate|].
  destruct (Z.leb_spec (daysPerSeason config) 0) as [|Hpos]; [discriminate|].
  intros [= <-]. simpl. repeat split; try done.
  intros E. rewrite E in Hlen. done.
Qed.

Lemma getSeason_day_one config svc :
  createCalendarService config = Service svc ->
  getSeason svc 1 = head (svc_seasons svc) ∧ is_Some (getSeason svc 1).
Proof.
  intros Hc. destruct (createCalendarService_inv _ _ Hc) as (Hne & Hpos & _).
  unfold getSeason, getSeasonIndex. rewrite normalizeDay_one.
  change (1 - 1) with 0. change (Z.rem 0 (svc_daysPerYear svc)) with 0.
  change (0 / svc_daysPerSeason svc) with 0.
  unfold index_seasons. simpl.
  destruct (svc_seasons svc); [done|]. simpl. eauto.
Qed.

(** C9. For a calendar service that was constructed and every integer day
    at or below zero, each of the six queries returns what it returns for
    day one; the queries are total functions, and [getSeason] returns a
    season name (the first one), not [undefined]. *)
Theorem calendar_nonpositive_day_is_day_one config svc day :
  createCalendarService config = Service svc ->
  day <= 0 ->
  getSeason svc day = getSeason svc 1 ∧
  is_Some (getSeason svc day) ∧
  getSeasonIndex svc day = getSeasonIndex svc 1 ∧
  getDayInSeason svc day = getDayInSeason svc 1 ∧
  getYear svc day = getYear svc 1 ∧
  getSeasonProgress svc day = getSeasonProgress svc 1 ∧
  getDayOfWeek svc day = getDayOfWeek svc 1.
Proof.
  intros Hc Hday.
  pose proof (normalizeDay_nonpositive day Hday) as Hn.
  assert (Hidx : getSeasonIndex svc day = getSeasonIndex svc 1)
    by (unfold getSeasonIndex; rewrite Hn, normalizeDay_one; reflexivity).
  assert (Hdis : getDayInSeason svc day = getDayInSeason svc 1)
    by (unfold getDayInSeason; rewrite Hn, normalizeDay_one; reflexivity).
  assert (Hseason : getSeason svc day = getSeason svc 1)
    by (unfold getSeason; rewrite Hidx; reflexivity).
  repeat split.
  - exact Hseason.
  - rewrite Hseason. exact (proj2 (getSeason_day_one _ _ Hc)).
  - exact Hidx.
  - exact Hdis.
  - unfold getYear. rewrite Hn, normalizeDay_one. reflexivity.
  - unfold getSeasonProgress. rewrite Hdis. reflexivity.
  - unfold getDayOfWeek. rewrite Hn, normalizeDay_one. reflexivity.
Qed.

Lemma calendar_nonpositive_day_is_day_one_witness :
  getSeason standardService (-3) = Some "Spring" ∧
  getYear standardService (-3) = getYear standardService 1.
Proof.
  pose proof (calendar_nonpositive_day_is_day_one standardConfig
                standardService (-3) eq_refl ltac:(lia)) as H.
  split; [|apply H].
  destruct H as (H & _). rewrite H. reflexivity.
Defined.

End CalendarProperties.

(** ** Modal queue *)

Section ModalQueueProperties.
Import Json ModalQueue.

Lemma log_all_nil st : log_all [] st = st.
Proof. destruct st. unfold log_all. simpl. by rewrite app_nil_r. Qed.

Lemma log_all_app es1 es2 st : log_all es2 (log_all es1 st) = log_all (es1 ++ es2) st.
Proof. unfold log_all. simpl. by rewrite app_assoc. Qed.

Lemma log_as_log_all e st : log e st = log_all [e] st.
Proof. reflexivity. Qed.

Section Quiet.
Variable env : bodies.
Variable api : call -> state -> option state.
Hypothesis Hquiet : quiet_bodies env.

Lemma run_body_quiet s st :
  quiet s = true ->
  run_body api s st = Some (if throws s then Thrown else Normal, st).
Proof.
  destruct s as [|[c|] rest]; simpl; [done| |done].
  intros H. discriminate H.
Qed.

Lemma call_subscriber_quiet callback snapshot st :
  call_subscriber env api callback snapshot st
  = Some (log_all (subscriber_events env snapshot callback) st).
Proof.
  unfold call_subscriber, subscriber_events.
  rewrite run_body_quiet by apply Hquiet. simpl.
  destruct (throws _); by rewrite !log_as_log_all, ?log_all_app.
Qed.

Lemma safeOnClose_quiet item result st :
  safeOnClose env api item result st
  = Some (log_all (onClose_events env item result) st).
Proof.
  unfold safeOnClose, onClose_events.
  destruct (onClose item) as [f|]; [|by rewrite log_all_nil].
  rewrite run_body_quiet by apply Hquiet. simpl.
  destruct (throws _); by rewrite !log_as_log_all, ?log_all_app.
Qed.

Lemma forEach_from_quiet steps : ∀ i snapshot st,
  length (subscribers st) - i < steps ->
  forEach_from env api steps i snapshot st
  = Some (log_all (notify_events env snapshot (drop i (subscribers st))) st).
Proof.
  induction steps as [|steps IH]; intros i snapshot st Hsteps; [lia|].
  simpl. destruct (subscribers st !! i) as [[callback|]|] eqn:Hi.
  - pose proof (lookup_lt_Some _ _ _ Hi).
    rewrite call_subscriber_quiet. simpl.
    rewrite IH by (simpl; lia). simpl.
    rewrite (drop_S _ _ _ Hi). unfold notify_events. simpl.
    by rewrite log_all_app.
  - pose proof (lookup_lt_Some _ _ _ Hi).
    rewrite IH by lia. by rewrite (drop_S _ _ _ Hi).
  - apply lookup_ge_None in Hi. rewrite drop_ge by done.
    by rewrite log_all_nil.
Qed.

Lemma notify_quiet steps st :
  length (subscribers st) < steps ->
  notify env api steps st
  = Some (log_all (notify_events env (queue st) (subscribers st)) st).
Proof.
  intros H. unfold notify. rewrite forEach_from_quiet by lia. by rewrite drop_0.
Qed.

End Quiet.

Lemma pop_quiet env fuel result st :
  quiet_bodies env ->
  length (subscribers st) + 2 ≤ fuel ->
  pop env fuel result st
  = Some (match queue st with
          | item :: rest =>
              log_all (onClose_events env item result
                       ++ notify_events env rest (subscribers st))
                      (with_queue rest st)
          | [] => log_all (notify_events env [] (subscribers st)) st
          end).
Proof.
  intros Hq Hfuel. destruct fuel as [|fuel]; [lia|].
  unfold pop. simpl. destruct (queue st) as [|item rest] eqn:Hqueue.
  - rewrite notify_quiet by (done || lia). by rewrite Hqueue.
  - rewrite safeOnClose_quiet by done. simpl.
    rewrite notify_quiet by (done || (simpl; lia)). simpl.
    by rewrite log_all_app.
Qed.

Lemma push_quiet env fuel item st :
  quiet_bodies env ->
  length (subscribers st) + 2 ≤ fuel ->
  push env fuel item st
  = Some (log_all (notify_events env (queue st ++ [item]) (subscribers st))
                  (with_queue (queue st ++ [item]) st)).
Proof.
  intros Hq Hfuel. destruct fuel as [|fuel]; [lia|].
  unfold push. simpl. by rewrite notify_quiet by (done || (simpl; lia)).
Qed.

Lemma subscriber_calls_app t1 t2 :
  subscriber_calls (t1 ++ t2) = subscriber_calls t1 ++ subscriber_calls t2.
Proof. apply omap_app. Qed.

Lemma onClose_calls_app t1 t2 :
  onClose_calls (t1 ++ t2) = onClose_calls t1 ++ onClose_calls t2.
Proof. apply omap_app. Qed.

Lemma subscriber_calls_subscriber_events env snapshot callback :
  subscriber_calls (subscriber_events env snapshot callback) = [(callback, snapshot)].
Proof. unfold subscriber_events. by destruct (throws _). Qed.

Lemma onClose_calls_subscriber_events env snapshot callback :
  onClose_calls (subscriber_events env snapshot callback) = [].
Proof. unfold subscriber_events. by destruct (throws _). Qed.

Lemma subscriber_calls_notify_events env snapshot subs :
  subscriber_calls (notify_events env snapshot subs)
  = (fun callback => (callback, snapshot)) <$> JsSet.values subs.
Proof.
  unfold notify_events. induction (JsSet.values subs) as [|callback l IH]; [done|].
  change (flat_map ?f (callback :: l)) with (f callback ++ flat_map f l).
  by rewrite subscriber_calls_app, subscriber_calls_subscriber_events, IH.
Qed.

Lemma onClose_calls_notify_events env snapshot subs :
  onClose_calls (notify_events env snapshot subs) = [].
Proof.
  unfold notify_events. induction (JsSet.values subs) as [|callback l IH]; [done|].
  change (flat_map ?f (callback :: l)) with (f callback ++ flat_map f l).
  by rewrite onClose_calls_app, onClose_calls_subscriber_events, IH.
Qed.

Lemma subscriber_calls_onClose_events env item result :
  subscriber_calls (onClose_events env item result) = [].
Proof.
  unfold onClose_events. destruct (onClose item); [|done].
  by destruct (throws _).
Qed.

Lemma onClose_calls_onClose_events env item result :
  onClose_calls (onClose_events env item result)
  = match onClose item with Some f => [(f, result)] | None => [] end.
Proof.
  unfold onClose_events. destruct (onClose item); [|done].
  by destruct (throws _).
Qed.

(** C8. For a queue whose registered functions do not call back into it
    (they return or throw): [pop(result)] on a non-empty queue returns,
    leaves the tail as the queue, so the second item becomes current; the
    head's [onClose], when there is one, is called once, with [result], and
    is the only [onClose] called; every subscriber present is then called
    once with the tail, whether or not there was an [onClose].  And after
    pushing [A], [B], [C] on an empty queue and one [pop(result)], the
    current item is [B] and the [onClose] calls are exactly [A]'s, with
    [result]. *)
Theorem modal_pop_is_fifo env :
  quiet_bodies env ->
  (∀ st item rest result fuel,
     queue st = item :: rest ->
     length (subscribers st) + 2 ≤ fuel ->
     ∃ st', pop env fuel result st = Some st' ∧
       queue st' = rest ∧
       getCurrent st' = head rest ∧
       subscribers st' = subscribers st ∧
       trace st' = trace st ++ onClose_events env item result
                            ++ notify_events env rest (subscribers st) ∧
       onClose_calls (trace st')
       = onClose_calls (trace st)
         ++ match onClose item with Some f => [(f, result)] | None => [] end ∧
       subscriber_calls (trace st')
       = subscriber_calls (trace st)
         ++ ((fun callback => (callback, rest)) <$> JsSet.values (subscribers st))) ∧
  (∀ st A B C result fuel,
     queue st = [] ->
     length (subscribers st) + 2 ≤ fuel ->
     ∃ st', (st1 ← push env fuel A st; st2 ← push env fuel B st1;
             st3 ← push env fuel C st2; pop env fuel result st3) = Some st' ∧
       getCurrent st' = Some B ∧
       getQueue st' = [B; C] ∧
       onClose_calls (trace st')
       = onClose_calls (trace st)
         ++ match onClose A with Some f => [(f, result)] | None => [] end).
Proof.
  intros Hq. split.
  - intros st item rest result fuel Hqueue Hfuel.
    eexists. split; [apply (pop_quiet _ _ _ _ Hq Hfuel)|].
    rewrite Hqueue. simpl. repeat split.
    + by rewrite !onClose_calls_app, onClose_calls_onClose_events,
                 onClose_calls_notify_events, app_nil_r.
    + by rewrite !subscriber_calls_app, subscriber_calls_onClose_events,
                 subscriber_calls_notify_events.
  - intros st A B C result fuel Hqueue Hfuel.
    rewrite (push_quiet _ _ _ _ Hq Hfuel). simpl.
    rewrite push_quiet by done. simpl.
    rewrite push_quiet by done. simpl.
    rewrite pop_quiet by done. simpl.
    rewrite Hqueue. simpl.
    eexists. split; [reflexivity|]. simpl. repeat split.
    rewrite !onClose_calls_app, !onClose_calls_notify_events,
            onClose_calls_onClose_events.
    by rewrite !app_nil_r.
Qed.

Lemma modal_pop_is_fifo_witness :
  ∃ st', (st1 ← push throwing_bodies 3 (mock "A" (Some 7)) createModalQueue;
          st2 ← push throwing_bodies 3 (mock "B" None) st1;
          st3 ← push throwing_bodies 3 (mock "C" None) st2;
          pop throwing_bodies 3 (Some (JStr "confirm")) st3) = Some st' ∧
    getCurrent st' = Some (mock "B" None) ∧
    getQueue st' = [mock "B" None; mock "C" None] ∧
    onClose_calls (trace st') = [(7, Some (JStr "confirm"))].
Proof.
  assert (Hq : quiet_bodies throwing_bodies) by (split; intros; reflexivity).
  destruct (modal_pop_is_fifo throwing_bodies Hq) as [_ H].
  apply (H createModalQueue (mock "A" (Some 7)) (mock "B" None) (mock "C" None)
           (Some (JStr "confirm")) 3 eq_refl).
  simpl. lia.
Defined.

(** C10. For a queue whose registered functions do not call back into it:
    [pop] on an empty queue, whatever the result passed, returns, calls no
    [onClose], leaves the queue empty, and calls every subscriber present
    once, with the empty queue. *)
Theorem modal_pop_on_empty_queue env st result fuel :
  quiet_bodies env ->
  queue st = [] ->
  length (subscribers st) + 2 ≤ fuel ->
  ∃ st', pop env fuel result st = Some st' ∧
    queue st' = [] ∧
    isEmpty st' = true ∧
    subscribers st' = subscribers st ∧
    onClose_calls (trace st') = onClose_calls (trace st) ∧
    subscriber_calls (trace st')
    = subscriber_calls (trace st)
      ++ ((fun callback => (callback, [])) <$> JsSet.values (subscribers st)).
Proof.
  intros Hq Hqueue Hfuel.
  eexists. split; [apply (pop_quiet _ _ _ _ Hq Hfuel)|].
  rewrite Hqueue. simpl. repeat split.
  - done.
  - unfold isEmpty. simpl. by rewrite Hqueue.
  - by rewrite onClose_calls_app, onClose_calls_notify_events, app_nil_r.
  - by rewrite subscriber_calls_app, subscriber_calls_notify_events.
Qed.

Lemma modal_pop_on_empty_queue_witness :
  ∃ st', pop throwing_bodies 5 None watched_empty_queue = Some st' ∧
    queue st' = [] ∧
    isEmpty st' = true ∧
    subscribers st' = subscribers watched_empty_queue ∧
    onClose_calls (trace st') = onClose_calls (trace watched_empty_queue) ∧
    subscriber_calls (trace st')
    = subscriber_calls (trace watched_empty_queue)
      ++ ((fun callback => (callback, []))
            <$> JsSet.values (subscribers watched_empty_queue)).
Proof.
  apply (modal_pop_on_empty_queue throwing_bodies watched_empty_queue None 5).
  - split; intros; reflexivity.
  - reflexivity.
  - simpl. lia.
Defined.

End ModalQueueProperties.

(** ** Event bus *)

Section EventBusProperties.
Import Json EventBus.
Local Arguments on : simpl never.
Local Arguments off : simpl never.
Local Arguments once : simpl never.

Lemma trace_on event cb st : trace (on event cb st) = trace st.
Proof. reflexivity. Qed.

Lemma trace_off event cb st : trace (off event cb st) = trace st.
Proof. reflexivity. Qed.

Lemma trace_once event cb st : trace (once event cb st).2 = trace st.
Proof. reflexivity. Qed.

Section RegistryOnly.
Variable body : nat -> option json -> script.
Hypothesis Hbody : ∀ f data, registry_only (body f data) = true.

(** The API as the bodies see it: registration and removal act at once. *)
Variable api : call -> state -> option state.
Hypothesis api_on : ∀ event cb st, api (COn event cb) st = Some (on event cb st).
Hypothesis api_off : ∀ event cb st, api (COff event cb) st = Some (off event cb st).

Lemma run_body_registry_only s : ∀ st,
  registry_only s = true ->
  ∃ st', run_body api s st = Some (if throws s then Thrown else Normal, st') ∧
         trace st' = trace st.
Proof.
  induction s as [|x s IH]; intros st Hs; [by eexists|].
  destruct x as [c|]; [|by eexists].
  simpl in Hs. apply andb_prop in Hs as [Hc Hs].
  destruct c as [event cb|event cb| |]; try discriminate Hc; simpl.
  - rewrite api_on. simpl.
    destruct (IH (on event cb st) Hs) as (st' & -> & Ht). by eexists.
  - rewrite api_off. simpl.
    destruct (IH (off event cb st) Hs) as (st' & -> & Ht). by eexists.
Qed.

Lemma invoke_registry_only cb data : ∀ st,
  ∃ st', invoke body api cb data st
         = Some (if throws (body (target cb) data) then Thrown else Normal, st') ∧
         trace st' = trace st ++ [Called (target cb) data].
Proof.
  induction cb as [f|serial event inner IH]; intros st; simpl.
  - destruct (run_body_registry_only (body f data) (log (Called f data) st)
                (Hbody f data)) as (st' & -> & Ht).
    by eexists.
  - destruct (IH (off event (OnceWrapper serial event inner) st))
      as (st' & -> & Ht).
    by eexists.
Qed.

Lemma emit_loop_registry_only event data snapshot : ∀ st,
  ∃ st', emit_loop body api event snapshot data st = Some st' ∧
         trace st' = trace st ++ flat_map (emit_events body event data) snapshot.
Proof.
  induction snapshot as [|cb rest IH]; intros st; simpl.
  - eexists. by rewrite app_nil_r.
  - destruct (invoke_registry_only cb data st) as (st1 & -> & Ht1). simpl.
    unfold emit_events at 1.
    destruct (throws (body (target cb) data)).
    + destruct (IH (log (ConsoleError event) st1)) as (st' & -> & Ht).
      eexists. split; [done|]. rewrite Ht. simpl. rewrite Ht1.
      by rewrite <- !app_assoc.
    + destruct (IH st1) as (st' & -> & Ht).
      eexists. split; [done|]. rewrite Ht, Ht1. by rewrite <- !app_assoc.
Qed.

Lemma emit_with_registry_only event data st :
  ∃ st', emit_with body api event data st = Some st' ∧
         trace st' = trace st
           ++ flat_map (emit_events body event data)
                (JsSet.values (default JsSet.empty (listeners st !! event))).
Proof.
  unfold emit_with.
  destruct (listeners st !! event) as [eventListeners|]; simpl.
  - apply emit_loop_registry_only.
  - eexists. by rewrite app_nil_r.
Qed.

End RegistryOnly.

(** An emit goes over the listeners registered when it began: each is
    called once, in registration order, whatever the bodies add to or
    remove from the registry meanwhile, and whichever of them throw. *)
Lemma emit_calls_the_snapshot body fuel event data st :
  (∀ f d, registry_only (body f d) = true) ->
  ∃ st', emit body (S (S fuel)) event data st = Some st' ∧
         trace st' = trace st
           ++ flat_map (emit_events body event data)
                (JsSet.values (default JsSet.empty (listeners st !! event))).
Proof.
  intros Hbody. unfold emit.
  change (exec body (S (S fuel)) (CEmit event data) st)
    with (emit_with body (exec body (S fuel)) event data st).
  by apply emit_with_registry_only.
Qed.

(** C7 (on the input where it fails). A listener registered before the
    [once] emits the event again while it is being notified: the wrapper
    of [once] is in the snapshot of both emits, nothing marks it as spent,
    and [cb] runs twice, first with the data of the inner emit. *)
Theorem once_runs_twice_under_nested_emit :
  ∃ st', emit reemitting_body 3 "x" (Some (JNum 1%Z)) listener_then_once = Some st' ∧
    calls_of 0 (trace st') = [Some (JNum 2%Z); Some (JNum 1%Z)] ∧
    trace st' = [Called 1 (Some (JNum 1%Z)); Called 1 (Some (JNum 2%Z));
                 Called 0 (Some (JNum 2%Z)); Called 0 (Some (JNum 1%Z))].
Proof. eexists. split; [vm_compute; reflexivity|]. split; reflexivity. Qed.

(** Where no other listener emits, [once] behaves as its name says: two
    emits call [cb] once, with the data of the first; *)
Example once_after_two_emits :
  (st1 ← emit (fun _ _ => []) 2 "x" (Some (JNum 1%Z))
          (once "x" (Fn 0) createEventBus).2;
   st2 ← emit (fun _ _ => []) 2 "x" (Some (JNum 2%Z)) st1;
   Some (calls_of 0 (trace st2)))
  = Some [Some (JNum 1%Z)].
Proof. vm_compute. reflexivity. Qed.

(** a [cb] that emits the event again from inside its call is not called
    by that emit; *)
Example once_callback_reemitting :
  (st1 ← emit self_emitting_body 3 "x" (Some (JNum 1%Z))
          (once "x" (Fn 0) createEventBus).2;
   Some (calls_of 0 (trace st1)))
  = Some [Some (JNum 1%Z)].
Proof. vm_compute. reflexivity. Qed.

(** and the handle returned, called before any emit, keeps [cb] from
    being called. *)
Example once_unsubscribed_before_emit :
  (st1 ← emit (fun _ _ => []) 2 "x" None
          (off "x" (once "x" (Fn 0) createEventBus).1
             (once "x" (Fn 0) createEventBus).2);
   Some (calls_of 0 (trace st1)))
  = Some [].
Proof. vm_compute. reflexivity. Qed.

End EventBusProperties.

(** ** Store with middleware *)

Section MiddlewareProperties.
Import Json Middleware.

Lemma grows_refl w : grows w w.
Proof. exists []. by rewrite app_nil_r. Qed.

Lemma grows_trans w1 w2 w3 : grows w1 w2 -> grows w2 w3 -> grows w1 w3.
Proof.
  intros [m1 E1] [m2 E2]. exists (m1 ++ m2). by rewrite E2, E1, app_assoc.
Qed.

Lemma grows_length w w' : grows w w' -> length (heap w) ≤ length (heap w').
Proof. intros [m E]. rewrite E, length_app. lia. Qed.

Lemma grows_read w w' l :
  grows w w' -> l < length (heap w) -> read l w' = read l w.
Proof. intros [m E] Hl. unfold read. by rewrite E, lookup_app_l. Qed.

Lemma extends_grows w w' : extends w w' -> grows w w'.
Proof. by intros [? _]. Qed.

Lemma extends_refl w : extends w w.
Proof. repeat split; try done. exists []. by rewrite app_nil_r. Qed.

Lemma extends_trans w1 w2 w3 : extends w1 w2 -> extends w2 w3 -> extends w1 w3.
Proof.
  intros ([m1 E1] & ? & ? & ?) ([m2 E2] & ? & ? & ?).
  repeat split; try congruence.
  exists (m1 ++ m2). by rewrite E2, E1, app_assoc.
Qed.

Lemma extends_length w w' : extends w w' -> length (heap w) ≤ length (heap w').
Proof. intros ([m E] & _). rewrite E, length_app. lia. Qed.

Lemma extends_read w w' l :
  extends w w' -> l < length (heap w) -> read l w' = read l w.
Proof.
  intros ([m E] & _) Hl. unfold read. by rewrite E, lookup_app_l.
Qed.

Lemma extends_stored w w' : extends w w' -> valid w -> stored w' = stored w.
Proof.
  intros E Hv. unfold stored. rewrite (proj1 (proj2 E)).
  by apply extends_read.
Qed.

Lemma extends_valid w w' : extends w w' -> valid w -> valid w'.
Proof.
  intros E Hv. unfold valid. rewrite (proj1 (proj2 E)).
  pose proof (extends_length _ _ E). unfold valid in Hv. lia.
Qed.

Lemma extends_log e w : extends w (log e w).
Proof. repeat split; try done. exists []. simpl. by rewrite app_nil_r. Qed.

Lemma extends_alloc o w : extends w (alloc o w).2.
Proof. repeat split; try done. by exists [o]. Qed.

Lemma alloc_loc o w : (alloc o w).1 = length (heap w).
Proof. reflexivity. Qed.

Lemma alloc_length o w : length (heap (alloc o w).2) = S (length (heap w)).
Proof. simpl. rewrite length_app. simpl. lia. Qed.

Lemma read_alloc o w : read (length (heap w)) (alloc o w).2 = o.
Proof. unfold read. simpl. by rewrite list_lookup_middle. Qed.

Lemma read_log l e w : read l (log e w) = read l w.
Proof. reflexivity. Qed.

Lemma read_write l o w : l < length (heap w) -> read l (write l o w) = o.
Proof. intros H. unfold read. simpl. by rewrite list_lookup_insert_eq. Qed.

Lemma read_write_ne l l' o w : l ≠ l' -> read l (write l' o w) = read l w.
Proof. intros H. unfold read. simpl. by rewrite list_lookup_insert_ne. Qed.

Lemma write_length l o w : length (heap (write l o w)) = length (heap w).
Proof. simpl. apply length_insert. Qed.

(** Writing to an object created since [w0] leaves [w0]'s objects alone. *)
Lemma extends_write w0 w l o :
  extends w0 w -> length (heap w0) ≤ l -> extends w0 (write l o w).
Proof.
  intros ([m E] & ? & ? & ?) Hl. repeat split; try done.
  exists (<[l - length (heap w0) := o]> m). simpl.
  rewrite E. by apply insert_app_r_alt.
Qed.

Lemma deepClone_spec l w :
  l < length (heap w) ->
  (deepClone l w).1 = length (heap w) ∧
  extends w (deepClone l w).2 ∧
  length (heap (deepClone l w).2) = S (length (heap w)) ∧
  read (deepClone l w).1 (deepClone l w).2 = read l w ∧
  trace (deepClone l w).2 = trace w.
Proof.
  intros Hl. unfold deepClone. repeat split.
  - by exists [read l w].
  - apply alloc_length.
  - apply read_alloc.
Qed.

Lemma before_step_spec state currentPatch mw w :
  state < length (heap w) ->
  currentPatch < length (heap w) ->
  let r := before_step state currentPatch mw w in
  extends w r.2 ∧
  r.1 < length (heap r.2) ∧
  read r.1 r.2 = step_patch mw (read state w) (read currentPatch w) ∧
  trace r.2 = trace w ++ before_step_events mw (read state w) (read currentPatch w).
Proof.
  intros Hs Hp. unfold before_step, step_patch, before_step_events.
  destruct (beforePatch mw) as [hook|]; cbv zeta.
  2: { split_and!; try done. apply extends_refl. by rewrite app_nil_r. }
  pose proof (deepClone_spec state w Hs) as Hspec.
  destruct (deepClone state w) as [s w1]. simpl in Hspec.
  destruct Hspec as (Hs1 & E1 & L1 & R1 & T1). subst s.
  assert (Hp1 : currentPatch < length (heap w1)) by lia.
  pose proof (deepClone_spec currentPatch w1 Hp1) as Hspec.
  destruct (deepClone currentPatch w1) as [p w2]. simpl in Hspec.
  destruct Hspec as (Hp2 & E2 & L2 & R2 & T2). subst p.
  rewrite !read_log.
  assert (Rs : read (length (heap w)) w2 = read state w)
    by (rewrite (extends_read _ _ _ E2) by lia; done).
  assert (Rp : read (length (heap w1)) w2 = read currentPatch w)
    by (rewrite R2; apply (extends_read _ _ _ E1 Hp)).
  rewrite Rs, Rp.
  set (eff := hook (read state w) (read currentPatch w)).
  set (w3 := log (BeforePatchCalled (name mw) (read state w) (read currentPatch w)) w2).
  set (w4 := write (length (heap w1)) (be_patch eff)
               (write (length (heap w)) (be_state eff) w3)).
  assert (E4 : extends w w4).
  { apply extends_write; [|lia]. apply extends_write; [|lia].
    eapply extends_trans; [exact E1|]. eapply extends_trans; [exact E2|].
    apply extends_log. }
  assert (L4 : length (heap w4) = S (S (length (heap w)))).
  { unfold w4. rewrite !write_length. unfold w3. simpl. lia. }
  assert (T4 : trace w4 = trace w ++ [BeforePatchCalled (name mw) (read state w)
                                        (read currentPatch w)]).
  { unfold w4, w3. simpl. by rewrite T2, T1. }
  assert (R4p : read (length (heap w1)) w4 = be_patch eff).
  { unfold w4. apply read_write. rewrite write_length. unfold w3. simpl. lia. }
  assert (R4s : read (length (heap w)) w4 = be_state eff).
  { unfold w4. rewrite read_write_ne by lia. apply read_write. unfold w3. simpl. lia. }
  assert (R4c : read currentPatch w4 = read currentPatch w)
    by (apply extends_read; done).
  clearbody w4 eff. unfold hook_patch.
  destruct (be_completion eff) as [[|o| |]|]; simpl.
  - split_and!; try done; lia.
  - split_and!.
    + eapply extends_trans; [exact E4|]. apply extends_alloc.
    + rewrite length_app. simpl. lia.
    + apply read_alloc.
    + by rewrite T4.
  - split_and!; try done; lia.
  - split_and!; try done; lia.
  - split_and!; try done; [lia|].
    by rewrite T4, <- app_assoc.
Qed.

Lemma before_loop_spec mws : ∀ state currentPatch w,
  state < length (heap w) ->
  currentPatch < length (heap w) ->
  let r := before_loop mws state currentPatch w in
  extends w r.2 ∧
  r.1 < length (heap r.2) ∧
  read r.1 r.2 = chained_patch mws (read state w) (read currentPatch w) ∧
  trace r.2 = trace w ++ before_events mws (read state w) (read currentPatch w).
Proof.
  induction mws as [|mw rest IH]; intros state currentPatch w Hs Hp; simpl.
  - split_and!; try done. apply extends_refl. by rewrite app_nil_r.
  - destruct (before_step_spec state currentPatch mw w Hs Hp) as (E1 & L1 & R1 & T1).
    destruct (before_step state currentPatch mw w) as [p1 w1].
    simpl in E1, L1, R1, T1.
    pose proof (extends_length _ _ E1) as Hlen.
    destruct (IH state p1 w1 ltac:(lia) L1) as (E2 & L2 & R2 & T2).
    rewrite (extends_read _ _ _ E1 Hs), R1 in R2, T2.
    split_and!; try done.
    + by eapply extends_trans.
    + by rewrite T2, T1, <- app_assoc.
Qed.

Lemma after_step_spec prevState newState patch mw w :
  prevState < length (heap w) ->
  newState < length (heap w) ->
  patch < length (heap w) ->
  let w' := after_step prevState newState patch mw w in
  extends w w' ∧
  trace w' = trace w
    ++ after_step_events (read prevState w) (read newState w) (read patch w) mw.
Proof.
  intros Ha Hb Hc. unfold after_step, after_step_events.
  destruct (afterPatch mw) as [hook|]; cbv zeta.
  2: { split; [apply extends_refl|by rewrite app_nil_r]. }
  pose proof (deepClone_spec prevState w Ha) as Hspec.
  destruct (deepClone prevState w) as [a w1]. simpl in Hspec.
  destruct Hspec as (Ha1 & E1 & L1 & R1 & T1). subst a.
  pose proof (deepClone_spec newState w1 ltac:(lia)) as Hspec.
  destruct (deepClone newState w1) as [b w2]. simpl in Hspec.
  destruct Hspec as (Hb2 & E2 & L2 & R2 & T2). subst b.
  pose proof (deepClone_spec patch w2 ltac:(lia)) as Hspec.
  destruct (deepClone patch w2) as [c w3]. simpl in Hspec.
  destruct Hspec as (Hc3 & E3 & L3 & R3 & T3). subst c.
  rewrite !read_log.
  assert (E13 : extends w1 w3) by (by eapply extends_trans).
  assert (Ra : read (length (heap w)) w3 = read prevState w)
    by (rewrite (extends_read _ _ _ E13) by lia; done).
  assert (Rb : read (length (heap w1)) w3 = read newState w).
  { rewrite (extends_read _ _ _ E3) by lia. rewrite R2.
    by apply extends_read. }
  assert (Rc : read (length (heap w2)) w3 = read patch w).
  { rewrite R3. apply extends_read; [by eapply extends_trans|done]. }
  rewrite Ra, Rb, Rc.
  set (eff := hook (read prevState w) (read newState w) (read patch w)).
  set (e := AfterPatchCalled _ _ _ _).
  set (w5 := write _ _ (write _ _ (write _ _ (log e w3)))).
  assert (E5 : extends w w5).
  { unfold w5. apply extends_write; [|lia]. apply extends_write; [|lia].
    apply extends_write; [|lia].
    eapply extends_trans; [exact E1|]. eapply extends_trans; [exact E13|].
    apply extends_log. }
  assert (T5 : trace w5 = trace w ++ [e]).
  { unfold w5. simpl. by rewrite T3, T2, T1. }
  clearbody w5 eff e.
  destruct (ae_completion eff); split; try done.
  simpl. by rewrite T5, <- app_assoc.
Qed.


Lemma after_loop_spec mws prevState newState patch : ∀ w,
  prevState < length (heap w) ->
  newState < length (heap w) ->
  patch < length (heap w) ->
  let w' := fold_left (fun w mw => after_step prevState newState patch mw w) mws w in
  extends w w' ∧
  trace w' = trace w
    ++ after_events mws (read prevState w) (read newState w) (read patch w).
Proof.
  induction mws as [|mw rest IH]; intros w Ha Hb Hc; simpl.
  - split; [apply extends_refl|by rewrite app_nil_r].
  - destruct (after_step_spec prevState newState patch mw w Ha Hb Hc) as (E1 & T1).
    pose proof (extends_length _ _ E1) as Hlen.
    destruct (IH (after_step prevState newState patch mw w)
                ltac:(lia) ltac:(lia) ltac:(lia)) as (E2 & T2).
    rewrite !(extends_read _ _ _ E1) in T2 by done.
    split; [by eapply extends_trans|].
    unfold after_events in *. by rewrite T2, T1, <- app_assoc.
Qed.

Lemma base_notify_spec w :
  extends w (base_notify w) ∧
  trace (base_notify w)
  = trace w ++ ((fun cb => SubscriberCalled cb (stored w))
                  <$> JsSet.values (base_subscribers w)).
Proof.
  unfold base_notify.
  generalize (JsSet.values (base_subscribers w)) as l.
  assert (G : ∀ l w0, extends w w0 -> stored w0 = stored w ->
    extends w (fold_left (fun w1 cb => log (SubscriberCalled cb (stored w1)) w1) l w0) ∧
    trace (fold_left (fun w1 cb => log (SubscriberCalled cb (stored w1)) w1) l w0)
    = trace w0 ++ ((fun cb => SubscriberCalled cb (stored w)) <$> l)).
  { induction l as [|cb l IH]; intros w0 E0 S0; simpl.
    - by rewrite app_nil_r.
    - destruct (IH (log (SubscriberCalled cb (stored w0)) w0)) as (E & T).
      + done.
      + done.
      + split; [done|]. rewrite T. simpl. by rewrite S0, <- app_assoc. }
  intros l. apply G; [apply extends_refl|done].
Qed.

Lemma base_install_spec o w :
  let w' := base_install o w in
  (∃ more, heap w' = heap w ++ more) ∧
  valid w' ∧
  stored w' = o ∧
  base_initial w' = base_initial w ∧
  base_subscribers w' = base_subscribers w ∧
  trace w' = trace w ++ install_events (base_subscribers w) o.
Proof.
  unfold base_install. simpl.
  set (w1 := log (StateInstalled o) _).
  destruct (base_notify_spec w1) as (([more E] & Hs & Hi & Hsubs) & T).
  assert (Hv1 : valid w1) by (unfold valid, w1; simpl; rewrite length_app; simpl; lia).
  assert (S1 : stored w1 = o).
  { unfold stored, read, w1. simpl. by rewrite list_lookup_middle. }
  split_and!.
  - exists ([o] ++ more). rewrite E. unfold w1. simpl. by rewrite <- app_assoc.
  - apply (extends_valid w1); [|done]. split_and!; try done. by exists more.
  - rewrite <- S1. apply extends_stored; [|done]. split_and!; try done. by exists more.
  - by rewrite Hi.
  - by rewrite Hsubs.
  - rewrite T, S1. unfold w1, install_events. simpl. by rewrite <- app_assoc.
Qed.


Lemma base_get_spec w :
  valid w ->
  (base_get w).1 = length (heap w) ∧
  extends w (base_get w).2 ∧
  length (heap (base_get w).2) = S (length (heap w)) ∧
  read (base_get w).1 (base_get w).2 = stored w ∧
  trace (base_get w).2 = trace w.
Proof. intros Hv. by apply deepClone_spec. Qed.

Lemma get_value_stored w : valid w -> get_value w = stored w.
Proof. intros Hv. unfold get_value, get. by apply base_get_spec. Qed.

(** The second half of every write: the state is installed, read back
    and shown to the [afterPatch] hooks. *)
Lemma write_tail_spec mws prevState finalPatch o w :
  prevState < length (heap w) ->
  finalPatch < length (heap w) ->
  let w3 := base_install o w in
  let w5 := runAfterPatch mws prevState (base_get w3).1 finalPatch (base_get w3).2 in
  grows w w5 ∧ valid w5 ∧ stored w5 = o ∧
  base_initial w5 = base_initial w ∧
  base_subscribers w5 = base_subscribers w ∧
  trace w5 = trace w ++ install_events (base_subscribers w) o
               ++ after_events mws (read prevState w) o (read finalPatch w).
Proof.
  intros Ha Hc. cbv zeta.
  destruct (base_install_spec o w) as (G3 & V3 & S3 & I3 & U3 & T3).
  set (w3 := base_install o w) in *. clearbody w3.
  destruct (base_get_spec w3 V3) as (Hcur & E4 & L4 & R4 & T4).
  destruct (base_get w3) as [current w4]. simpl in Hcur, E4, L4, R4, T4. subst current.
  pose proof (grows_length _ _ G3) as Hlen3.
  unfold runAfterPatch.
  destruct (after_loop_spec mws prevState (length (heap w3)) finalPatch w4
              ltac:(lia) ltac:(lia) ltac:(lia)) as (E5 & T5).
  simpl.
  set (w5 := fold_left _ mws w4) in *. clearbody w5.
  assert (G4 : grows w w4) by (eapply grows_trans; [exact G3|by apply extends_grows]).
  rewrite (grows_read _ _ _ G4 Ha), (grows_read _ _ _ G4 Hc), R4, S3 in T5.
  assert (V4 : valid w4) by (by eapply extends_valid).
  split_and!.
  - eapply grows_trans; [exact G4|by apply extends_grows].
  - by eapply extends_valid.
  - rewrite (extends_stored _ _ E5 V4), (extends_stored _ _ E4 V3). done.
  - destruct E5 as (_ & _ & -> & _). destruct E4 as (_ & _ & -> & _). done.
  - destruct E5 as (_ & _ & _ & ->). destruct E4 as (_ & _ & _ & ->). done.
  - by rewrite T5, T4, T3, <- !app_assoc.
Qed.

Lemma patch_spec mws partial w :
  valid w ->
  partial < length (heap w) ->
  let prev := stored w in
  let final := chained_patch mws prev (read partial w) in
  let w' := patch mws partial w in
  valid w' ∧ stored w' = spread prev final ∧
  base_initial w' = base_initial w ∧
  base_subscribers w' = base_subscribers w ∧
  trace w' = trace w ++ before_events mws prev (read partial w)
               ++ install_events (base_subscribers w) (spread prev final)
               ++ after_events mws prev (spread prev final) final.
Proof.
  intros Hv Hp. cbv zeta. unfold patch.
  destruct (base_get_spec w Hv) as (Hprev & E1 & L1 & R1 & T1).
  destruct (base_get w) as [prevState w1]. simpl in Hprev, E1, L1, R1, T1. subst prevState.
  unfold runBeforePatch.
  destruct (before_loop_spec mws (length (heap w)) partial w1 ltac:(lia) ltac:(lia))
    as (E2 & L2 & R2 & T2).
  destruct (before_loop mws (length (heap w)) partial w1) as [finalPatch w2].
  simpl in E2, L2, R2, T2.
  rewrite R1, (extends_read _ _ _ E1 Hp) in R2, T2.
  pose proof (extends_length _ _ E2) as Hlen2.
  assert (V2 : valid w2) by (eapply extends_valid; [exact E2|by eapply extends_valid]).
  assert (S2 : stored w2 = stored w).
  { rewrite (extends_stored _ _ E2) by (by eapply extends_valid).
    by apply extends_stored. }
  unfold base_patch. rewrite S2, R2.
  set (o := spread (stored w) (chained_patch mws (stored w) (read partial w))).
  destruct (write_tail_spec mws (length (heap w)) finalPatch o w2 ltac:(lia) L2)
    as (G5 & V5 & S5 & I5 & U5 & T5).
  destruct (base_get (base_install o w2)) as [current w4]. simpl in G5, V5, S5, I5, U5, T5.
  rewrite (extends_read _ _ _ E2) in T5 by lia. rewrite R1, R2 in T5.
  split_and!; try done.
  - rewrite I5. destruct E2 as (_ & _ & -> & _). by destruct E1 as (_ & _ & -> & _).
  - rewrite U5. destruct E2 as (_ & _ & _ & ->). by destruct E1 as (_ & _ & _ & ->).
  - rewrite T5, T2, T1.
    destruct E2 as (_ & _ & _ & ->). destruct E1 as (_ & _ & _ & ->).
    by rewrite <- !app_assoc.
Qed.


Lemma set_spec mws newState w :
  valid w ->
  newState < length (heap w) ->
  let prev := stored w in
  let final := chained_patch mws prev (read newState w) in
  let w' := set mws newState w in
  valid w' ∧ stored w' = final ∧
  base_initial w' = base_initial w ∧
  base_subscribers w' = base_subscribers w ∧
  trace w' = trace w ++ before_events mws prev (read newState w)
               ++ install_events (base_subscribers w) final
               ++ after_events mws prev final final.
Proof.
  intros Hv Hp. cbv zeta. unfold set.
  destruct (base_get_spec w Hv) as (Hprev & E1 & L1 & R1 & T1).
  destruct (base_get w) as [prevState w1]. simpl in Hprev, E1, L1, R1, T1. subst prevState.
  unfold runBeforePatch.
  destruct (before_loop_spec mws (length (heap w)) newState w1 ltac:(lia) ltac:(lia))
    as (E2 & L2 & R2 & T2).
  destruct (before_loop mws (length (heap w)) newState w1) as [finalState w2].
  simpl in E2, L2, R2, T2.
  rewrite R1, (extends_read _ _ _ E1 Hp) in R2, T2.
  pose proof (extends_length _ _ E2) as Hlen2.
  unfold base_set. rewrite R2.
  set (o := chained_patch mws (stored w) (read newState w)).
  destruct (write_tail_spec mws (length (heap w)) finalState o w2 ltac:(lia) L2)
    as (G5 & V5 & S5 & I5 & U5 & T5).
  destruct (base_get (base_install o w2)) as [current w4]. simpl in G5, V5, S5, I5, U5, T5.
  rewrite (extends_read _ _ _ E2) in T5 by lia. rewrite R1, R2 in T5.
  split_and!; try done.
  - rewrite I5. destruct E2 as (_ & _ & -> & _). by destruct E1 as (_ & _ & -> & _).
  - rewrite U5. destruct E2 as (_ & _ & _ & ->). by destruct E1 as (_ & _ & _ & ->).
  - rewrite T5, T2, T1.
    destruct E2 as (_ & _ & _ & ->). destruct E1 as (_ & _ & _ & ->).
    by rewrite <- !app_assoc.
Qed.

Lemma update_spec mws updater w :
  valid w ->
  let prev := stored w in
  let final := chained_patch mws prev (updater prev) in
  let w' := update mws updater w in
  valid w' ∧ stored w' = final ∧
  base_initial w' = base_initial w ∧
  base_subscribers w' = base_subscribers w ∧
  trace w' = trace w ++ before_events mws prev (updater prev)
               ++ install_events (base_subscribers w) final
               ++ after_events mws prev final final.
Proof.
  intros Hv. cbv zeta. unfold update.
  destruct (base_get_spec w Hv) as (Hprev & E1 & L1 & R1 & T1).
  destruct (base_get w) as [prevState w1]. simpl in Hprev, E1, L1, R1, T1. subst prevState.
  pose proof (deepClone_spec (length (heap w)) w1 ltac:(lia)) as Hspec.
  destruct (deepClone (length (heap w)) w1) as [copy wc]. simpl in Hspec.
  destruct Hspec as (Hcopy & Ec & Lc & Rc & Tc). subst copy.
  rewrite Rc, R1.
  pose proof (extends_alloc (updater (stored w)) wc) as Eu.
  pose proof (alloc_length (updater (stored w)) wc) as Lu.
  pose proof (read_alloc (updater (stored w)) wc) as Ru.
  destruct (alloc (updater (stored w)) wc) as [updatedState wu] eqn:Au.
  injection Au as <- Hwu. simpl in Eu, Lu, Ru.
  assert (Tu : trace wu = trace wc) by (by subst wu).
  clear Hwu.
  assert (E1u : extends w1 wu) by (by eapply extends_trans).
  unfold runBeforePatch.
  destruct (before_loop_spec mws (length (heap w)) (length (heap wc)) wu
              ltac:(lia) ltac:(lia)) as (E2 & L2 & R2 & T2).
  destruct (before_loop mws (length (heap w)) (length (heap wc)) wu) as [finalState w2].
  simpl in E2, L2, R2, T2.
  rewrite Ru, (extends_read _ _ _ E1u) in R2, T2 by lia. rewrite R1 in R2, T2.
  pose proof (extends_length _ _ E2) as Hlen2.
  unfold base_set. rewrite R2.
  set (o := chained_patch mws (stored w) (updater (stored w))).
  destruct (write_tail_spec mws (length (heap w)) finalState o w2 ltac:(lia) L2)
    as (G5 & V5 & S5 & I5 & U5 & T5).
  destruct (base_get (base_install o w2)) as [current w4]. simpl in G5, V5, S5, I5, U5, T5.
  assert (E12 : extends w1 w2) by (by eapply extends_trans).
  rewrite (extends_read _ _ _ E12) in T5 by lia. rewrite R1, R2 in T5.
  assert (E02 : extends w w2) by (by eapply extends_trans).
  split_and!; try done.
  - rewrite I5. by destruct E02 as (_ & _ & -> & _).
  - rewrite U5. by destruct E02 as (_ & _ & _ & ->).
  - rewrite T5, T2, Tu, Tc, T1.
    destruct E02 as (_ & _ & _ & ->).
    by rewrite <- !app_assoc.
Qed.

Lemma reset_spec mws w :
  valid w ->
  let prev := stored w in
  let initial := base_initial w in
  let w' := reset mws w in
  valid w' ∧ stored w' = initial ∧
  base_initial w' = initial ∧
  base_subscribers w' = base_subscribers w ∧
  trace w' = trace w ++ install_events (base_subscribers w) initial
               ++ after_events mws prev initial initial.
Proof.
  intros Hv. cbv zeta. unfold reset.
  destruct (base_get_spec w Hv) as (Hprev & E1 & L1 & R1 & T1).
  destruct (base_get w) as [prevState w1]. simpl in Hprev, E1, L1, R1, T1. subst prevState.
  unfold base_reset.
  destruct E1 as (G1 & B1 & I1 & U1). rewrite I1.
  destruct (base_install_spec (base_initial w) w1) as (G3 & V3 & S3 & I3 & U3 & T3).
  set (w2 := base_install (base_initial w) w1) in *. clearbody w2.
  destruct (base_get_spec w2 V3) as (Hcur & E4 & L4 & R4 & T4).
  destruct (base_get w2) as [newState w3]. simpl in Hcur, E4, L4, R4, T4. subst newState.
  pose proof (grows_length _ _ G3) as Hlen3.
  unfold runAfterPatch.
  destruct (after_loop_spec mws (length (heap w)) (length (heap w2)) (length (heap w2)) w3
              ltac:(lia) ltac:(lia) ltac:(lia)) as (E5 & T5).
  set (w5 := fold_left _ mws w3) in *. clearbody w5.
  assert (G13 : grows w1 w3) by (eapply grows_trans; [exact G3|by apply extends_grows]).
  rewrite (grows_read _ _ _ G13) in T5 by lia. rewrite R1, R4, S3 in T5.
  assert (V4 : valid w3) by (by eapply extends_valid).
  split_and!.
  - by eapply extends_valid.
  - rewrite (extends_stored _ _ E5 V4), (extends_stored _ _ E4 V3). done.
  - destruct E5 as (_ & _ & -> & _). destruct E4 as (_ & _ & -> & _). by rewrite I3.
  - destruct E5 as (_ & _ & _ & ->). destruct E4 as (_ & _ & _ & ->). by rewrite U3.
  - rewrite T5, T4, T3, T1, U1. by rewrite <- !app_assoc.
Qed.


Lemma hook_order_app t1 t2 : hook_order (t1 ++ t2) = hook_order t1 ++ hook_order t2.
Proof. apply omap_app. Qed.

Lemma hook_order_before_events mws : ∀ state currentPatch,
  hook_order (before_events mws state currentPatch)
  = omap (fun mw => (fun _ => (name mw, "beforePatch")) <$> beforePatch mw) mws.
Proof.
  induction mws as [|mw rest IH]; intros state currentPatch; [done|].
  simpl. rewrite hook_order_app, IH. unfold before_step_events.
  destruct (beforePatch mw) as [hook|]; [|done]. simpl.
  by destruct (be_completion _).
Qed.

Lemma hook_order_after_events mws prevState newState patch :
  hook_order (after_events mws prevState newState patch)
  = omap (fun mw => (fun _ => (name mw, "afterPatch")) <$> afterPatch mw) mws.
Proof.
  unfold after_events. induction mws as [|mw rest IH]; [done|].
  simpl. rewrite hook_order_app, IH. unfold after_step_events.
  destruct (afterPatch mw) as [hook|]; [|done]. simpl.
  by destruct (ae_completion _).
Qed.

Lemma hook_order_install_events subs o :
  hook_order (install_events subs o) = [("", "write")].
Proof.
  unfold install_events. simpl. f_equal.
  by induction (JsSet.values subs).
Qed.

Lemma get_field_set_field o k v k' :
  get_field (set_field o k v) k' = if decide (k = k') then Some v else get_field o k'.
Proof.
  induction o as [|[k0 v0] o IH]; simpl.
  - done.
  - destruct (decide (k0 = k)) as [->|Hne]; simpl.
    + by destruct (decide (k = k')).
    + rewrite IH. destruct (decide (k0 = k')) as [->|]; [|done].
      by rewrite decide_False.
Qed.

Lemma get_field_spread_omitted b : ∀ a key,
  key ∉ keys b -> get_field (spread a b) key = get_field a key.
Proof.
  unfold spread, keys.
  induction b as [|[k v] b IH]; intros a key Hk; [done|].
  simpl in *. apply not_elem_of_cons in Hk as [Hne Hk].
  rewrite IH by done. rewrite get_field_set_field. by rewrite decide_False.
Qed.

Lemma valid_alloc o w : valid w -> valid (alloc o w).2.
Proof. intros Hv. by eapply extends_valid; [apply extends_alloc|]. Qed.

Lemma stored_alloc o w : valid w -> stored (alloc o w).2 = stored w.
Proof. intros Hv. by apply extends_stored; [apply extends_alloc|]. Qed.

(** What the copies are for: a write to the state object itself would be
    a write to what the store holds. *)
Lemma write_to_the_state_object_shows o w :
  valid w -> stored (write (base_state w) o w) = o.
Proof. intros Hv. unfold stored. simpl. by apply read_write. Qed.

(** C1. A [patch] call runs the [beforePatch] hooks in pipeline order, each
    with the state as it was and the patch as the hooks before it left it;
    it then installs the state merged with the last patch and runs the
    [afterPatch] hooks in the same order.  A hook that returns nothing
    leaves the patch as it was.  Patching [{count: 5}] through a doubling
    and then an incrementing hook stores [count = 11]. *)
Theorem middleware_patch_chains_hooks_in_order mws partial w :
  valid w ->
  partial < length (heap w) ->
  let prev := stored w in
  let final := chained_patch mws prev (read partial w) in
  let w' := patch mws partial w in
  trace w' = trace w ++ before_events mws prev (read partial w)
               ++ install_events (base_subscribers w) (spread prev final)
               ++ after_events mws prev (spread prev final) final ∧
  hook_order (trace w') = hook_order (trace w) ++ expected_order mws ∧
  get_value w' = spread prev final ∧
  (∀ mw rest state currentPatch,
     chained_patch (mw :: rest) state currentPatch
     = chained_patch rest state (step_patch mw state currentPatch)) ∧
  (∀ mw hook state currentPatch,
     beforePatch mw = Some hook ->
     be_completion (hook state currentPatch) = BReturn RetUndefined ->
     step_patch mw state currentPatch = currentPatch) ∧
  get_field
    (get_value (patch_literal [doubling; addingOne] [("count", JNum 5)]
                  (createGameStore initialState))) "count"
  = Some (JNum 11).
Proof.
  intros Hv Hp. cbv zeta.
  destruct (patch_spec mws partial w Hv Hp) as (V & S & _ & _ & T).
  split_and!.
  - exact T.
  - rewrite T, !hook_order_app, hook_order_before_events,
      hook_order_install_events, hook_order_after_events.
    done.
  - by rewrite get_value_stored.
  - done.
  - intros mw hook state currentPatch Hhook Hret.
    unfold step_patch, hook_patch. by rewrite Hhook, Hret.
  - vm_compute. reflexivity.
Qed.

Lemma middleware_patch_chains_hooks_in_order_witness :
  hook_order (trace (patch [doubling; addingOne; meddling] 0
                       (createGameStore initialState)))
  = [("double", "beforePatch"); ("addOne", "beforePatch"); ("", "write");
     ("meddler", "afterPatch")].
Proof.
  apply (middleware_patch_chains_hooks_in_order [doubling; addingOne; meddling] 0
           (createGameStore initialState)).
  - unfold valid. simpl. lia.
  - simpl. lia.
Defined.


(** C3 (as stated, on the input where it fails). [set] hands the result of
    the pipeline to the [set] of the base store: a hook that answers with
    [{count: 1}] makes the stored state [{count: 1}], and the key [name],
    which the hook's answer omits, does not keep its value. *)
Lemma set_drops_keys_the_hook_omits :
  get_field (get_value (createGameStore initialState)) "name" = Some (JStr "test") ∧
  ("name" ∉ keys (chained_patch [countOnly] initialState replacement)) ∧
  get_value (set_literal [countOnly] replacement (createGameStore initialState))
  = [("count", JNum 1)] ∧
  get_field
    (get_value (set_literal [countOnly] replacement (createGameStore initialState)))
    "name" = None.
Proof.
  split_and!; try (vm_compute; reflexivity).
  vm_compute. intros H. apply list_elem_of_In in H. simpl in H.
  destruct H as [H|[]]. discriminate H.
Qed.

(** C3 (amended). [set] and [update] run the pipeline on the whole new
    state and install its result with the [set] of the base store, which
    replaces the state, so that the stored state is exactly what the
    pipeline returned; [patch] installs the pipeline's result with the
    [patch] of the base store, and there a key that the final patch omits
    keeps its value. *)
Theorem set_update_replace_and_patch_merges mws w :
  valid w ->
  (∀ newState, newState < length (heap w) ->
     let final := chained_patch mws (stored w) (read newState w) in
     get_value (set mws newState w) = final ∧
     trace (set mws newState w)
     = trace w ++ before_events mws (stored w) (read newState w)
         ++ install_events (base_subscribers w) final
         ++ after_events mws (stored w) final final) ∧
  (∀ updater,
     let final := chained_patch mws (stored w) (updater (stored w)) in
     get_value (update mws updater w) = final ∧
     trace (update mws updater w)
     = trace w ++ before_events mws (stored w) (updater (stored w))
         ++ install_events (base_subscribers w) final
         ++ after_events mws (stored w) final final) ∧
  (∀ partial, partial < length (heap w) ->
     let final := chained_patch mws (stored w) (read partial w) in
     get_value (patch mws partial w) = spread (stored w) final ∧
     ∀ key, key ∉ keys final ->
       get_field (get_value (patch mws partial w)) key = get_field (stored w) key).
Proof.
  intros Hv. split_and!.
  - intros newState Hn. cbv zeta.
    destruct (set_spec mws newState w Hv Hn) as (V & S & _ & _ & T).
    by rewrite get_value_stored.
  - intros updater. cbv zeta.
    destruct (update_spec mws updater w Hv) as (V & S & _ & _ & T).
    by rewrite get_value_stored.
  - intros partial Hp. cbv zeta.
    destruct (patch_spec mws partial w Hv Hp) as (V & S & _ & _ & T).
    rewrite get_value_stored by done. split; [done|].
    intros key Hkey. rewrite S. by apply get_field_spread_omitted.
Qed.

Lemma set_update_replace_and_patch_merges_witness :
  get_value (update [countOnly] (fun state => state) (createGameStore initialState))
  = [("count", JNum 1)].
Proof.
  destruct (set_update_replace_and_patch_merges [countOnly]
              (createGameStore initialState)) as (_ & H & _).
  - unfold valid. simpl. lia.
  - exact (proj1 (H (fun state => state))).
Defined.

Lemma after_step_forget_return prevState newState patch mw w :
  after_step prevState newState patch (forget_return mw) w
  = after_step prevState newState patch mw w.
Proof.
  unfold after_step, forget_return. simpl.
  destruct (afterPatch mw) as [hook|]; [|done]. simpl.
  destruct (deepClone prevState w) as [a w1].
  destruct (deepClone newState w1) as [b w2].
  destruct (deepClone patch w2) as [c w3]. simpl.
  by destruct (ae_completion _).
Qed.

Lemma runAfterPatch_forget_return mws prevState newState patch : ∀ w,
  runAfterPatch (forget_return <$> mws) prevState newState patch w
  = runAfterPatch mws prevState newState patch w.
Proof.
  unfold runAfterPatch. induction mws as [|mw rest IH]; intros w; [done|].
  simpl. by rewrite after_step_forget_return, IH.
Qed.

(** C6. The [afterPatch] hooks are given copies: whatever they write to
    the three objects they receive, the state the store holds, what [get]
    returns and the three objects the copies were taken from are as
    before; what the hooks return changes nothing.  So the state a [patch]
    stores does not depend on the [afterPatch] hooks, and a hook that sets
    [newState.count = 999] leaves [count] at the patched value. *)
Theorem afterPatch_hooks_cannot_change_state mws prevState newState patch w :
  valid w ->
  prevState < length (heap w) ->
  newState < length (heap w) ->
  patch < length (heap w) ->
  let w' := runAfterPatch mws prevState newState patch w in
  stored w' = stored w ∧
  get_value w' = get_value w ∧
  base_state w' = base_state w ∧
  read prevState w' = read prevState w ∧
  read newState w' = read newState w ∧
  read patch w' = read patch w ∧
  trace w' = trace w
    ++ after_events mws (read prevState w) (read newState w) (read patch w) ∧
  runAfterPatch (forget_return <$> mws) prevState newState patch w = w' ∧
  get_field
    (get_value (patch_literal [meddling] [("count", JNum 5)]
                  (createGameStore initialState))) "count"
  = Some (JNum 5).
Proof.
  intros Hv Ha Hb Hc. cbv zeta. unfold runAfterPatch at 1 2 3 4 5 6 7.
  destruct (after_loop_spec mws prevState newState patch w Ha Hb Hc) as (E & T).
  fold (runAfterPatch mws prevState newState patch w) in *.
  set (w' := runAfterPatch mws prevState newState patch w) in *.
  assert (V' : valid w') by (by eapply extends_valid).
  split_and!.
  - by apply extends_stored.
  - rewrite !get_value_stored by done. by apply extends_stored.
  - by destruct E as (_ & -> & _).
  - by apply extends_read.
  - by apply extends_read.
  - by apply extends_read.
  - exact T.
  - apply runAfterPatch_forget_return.
  - vm_compute. reflexivity.
Qed.

Lemma afterPatch_hooks_cannot_change_state_witness :
  stored (runAfterPatch [meddling] 0 0 0 (createGameStore initialState))
  = initialState.
Proof.
  apply (afterPatch_hooks_cannot_change_state [meddling] 0 0 0
           (createGameStore initialState));
    unfold valid; simpl; lia.
Defined.

End MiddlewareProperties.

(** ** Scoped store *)

Section ScopedStoreProperties.
Import Json ScopedStore.

Lemma get_field_None o key : key ∉ keys o -> get_field o key = None.
Proof.
  unfold keys. induction o as [|[k v] o IH]; [done|].
  simpl. intros H. apply not_elem_of_cons in H as [Hne H].
  rewrite decide_False by done. by apply IH.
Qed.

Lemma elem_of_allKeys old new key :
  key ∈ allKeys old new ↔ key ∈ keys old ∨ key ∈ keys new.
Proof.
  unfold allKeys. rewrite elem_of_values_fold_add, elem_of_app.
  unfold JsSet.empty, JsSet.values. simpl. rewrite elem_of_nil. tauto.
Qed.

Lemma key_changed_spec old new key :
  key_changed old new key = true ↔ get_field old key ≠ get_field new key.
Proof.
  unfold key_changed. rewrite bool_decide_eq_true. split.
  - intros H E. apply H. by rewrite E.
  - intros H E. apply H. by apply stringify_opt_inj.
Qed.

(** The changed keys are the keys under which the two states hold
    different values, a missing key holding [undefined]. *)
Lemma elem_of_getChangedKeys old new key :
  key ∈ getChangedKeys old new ↔ get_field old key ≠ get_field new key.
Proof.
  unfold getChangedKeys.
  rewrite list_elem_of_In, filter_In, <- list_elem_of_In, key_changed_spec,
    elem_of_allKeys.
  split; [tauto|]. intros H. split; [|done].
  destruct (decide (key ∈ keys old)) as [|Ho]; [by left|].
  destruct (decide (key ∈ keys new)) as [|Hn]; [by right|].
  by rewrite !get_field_None in H.
Qed.

Lemma scoped_log_all_nil w : log_all [] w = w.
Proof. destruct w. unfold log_all. simpl. by rewrite app_nil_r. Qed.

Lemma scoped_log_all_app es1 es2 w : log_all es2 (log_all es1 w) = log_all (es1 ++ es2) w.
Proof. unfold log_all. simpl. by rewrite app_assoc. Qed.

Section Passive.
Variable options : ScopedStoreOptions.
Variable env : bodies.
Variable api : call -> world -> option (completion * world).
Hypothesis Hpassive : passive env.

Lemma call_subscriber_passive callback snapshot w :
  call_subscriber env api callback snapshot w
  = Some (Normal, log_all [SubscriberCalled callback snapshot] w).
Proof.
  unfold call_subscriber. by rewrite (proj1 Hpassive).
Qed.

Lemma call_key_subscriber_passive key callback value w :
  call_key_subscriber env api key callback value w
  = Some (Normal, log_all [KeySubscriberCalled key callback value] w).
Proof.
  unfold call_key_subscriber. by rewrite (proj1 (proj2 Hpassive)).
Qed.

Lemma forEach_from_passive steps snapshot : ∀ i w,
  length (subscribers w) - i < steps ->
  forEach_from env api steps i snapshot w
  = Some (Normal,
          log_all ((fun callback => SubscriberCalled callback snapshot)
                     <$> JsSet.values (drop i (subscribers w))) w).
Proof.
  induction steps as [|steps IH]; intros i w Hsteps; [lia|].
  simpl. destruct (subscribers w !! i) as [[callback|]|] eqn:Hi.
  - pose proof (lookup_lt_Some _ _ _ Hi).
    rewrite call_subscriber_passive. simpl.
    rewrite IH by (simpl; lia). simpl.
    rewrite (drop_S _ _ _ Hi). simpl. by rewrite scoped_log_all_app.
  - pose proof (lookup_lt_Some _ _ _ Hi).
    rewrite IH by lia. by rewrite (drop_S _ _ _ Hi).
  - apply lookup_ge_None in Hi. rewrite drop_ge by done.
    by rewrite scoped_log_all_nil.
Qed.

Lemma notify_passive steps state w :
  length (subscribers w) < steps ->
  notify env api steps state w
  = Some (Normal, log_all (subscriber_events w state) w).
Proof.
  intros H. unfold notify, deepClone, subscriber_events.
  rewrite forEach_from_passive by lia. by rewrite drop_0.
Qed.

Lemma key_forEach_from_passive steps key value : ∀ i w,
  length (default JsSet.empty (keySubscribers w !! key)) - i < steps ->
  key_forEach_from env api steps i key value w
  = Some (Normal,
          log_all ((fun callback => KeySubscriberCalled key callback value)
                     <$> JsSet.values
                           (drop i (default JsSet.empty (keySubscribers w !! key)))) w).
Proof.
  induction steps as [|steps IH]; intros i w Hsteps; [lia|].
  simpl. destruct (default JsSet.empty (keySubscribers w !! key) !! i)
    as [[callback|]|] eqn:Hi.
  - pose proof (lookup_lt_Some _ _ _ Hi).
    rewrite call_key_subscriber_passive. simpl.
    rewrite IH by (simpl; lia). simpl.
    rewrite (drop_S _ _ _ Hi). simpl. by rewrite scoped_log_all_app.
  - pose proof (lookup_lt_Some _ _ _ Hi).
    rewrite IH by lia. by rewrite (drop_S _ _ _ Hi).
  - apply lookup_ge_None in Hi. rewrite drop_ge by done.
    by rewrite scoped_log_all_nil.
Qed.

Lemma notifyKeySubscribers_passive steps state changedKeys : ∀ w,
  (∀ key subs, keySubscribers w !! key = Some subs -> length subs < steps) ->
  notifyKeySubscribers env api steps changedKeys state w
  = Some (Normal, log_all (flat_map (key_events w state) changedKeys) w).
Proof.
  induction changedKeys as [|key rest IH]; intros w Hsteps; simpl.
  - by rewrite scoped_log_all_nil.
  - destruct (keySubscribers w !! key) as [subs|] eqn:Hkey.
    + rewrite key_forEach_from_passive
        by (rewrite Hkey; simpl; specialize (Hsteps _ _ Hkey); lia).
      simpl. rewrite IH by done. rewrite drop_0, scoped_log_all_app.
      unfold key_events at 2. by rewrite Hkey.
    + simpl. rewrite IH by done. unfold key_events at 2. by rewrite Hkey.
Qed.

(** What the handler does with a parent state: nothing when no key of the
    projection changed; otherwise it records the projection and calls the
    whole-state subscribers and then the subscribers of the changed keys. *)
Lemma handler_passive steps parentState w :
  enough steps w ->
  let currentScoped := select options parentState in
  let changedKeys := getChangedKeys (lastScopedState w) currentScoped in
  handler options env api steps parentState w
  = Some (Normal,
          if decide (0 < length changedKeys) then
            log_all (subscriber_events w currentScoped
                     ++ flat_map (key_events w currentScoped) changedKeys)
                    (with_lastScopedState currentScoped w)
          else w).
Proof.
  intros [Hs Hk]. cbv zeta. unfold handler.
  destruct (decide (0 < length _)) as [Hchanged|]; [|done].
  unfold deepClone at 1.
  rewrite notify_passive by done. simpl.
  rewrite notifyKeySubscribers_passive by done.
  by rewrite scoped_log_all_app.
Qed.

Lemma same_stores_refl w : same_stores w w.
Proof. by repeat split. Qed.

Lemma same_stores_trans w1 w2 w3 :
  same_stores w1 w2 -> same_stores w2 w3 -> same_stores w1 w3.
Proof.
  intros (?&?&?&?&?&?) (?&?&?&?&?&?). repeat split; congruence.
Qed.

Lemma same_stores_enough steps w w' :
  same_stores w w' -> enough steps w -> enough steps w'.
Proof.
  intros (_&_&_&_&Hs&Hk) [H1 H2]. unfold enough. by rewrite Hs, Hk.
Qed.

Lemma parent_call_passive steps cb state w :
  enough steps w ->
  ∃ w', parent_call options env api steps cb state w = Some w' ∧
        same_stores w w'.
Proof.
  intros He. unfold parent_call. destruct cb as [|f].
  - rewrite handler_passive by done. simpl.
    destruct (decide _); eexists; (split; [done|]); by repeat split.
  - rewrite (proj2 (proj2 Hpassive)). simpl.
    eexists; (split; [done|]); by repeat split.
Qed.

Lemma parent_notify_loop_passive steps state snapshot : ∀ w,
  enough steps w ->
  ∃ w', parent_notify_loop options env api steps snapshot state w = Some w' ∧
        same_stores w w'.
Proof.
  induction snapshot as [|cb rest IH]; intros w He; simpl.
  - eexists. split; [done|apply same_stores_refl].
  - destruct (parent_call_passive steps cb state w He) as (w1 & -> & S1). simpl.
    destruct (IH w1 (same_stores_enough _ _ _ S1 He)) as (w2 & -> & S2).
    eexists. split; [done|]. by eapply same_stores_trans.
Qed.

(** A parent notification whose state projects to what the scoped store
    last saw calls no scoped subscriber. *)
Lemma parent_notify_loop_unchanged steps state snapshot : ∀ w,
  getChangedKeys (lastScopedState w) (select options state) = [] ->
  ∃ w', parent_notify_loop options env api steps snapshot state w = Some w' ∧
        same_stores w w' ∧
        lastScopedState w' = lastScopedState w ∧
        scoped_calls (trace w') = scoped_calls (trace w).
Proof.
  induction snapshot as [|cb rest IH]; intros w Hsame; simpl.
  - eexists. split; [done|]. split; [apply same_stores_refl|done].
  - unfold parent_call. destruct cb as [|f].
    + unfold handler. rewrite Hsame. simpl.
      destruct (IH w Hsame) as (w2 & -> & S2 & L2 & T2). by eexists.
    + rewrite (proj2 (proj2 Hpassive)). simpl.
      destruct (IH (log (ParentSubscriberCalled f state) w) Hsame)
        as (w2 & -> & S2 & L2 & T2).
      eexists. split; [done|]. split; [|split]; try done.
      rewrite T2. simpl. unfold scoped_calls. rewrite List.filter_app. simpl.
      by rewrite app_nil_r.
Qed.

End Passive.

Lemma field_scope_update_slice k state scoped :
  get_field (update (field_scope k) state scoped) k = Some (JObj scoped) ∧
  select (field_scope k) (update (field_scope k) state scoped) = scoped ∧
  ∀ key, key ≠ k ->
    get_field (update (field_scope k) state scoped) key = get_field state key.
Proof.
  assert (H : get_field (spread state [(k, JObj scoped)]) k = Some (JObj scoped)).
  { unfold spread. simpl. rewrite get_field_set_field. by rewrite decide_True. }
  unfold field_scope. cbn [select update]. split; [done|]. split; [by rewrite H|].
  intros key Hkey. unfold spread. simpl. rewrite get_field_set_field.
  by rewrite decide_False.
Qed.

Example watched_player_is_built :
  watched_player passive_bodies = Some watched_player_world ∧
  watched_player first_throws = Some watched_player_world ∧
  watched_player rewiring_bodies = Some watched_player_world.
Proof. split_and!; vm_compute; reflexivity. Qed.



(** The scenario of the tests: patching [score] on the parent calls no
    scoped subscriber; patching [health] through the scoped store changes
    [player.health] in the parent, leaves [score], and calls the two
    subscribers and the subscriber of [health]. *)
Example scoped_isolation_scenario :
  (trace <$> parent_patch (field_scope "player") passive_bodies
               (exec (field_scope "player") passive_bodies 3) 3
               [("score", JNum 100)] watched_player_world) = Some [] ∧
  ∃ w', scoped_patch (field_scope "player") passive_bodies
          (exec (field_scope "player") passive_bodies 3) 3
          [("health", JNum 75)] watched_player_world = Some w' ∧
    get_field (parent_state w') "player"
    = Some (JObj [("name", JStr "Hero"); ("health", JNum 75); ("level", JNum 1)]) ∧
    get_field (parent_state w') "score" = Some (JNum 0) ∧
    trace w'
    = [SubscriberCalled 0 [("name", JStr "Hero"); ("health", JNum 75); ("level", JNum 1)];
       SubscriberCalled 1 [("name", JStr "Hero"); ("health", JNum 75); ("level", JNum 1)];
       KeySubscriberCalled "health" 2 (Some (JNum 75))].
Proof.
  split; [vm_compute; reflexivity|].
  eexists. split; [vm_compute; reflexivity|]. by vm_compute.
Qed.

End ScopedStoreProperties.

(** ** Notification passes *)

Section JsSetDelete.
Context {A : Type} `{EqDecision A}.
Implicit Types (s : JsSet.jsset A) (x y : A).

Lemma length_delete x s : length (JsSet.delete x s) = length s.
Proof. unfold JsSet.delete. apply length_fmap. Qed.

Lemma lookup_delete_entry x s i :
  JsSet.delete x s !! i
  = (fun e => if decide (e = Some x) then None else e) <$> (s !! i).
Proof. unfold JsSet.delete. apply list_lookup_fmap. Qed.

Lemma drop_delete x s n : drop n (JsSet.delete x s) = JsSet.delete x (drop n s).
Proof. unfold JsSet.delete. by rewrite fmap_drop. Qed.

Lemma delete_absent x s : x ∉ JsSet.values s -> JsSet.delete x s = s.
Proof.
  rewrite elem_of_values. unfold JsSet.delete.
  induction s as [|e s IH]; intros H; [done|].
  apply not_elem_of_cons in H as [Hne H]. rewrite fmap_cons.
  rewrite decide_False by done. by rewrite IH.
Qed.

Lemma delete_delete x s : JsSet.delete x (JsSet.delete x s) = JsSet.delete x s.
Proof.
  unfold JsSet.delete. rewrite <- list_fmap_compose. apply list_fmap_ext.
  intros _ e _. simpl. destruct (decide (e = Some x)); [done|].
  by rewrite decide_False.
Qed.

Lemma values_delete x s :
  JsSet.values (JsSet.delete x s) = List.filter (fun y => bool_decide (y ≠ x)) (JsSet.values s).
Proof.
  unfold JsSet.values, JsSet.delete.
  induction s as [|[y|] s IH]; [done| |].
  - rewrite fmap_cons. destruct (decide (Some y = Some x)) as [E|Hne]; simpl.
    + injection E as ->. rewrite bool_decide_eq_false_2 by tauto. done.
    + rewrite bool_decide_eq_true_2 by congruence. f_equal. exact IH.
  - rewrite fmap_cons. rewrite decide_False by done. simpl. exact IH.
Qed.

Lemma NoDup_values_delete x s :
  NoDup (JsSet.values s) -> NoDup (JsSet.values (JsSet.delete x s)).
Proof.
  rewrite values_delete. intros H.
  induction H as [|y l Hy Hl IH]; simpl; [constructor|].
  case_bool_decide; [|done]. constructor; [|done].
  rewrite list_elem_of_In, filter_In, <- list_elem_of_In. tauto.
Qed.

(** In a set, the entry at [i] does not occur again further on. *)
Lemma NoDup_values_later x s i :
  NoDup (JsSet.values s) -> s !! i = Some (Some x) ->
  x ∉ JsSet.values (drop (S i) s).
Proof.
  intros Hnd Hi. rewrite <- (take_drop_middle s i (Some x) Hi) in Hnd.
  rewrite values_app in Hnd. apply NoDup_app in Hnd as (_ & _ & Hnd).
  simpl in Hnd. by apply NoDup_cons in Hnd as [? _].
Qed.

End JsSetDelete.

Section ModalLeaving.
Import Json ModalQueue.
Variable env : bodies.
Variable api : call -> state -> option state.
Hypothesis Hleaving : leaving env.
Hypothesis api_unsubscribe : ∀ callback st,
  api (CUnsubscribe callback) st
  = Some (with_subscribers (JsSet.delete callback (subscribers st)) st).

Lemma run_body_only_leaves callback s : ∀ st,
  only_leaves callback s = true ->
  ∃ st', run_body api s st = Some (if throws s then Thrown else Normal, st') ∧
    trace st' = trace st ∧ queue st' = queue st ∧
    (subscribers st' = subscribers st ∨
     subscribers st' = JsSet.delete callback (subscribers st)).
Proof.
  induction s as [|x s IH]; intros st Hs.
  - eexists. split; [done|]. by auto.
  - destruct x as [c|]; [|eexists; split; [done|]; by auto].
    simpl in Hs. apply andb_prop in Hs as [Hc Hs].
    destruct c; try discriminate Hc.
    apply bool_decide_eq_true in Hc as ->.
    simpl. rewrite api_unsubscribe. simpl.
    destruct (IH (with_subscribers (JsSet.delete callback (subscribers st)) st) Hs)
      as (st' & -> & Ht & Hq & Hsubs).
    eexists. split; [done|]. split; [done|]. split; [done|]. right.
    simpl in Hsubs. destruct Hsubs as [->| ->]; [done|apply delete_delete].
Qed.

Lemma call_subscriber_leaving callback snapshot st :
  ∃ st', call_subscriber env api callback snapshot st = Some st' ∧
    trace st' = trace st ++ subscriber_events env snapshot callback ∧
    queue st' = queue st ∧
    (subscribers st' = subscribers st ∨
     subscribers st' = JsSet.delete callback (subscribers st)).
Proof.
  unfold call_subscriber, subscriber_events.
  destruct (run_body_only_leaves callback (subscriberBody env callback snapshot)
              (log (SubscriberCalled callback snapshot) st) (Hleaving _ _))
    as (st' & -> & Ht & Hq & Hsubs).
  simpl. destruct (throws _); eexists; (split; [done|]); simpl;
    rewrite Ht; simpl; rewrite <- ?app_assoc; by auto.
Qed.

(** A pass over subscribers that at most unsubscribe themselves calls
    every subscriber present when it began, once and in order. *)
Lemma forEach_from_leaving snapshot steps : ∀ i st,
  NoDup (JsSet.values (subscribers st)) ->
  length (subscribers st) - i < steps ->
  ∃ st', forEach_from env api steps i snapshot st = Some st' ∧
    trace st' = trace st ++ notify_events env snapshot (drop i (subscribers st)) ∧
    queue st' = queue st.
Proof.
  induction steps as [|steps IH]; intros i st Hnd Hsteps; [lia|].
  simpl. destruct (subscribers st !! i) as [[callback|]|] eqn:Hi.
  - pose proof (lookup_lt_Some _ _ _ Hi) as Hlt.
    destruct (call_subscriber_leaving callback snapshot st)
      as (st1 & -> & Ht1 & Hq1 & Hsubs). simpl.
    assert (Hdrop : drop (S i) (subscribers st1) = drop (S i) (subscribers st)).
    { destruct Hsubs as [->| ->]; [done|].
      rewrite drop_delete. apply delete_absent. by eapply NoDup_values_later. }
    destruct (IH (S i) st1) as (st' & -> & Ht & Hq).
    + destruct Hsubs as [->| ->]; [done|by apply NoDup_values_delete].
    + destruct Hsubs as [->| ->]; rewrite ?length_delete; lia.
    + eexists. split; [done|]. split; [|congruence].
      rewrite Ht, Ht1, Hdrop, (drop_S _ _ _ Hi). unfold notify_events. simpl.
      by rewrite <- app_assoc.
  - pose proof (lookup_lt_Some _ _ _ Hi).
    destruct (IH (S i) st Hnd ltac:(lia)) as (st' & -> & Ht & Hq).
    eexists. split; [done|]. by rewrite (drop_S _ _ _ Hi).
  - apply lookup_ge_None in Hi. rewrite drop_ge by done.
    eexists. split; [done|]. unfold notify_events. simpl. by rewrite app_nil_r.
Qed.

End ModalLeaving.

Lemma push_leaving env fuel item st :
  ModalQueue.leaving env ->
  NoDup (JsSet.values (ModalQueue.subscribers st)) ->
  length (ModalQueue.subscribers st) + 3 ≤ fuel ->
  ∃ st', ModalQueue.push env fuel item st = Some st' ∧
    ModalQueue.subscriber_calls (ModalQueue.trace st')
    = ModalQueue.subscriber_calls (ModalQueue.trace st)
      ++ ((fun callback => (callback, ModalQueue.queue st ++ [item]))
            <$> JsSet.values (ModalQueue.subscribers st)).
Proof.
  intros Hl Hnd Hfuel.
  destruct fuel as [|[|fuel]]; [lia|lia|].
  unfold ModalQueue.push.
  change (ModalQueue.exec env (S (S fuel)) (ModalQueue.CPush item) st)
    with (ModalQueue.forEach_from env (ModalQueue.exec env (S fuel)) (S fuel) 0
            (ModalQueue.queue st ++ [item])
            (ModalQueue.with_queue (ModalQueue.queue st ++ [item]) st)).
  destruct (forEach_from_leaving env (ModalQueue.exec env (S fuel)) Hl
              ltac:(done) (ModalQueue.queue st ++ [item]) (S fuel) 0
              (ModalQueue.with_queue (ModalQueue.queue st ++ [item]) st))
    as (st' & -> & Ht & _).
  - done.
  - simpl. lia.
  - eexists. split; [done|]. rewrite Ht. simpl. rewrite drop_0.
    by rewrite subscriber_calls_app, subscriber_calls_notify_events.
Qed.

Section ScopedLeaving.
Import Json ScopedStore.
Variable env : bodies.
Variable api : call -> world -> option (completion * world).
Hypothesis Hleaving : leaving env.
Hypothesis api_unsubscribe : ∀ callback w,
  api (CUnsubscribe callback) w
  = Some (Normal, with_subscribers (JsSet.delete callback (subscribers w)) w).

Lemma scoped_run_body_only_leaves callback s : ∀ w,
  only_leaves callback s = true ->
  ∃ w', run_body api s w = Some (Normal, w') ∧
    trace w' = trace w ∧
    (subscribers w' = subscribers w ∨
     subscribers w' = JsSet.delete callback (subscribers w)).
Proof.
  induction s as [|x s IH]; intros w Hs.
  - eexists. split; [done|]. by auto.
  - destruct x as [c|]; [|discriminate Hs].
    simpl in Hs. apply andb_prop in Hs as [Hc Hs].
    destruct c; try discriminate Hc.
    apply bool_decide_eq_true in Hc as ->.
    simpl. rewrite api_unsubscribe. simpl.
    destruct (IH (with_subscribers (JsSet.delete callback (subscribers w)) w) Hs)
      as (w' & -> & Ht & Hsubs).
    eexists. split; [done|]. split; [done|]. right.
    simpl in Hsubs. destruct Hsubs as [->| ->]; [done|apply delete_delete].
Qed.

Lemma scoped_forEach_from_leaving snapshot steps : ∀ i w,
  NoDup (JsSet.values (subscribers w)) ->
  length (subscribers w) - i < steps ->
  ∃ w', forEach_from env api steps i snapshot w = Some (Normal, w') ∧
    trace w' = trace w
      ++ ((fun callback => SubscriberCalled callback snapshot)
            <$> JsSet.values (drop i (subscribers w))).
Proof.
  induction steps as [|steps IH]; intros i w Hnd Hsteps; [lia|].
  simpl. destruct (subscribers w !! i) as [[callback|]|] eqn:Hi.
  - pose proof (lookup_lt_Some _ _ _ Hi) as Hlt.
    unfold call_subscriber.
    destruct (scoped_run_body_only_leaves callback
                (subscriberBody env callback snapshot)
                (log (SubscriberCalled callback snapshot) w) (Hleaving _ _))
      as (w1 & -> & Ht1 & Hsubs). simpl in Ht1, Hsubs. simpl.
    assert (Hdrop : drop (S i) (subscribers w1) = drop (S i) (subscribers w)).
    { destruct Hsubs as [->| ->]; [done|].
      rewrite drop_delete. apply delete_absent. by eapply NoDup_values_later. }
    destruct (IH (S i) w1) as (w' & -> & Ht).
    + destruct Hsubs as [->| ->]; [done|by apply NoDup_values_delete].
    + destruct Hsubs as [->| ->]; rewrite ?length_delete; lia.
    + eexists. split; [done|].
      rewrite Ht, Ht1, Hdrop, (drop_S _ _ _ Hi). simpl.
      by rewrite <- app_assoc.
  - pose proof (lookup_lt_Some _ _ _ Hi).
    destruct (IH (S i) w Hnd ltac:(lia)) as (w' & -> & Ht).
    eexists. split; [done|]. by rewrite (drop_S _ _ _ Hi).
  - apply lookup_ge_None in Hi. rewrite drop_ge by done.
    eexists. split; [done|]. simpl. by rewrite app_nil_r.
Qed.

Lemma scoped_notify_leaving steps state w :
  NoDup (JsSet.values (subscribers w)) ->
  length (subscribers w) < steps ->
  ∃ w', notify env api steps state w = Some (Normal, w') ∧
    trace w' = trace w ++ subscriber_events w state.
Proof.
  intros Hnd Hsteps. unfold notify, deepClone, subscriber_events.
  destruct (scoped_forEach_from_leaving state steps 0 w Hnd ltac:(lia))
    as (w' & -> & Ht).
  eexists. split; [done|]. by rewrite Ht, drop_0.
Qed.

End ScopedLeaving.

Section NotificationPasses.
Import Json.




(** C5 (on the input where it fails). The scoped store calls its
    subscribers with nothing around the call.  With two subscribers of
    which the first throws, a scoped [patch] calls the first only: its
    exception ends the pass, the second subscriber and the subscriber of
    the changed key are not called, and the exception is caught only by the
    parent store.  And the exception of the immediate call leaves
    [subscribe]. *)
Theorem scoped_subscriber_throw_ends_the_pass :
  (∃ w', ScopedStore.scoped_patch (ScopedStore.field_scope "player")
           ScopedStore.first_throws
           (ScopedStore.exec (ScopedStore.field_scope "player")
              ScopedStore.first_throws 3) 3
           [("health", JNum 75)] ScopedStore.watched_player_world = Some w' ∧
     JsSet.values (ScopedStore.subscribers w') = [0; 1] ∧
     ScopedStore.trace w'
     = [ScopedStore.SubscriberCalled 0
          [("name", JStr "Hero"); ("health", JNum 75); ("level", JNum 1)];
        ScopedStore.ConsoleError "store subscriber error"]) ∧
  (fst <$> ScopedStore.exec (ScopedStore.field_scope "player")
             ScopedStore.first_throws 3 (ScopedStore.CSubscribe 9)
             ScopedStore.watched_player_world)
  = Some ScopedStore.Thrown.
Proof.
  split; [|vm_compute; reflexivity].
  eexists. split; [vm_compute; reflexivity|]. split; reflexivity.
Qed.

End NotificationPasses.

(** ** [once] without nested emits *)

Section OnceProperties.
Import Json EventBus.
Local Arguments on : simpl never.
Local Arguments off : simpl never.
Local Arguments once : simpl never.

Lemma registered_off st event cb ev :
  registered (off event cb st) ev
  = if decide (ev = event)
    then List.filter (fun y => bool_decide (y ≠ cb)) (registered st ev)
    else registered st ev.
Proof.
  unfold registered, off. simpl.
  destruct (decide (ev = event)) as [->|Hne].
  - rewrite lookup_alter_eq. destruct (listeners st !! event); simpl; [|done].
    apply values_delete.
  - by rewrite lookup_alter_ne.
Qed.

Lemma registered_on st event cb ev :
  cb ∉ registered st event ->
  registered (on event cb st) ev
  = if decide (ev = event) then registered st ev ++ [cb] else registered st ev.
Proof.
  intros Hnew. unfold registered, on in *. simpl.
  destruct (decide (ev = event)) as [->|Hne].
  - destruct (decide (is_Some (listeners st !! event))) as [[s Hs]|Hnone].
    + rewrite lookup_alter_eq, Hs in *. simpl in *.
      unfold JsSet.add, JsSet.has. rewrite bool_decide_eq_false_2.
      * by rewrite values_app.
      * by rewrite <- elem_of_values.
    + rewrite lookup_alter_eq, lookup_insert_eq. simpl.
      apply eq_None_not_Some in Hnone. by rewrite Hnone.
  - destruct (decide (is_Some (listeners st !! event))).
    + by rewrite lookup_alter_ne.
    + by rewrite lookup_alter_ne, lookup_insert_ne.
Qed.

Lemma emit_with_registered body api event data st :
  emit_with body api event data st
  = emit_loop body api event (registered st event) data st.
Proof.
  unfold emit_with, registered. by destruct (listeners st !! event).
Qed.

Lemma calls_of_app f t1 t2 : calls_of f (t1 ++ t2) = calls_of f t1 ++ calls_of f t2.
Proof. apply omap_app. Qed.

Lemma calls_of_emit_events body event data f cb :
  calls_of f (emit_events body event data cb)
  = if decide (target cb = f) then [data] else [].
Proof.
  unfold emit_events, calls_of. simpl.
  destruct (decide (target cb = f)); by destruct (throws _).
Qed.

Lemma calls_of_other_listeners body event data f l :
  (∀ cb, cb ∈ l -> target cb ≠ f) ->
  calls_of f (flat_map (emit_events body event data) l) = [].
Proof.
  induction l as [|cb l IH]; intros Hl; [done|].
  change (flat_map ?g (cb :: l)) with (g cb ++ flat_map g l).
  rewrite calls_of_app, calls_of_emit_events, IH.
  - rewrite decide_False; [done|]. apply Hl. by left.
  - intros cb' Hcb'. apply Hl. by right.
Qed.

Section Quiet.
Variable body : nat -> option json -> script.
Variable api : call -> state -> option state.
Hypothesis Hquiet : ∀ f data, quiet (body f data) = true.

Lemma bus_run_body_quiet s st :
  quiet s = true ->
  run_body api s st = Some (if throws s then Thrown else Normal, st).
Proof.
  destruct s as [|[c|] rest]; simpl; [done| |done].
  intros H. discriminate H.
Qed.

(** Calling a listener whose function makes no call on the bus: the
    registry can only lose the [once] wrappers called on the way. *)
Lemma invoke_quiet cb data : ∀ st,
  ∃ st', invoke body api cb data st
         = Some (if throws (body (target cb) data) then Thrown else Normal, st') ∧
    trace st' = trace st ++ [Called (target cb) data] ∧
    (∀ ev, registered st' ev ⊆ registered st ev) ∧
    match cb with
    | OnceWrapper _ event _ => cb ∉ registered st' event
    | Fn _ => True
    end.
Proof.
  induction cb as [f|serial event inner IH]; intros st; simpl.
  - rewrite bus_run_body_quiet by done. eexists. split; [done|]. by split_and!.
  - destruct (IH (off event (OnceWrapper serial event inner) st))
      as (st' & -> & Ht & Hsub & _).
    eexists. split; [done|]. split; [done|].
    assert (Hoff : ∀ ev, registered (off event (OnceWrapper serial event inner) st) ev
                         ⊆ registered st ev).
    { intros ev x. rewrite registered_off. case_decide; [|done].
      rewrite list_elem_of_In, filter_In, <- list_elem_of_In. tauto. }
    split.
    + intros ev. etrans; [apply Hsub|apply Hoff].
    + intros Hin. apply Hsub in Hin. rewrite registered_off in Hin.
      rewrite decide_True in Hin by done.
      apply list_elem_of_In, filter_In in Hin as [_ Hne].
      by apply bool_decide_eq_true in Hne.
Qed.

Lemma emit_loop_quiet event data snapshot : ∀ st,
  ∃ st', emit_loop body api event snapshot data st = Some st' ∧
    trace st' = trace st ++ flat_map (emit_events body event data) snapshot ∧
    (∀ ev, registered st' ev ⊆ registered st ev) ∧
    (∀ serial inner, OnceWrapper serial event inner ∈ snapshot ->
       OnceWrapper serial event inner ∉ registered st' event).
Proof.
  induction snapshot as [|cb rest IH]; intros st; simpl.
  - eexists. split; [done|]. rewrite app_nil_r. split_and!; try done.
    intros ?? H. by apply elem_of_nil in H.
  - destruct (invoke_quiet cb data st) as (st1 & -> & Ht1 & Hsub1 & Hgone1). simpl.
    unfold emit_events at 1.
    set (st1' := if throws (body (target cb) data)
                 then log (ConsoleError event) st1 else st1).
    assert (Hreg : ∀ ev, registered st1' ev = registered st1 ev)
      by (intros ev; unfold st1'; by destruct (throws _)).
    assert (Htr : trace st1' = trace st ++ Called (target cb) data ::
                    (if throws (body (target cb) data)
                     then [ConsoleError event] else [])).
    { unfold st1'. destruct (throws _); simpl; rewrite Ht1;
        by rewrite <- ?app_assoc. }
    destruct (IH st1') as (st' & Hrun & Ht & Hsub & Hgone).
    exists st'. split.
    { unfold st1' in Hrun. by destruct (throws _). }
    split; [by rewrite Ht, Htr, <- app_assoc|]. split.
    + intros ev. etrans; [apply Hsub|]. rewrite Hreg. apply Hsub1.
    + intros serial inner Hin. apply elem_of_cons in Hin as [<-|Hin].
      * intros Hin'. apply Hgone1. rewrite <- Hreg. by apply Hsub.
      * by apply Hgone.
Qed.

End Quiet.

(** X12. Where no function registered makes a call on the bus, [once(event,
    cb)] followed by two emits of the event calls [cb] once, with the data
    of the first emit (for a [cb] not otherwise registered for the event). *)
Lemma once_fires_once_without_nested_emit body event f data1 data2 fuel st :
  (∀ g data, quiet (body g data) = true) ->
  (∀ cb, cb ∈ registered st event -> target cb ≠ f) ->
  ∃ st2 st3,
    emit body (S fuel) event data1 (once event (Fn f) st).2 = Some st2 ∧
    emit body (S fuel) event data2 st2 = Some st3 ∧
    calls_of f (trace st3) = calls_of f (trace st) ++ [data1].
Proof.
  intros Hquiet Hother.
  set (wrapper := OnceWrapper (next_serial st) event (Fn f)).
  set (st0 := {| listeners := listeners st; next_serial := S (next_serial st);
                 trace := trace st |}).
  assert (Hnew : wrapper ∉ registered st0 event).
  { intros Hin. by apply (Hother wrapper Hin). }
  assert (Hreg1 : registered (once event (Fn f) st).2 event
                  = registered st event ++ [wrapper]).
  { unfold once. cbn [snd]. fold wrapper st0.
    rewrite (registered_on st0 event wrapper event Hnew).
    by rewrite decide_True. }
  destruct (emit_loop_quiet body (exec body fuel) Hquiet event data1
              (registered st event ++ [wrapper]) (once event (Fn f) st).2)
    as (st2 & Hrun2 & Ht2 & Hsub2 & Hgone2).
  assert (Hother2 : ∀ cb, cb ∈ registered st2 event -> target cb ≠ f).
  { intros cb Hin. pose proof (Hsub2 _ _ Hin) as Hin1. rewrite Hreg1 in Hin1.
    apply elem_of_app in Hin1 as [Hin1|Hin1]; [by apply Hother|].
    apply list_elem_of_singleton in Hin1 as ->.
    exfalso. apply (Hgone2 (next_serial st) (Fn f)); [|done].
    apply elem_of_app. right. by left. }
  destruct (emit_loop_quiet body (exec body fuel) Hquiet event data2
              (registered st2 event) st2) as (st3 & Hrun3 & Ht3 & _ & _).
  exists st2, st3. split_and!.
  - unfold emit.
    change (exec body (S fuel) (CEmit event data1) (once event (Fn f) st).2)
      with (emit_with body (exec body fuel) event data1 (once event (Fn f) st).2).
    by rewrite emit_with_registered, Hreg1.
  - unfold emit.
    change (exec body (S fuel) (CEmit event data2) st2)
      with (emit_with body (exec body fuel) event data2 st2).
    by rewrite emit_with_registered.
  - rewrite Ht3, Ht2, !calls_of_app, flat_map_app, calls_of_app.
    rewrite (calls_of_other_listeners body event data1 f _ Hother),
      (calls_of_other_listeners body event data2 f _ Hother2).
    change (flat_map ?g [wrapper]) with (g wrapper ++ []).
    rewrite calls_of_app, calls_of_emit_events, decide_True by done.
    simpl. by rewrite ?app_nil_r.
Qed.

Lemma once_fires_once_without_nested_emit_witness :
  ∃ st2 st3,
    emit throwing_body 1 "x" (Some (JNum 1%Z))
      (once "x" (Fn 0) two_listeners).2 = Some st2 ∧
    emit throwing_body 1 "x" (Some (JNum 2%Z)) st2 = Some st3 ∧
    calls_of 0 (trace st3) = calls_of 0 (trace two_listeners) ++ [Some (JNum 1%Z)].
Proof.
  apply (once_fires_once_without_nested_emit throwing_body "x" 0
           (Some (JNum 1%Z)) (Some (JNum 2%Z)) 0 two_listeners).
  - intros g data. reflexivity.
  - intros cb Hcb. vm_compute in Hcb.
    apply elem_of_cons in Hcb as [->|Hcb]; [discriminate|].
    apply list_elem_of_singleton in Hcb as ->. discriminate.
Defined.

End OnceProperties.

(** * Further properties of the code *)

(** ** Calendar arithmetic *)

Section CalendarArithmetic.
Import Calendar.
Local Open Scope Z_scope.

(** What a constructed service holds, in terms of its configuration. *)
Lemma createCalendarService_fields config svc :
  createCalendarService config = Service svc ->
  svc_daysPerSeason svc = daysPerSeason config ∧
  svc_seasons svc = seasons config ∧
  svc_startDayOfWeek svc = default 0 (startDayOfWeek config) ∧
  svc_daysPerYear svc = daysPerSeason config * Z.of_nat (length (seasons config)) ∧
  0 < daysPerSeason config ∧
  0 < Z.of_nat (length (seasons config)).
Proof.
  unfold createCalendarService.
  destruct (Nat.eqb_spec (length (seasons config)) 0) as [|Hlen]; [discriminate|].
  destruct (Z.leb_spec (daysPerSeason config) 0) as [|Hpos]; [discriminate|].
  intros [= <-]. simpl. split_and!; try done; lia.
Qed.

Lemma normalizeDay_positive day : 1 <= day -> normalizeDay day = day.
Proof. unfold normalizeDay. lia. Qed.

Lemma normalizeDay_ge_1 day : 1 <= normalizeDay day.
Proof. unfold normalizeDay. lia. Qed.

(** The index of the season within the year, as a quotient and remainder
    of the day's index. *)
Lemma getSeasonIndex_range config svc day :
  createCalendarService config = Service svc ->
  0 <= getSeasonIndex svc day < Z.of_nat (length (seasons config)).
Proof.
  intros Hc. destruct (createCalendarService_fields _ _ Hc) as (Hd & _ & _ & Hy & Hpos & Hn).
  unfold getSeasonIndex. rewrite Hy, Hd.
  pose proof (normalizeDay_ge_1 day) as Hday.
  set (d := daysPerSeason config) in *. set (n := Z.of_nat _) in *.
  rewrite Z.rem_mod_nonneg by nia.
  pose proof (Z.mod_pos_bound (normalizeDay day - 1) (d * n) ltac:(nia)) as Hm.
  split.
  - apply Z.div_pos; lia.
  - apply Z.div_lt_upper_bound; lia.
Qed.



Lemma calendar_coordinates config svc day :
  createCalendarService config = Service svc ->
  1 <= day ->
  1 <= getYear svc day ∧
  0 <= getSeasonIndex svc day < Z.of_nat (length (seasons config)) ∧
  1 <= getDayInSeason svc day <= daysPerSeason config ∧
  day = (getYear svc day - 1)
        * (daysPerSeason config * Z.of_nat (length (seasons config)))
        + getSeasonIndex svc day * daysPerSeason config
        + getDayInSeason svc day.
Proof.
  intros Hc Hday.
  pose proof (getSeasonIndex_range config svc day Hc) as Hr.
  destruct (createCalendarService_fields _ _ Hc) as (Hd & _ & _ & Hy & Hpos & Hn).
  unfold getYear, getDayInSeason, getSeasonIndex in *.
  rewrite Hy, Hd in *. rewrite normalizeDay_positive in * by done.
  set (d := daysPerSeason config) in *. set (n := Z.of_nat _) in *.
  set (i := day - 1) in *.
  assert (Hi : 0 <= i) by (unfold i; lia).
  rewrite !Z.rem_mod_nonneg in * by nia.
  pose proof (Z.mod_pos_bound i (d * n) ltac:(nia)) as Hm.
  pose proof (Z.mod_pos_bound i d ltac:(lia)) as Hmd.
  pose proof (Z.div_pos i (d * n) Hi ltac:(nia)) as Hq.
  split_and!; try lia.
  pose proof (Z.div_mod i (d * n) ltac:(nia)) as E1.
  pose proof (Z.div_mod (i mod (d * n)) d ltac:(lia)) as E2.
  assert (E3 : (i mod (d * n)) mod d = i mod d).
  { apply Z.mod_mod_divide. exists n. lia. }
  rewrite E3 in E2. unfold i in *. nia.
Qed.



Lemma getDayInSeason_range config svc day :
  createCalendarService config = Service svc ->
  1 <= getDayInSeason svc day <= daysPerSeason config.
Proof.
  intros Hc. destruct (createCalendarService_fields _ _ Hc) as (Hd & _ & _ & _ & Hpos & _).
  unfold getDayInSeason. rewrite Hd.
  pose proof (normalizeDay_ge_1 day) as Hday.
  rewrite Z.rem_mod_nonneg by lia.
  pose proof (Z.mod_pos_bound (normalizeDay day - 1) (daysPerSeason config) Hpos). lia.
Qed.

(** A day has one year, season and day of the season. *)
Lemma calendar_coordinates_unique d n y s k y' s' k' :
  0 < d -> 0 < n ->
  0 <= s < n -> 1 <= k <= d -> 0 <= s' < n -> 1 <= k' <= d ->
  (y - 1) * (d * n) + s * d + k = (y' - 1) * (d * n) + s' * d + k' ->
  y = y' ∧ s = s' ∧ k = k'.
Proof.
  intros Hd Hn Hs Hk Hs' Hk' E.
  destruct (Z.div_mod_unique d ((y - 1) * n + s) ((y' - 1) * n + s') (k - 1) (k' - 1))
    as [E1 E2]; [lia|lia|lia|].
  destruct (Z.div_mod_unique n (y - 1) (y' - 1) s s') as [E3 E4]; [lia|lia|lia|].
  lia.
Qed.







End CalendarArithmetic.

(** ** Modal queue: the other operations *)

Section ModalQueueOperations.
Import Json ModalQueue.

Lemma close_all_quiet env api items : ∀ st,
  quiet_bodies env ->
  close_all env api items st
  = Some (log_all (flat_map (fun item => onClose_events env item None) items) st).
Proof.
  induction items as [|item rest IH]; intros st Hq; simpl.
  - by rewrite log_all_nil.
  - rewrite safeOnClose_quiet by done. simpl. rewrite IH by done.
    by rewrite log_all_app.
Qed.

Lemma clear_quiet env fuel st :
  quiet_bodies env ->
  length (subscribers st) + 2 ≤ fuel ->
  clear env fuel st
  = Some (log_all (flat_map (fun item => onClose_events env item None) (queue st)
                   ++ notify_events env [] (subscribers st))
                  (with_queue [] st)).
Proof.
  intros Hq Hfuel. destruct fuel as [|fuel]; [lia|].
  unfold clear. simpl. rewrite close_all_quiet by done. simpl.
  rewrite notify_quiet by (done || (simpl; lia)). simpl.
  by rewrite log_all_app.
Qed.

Lemma subscribe_quiet env fuel callback st :
  quiet_bodies env ->
  1 ≤ fuel ->
  subscribe env fuel callback st
  = Some (log_all (subscriber_events env (queue st) callback)
            (with_subscribers (JsSet.add callback (subscribers st)) st)).
Proof.
  intros Hq Hfuel. destruct fuel as [|fuel]; [lia|].
  unfold subscribe. simpl. by rewrite call_subscriber_quiet.
Qed.

Lemma onClose_calls_close_events env items result :
  onClose_calls (flat_map (fun item => onClose_events env item result) items)
  = closings items result.
Proof.
  unfold closings. induction items as [|item rest IH]; [done|].
  change (flat_map ?f (item :: rest)) with (f item ++ flat_map f rest).
  rewrite onClose_calls_app, onClose_calls_onClose_events, IH. simpl.
  by destruct (onClose item).
Qed.

Lemma subscriber_calls_close_events env items result :
  subscriber_calls (flat_map (fun item => onClose_events env item result) items) = [].
Proof.
  induction items as [|item rest IH]; [done|].
  change (flat_map ?f (item :: rest)) with (f item ++ flat_map f rest).
  by rewrite subscriber_calls_app, subscriber_calls_onClose_events, IH.
Qed.

(** X6. For a queue whose registered functions do not call back into it
    (they return or throw): [clear] empties the queue, then calls the
    [onClose] of every item that has one, in queue order and with
    [undefined], an exception of one not keeping the next from being
    called; and then calls each subscriber once, with the empty queue. *)
Theorem modal_clear_closes_every_item env st fuel :
  quiet_bodies env ->
  length (subscribers st) + 2 ≤ fuel ->
  ∃ st', clear env fuel st = Some st' ∧
    getQueue st' = [] ∧
    getCurrent st' = None ∧
    isEmpty st' = true ∧
    subscribers st' = subscribers st ∧
    trace st' = trace st
      ++ flat_map (fun item => onClose_events env item None) (queue st)
      ++ notify_events env [] (subscribers st) ∧
    onClose_calls (trace st') = onClose_calls (trace st) ++ closings (queue st) None ∧
    subscriber_calls (trace st')
    = subscriber_calls (trace st)
      ++ ((fun callback => (callback, [])) <$> JsSet.values (subscribers st)).
Proof.
  intros Hq Hfuel. eexists. split; [by apply clear_quiet|].
  simpl. split_and!; try done.
  - by rewrite !onClose_calls_app, onClose_calls_close_events,
      onClose_calls_notify_events, app_nil_r.
  - by rewrite !subscriber_calls_app, subscriber_calls_close_events,
      subscriber_calls_notify_events.
Qed.


Lemma modal_clear_closes_every_item_witness :
  ∃ st', clear throwing_bodies 4 busy_queue = Some st' ∧
    getQueue st' = [] ∧
    onClose_calls (trace st') = [(7, None); (8, None)] ∧
    subscriber_calls (trace st') = [(0, []); (1, [])].
Proof.
  destruct (modal_clear_closes_every_item throwing_bodies busy_queue 4)
    as (st' & Hrun & Hqueue & _ & _ & _ & _ & Hclose & Hsubs).
  - split; intros; reflexivity.
  - simpl. lia.
  - exists st'. split_and!; [exact Hrun|exact Hqueue|exact Hclose|exact Hsubs].
Defined.

Lemma console_errors_app t1 t2 :
  console_errors (t1 ++ t2) = console_errors t1 ++ console_errors t2.
Proof. apply omap_app. Qed.

Lemma onClose_calls_log_all es st :
  onClose_calls (trace (log_all es st)) = onClose_calls (trace st) ++ onClose_calls es.
Proof. apply onClose_calls_app. Qed.

Lemma console_errors_notify_events env snapshot subs :
  console_errors (notify_events env snapshot subs)
  = (fun _ => ("ModalQueue subscriber error:", ""))
      <$> List.filter (fun callback => throws (subscriberBody env callback snapshot))
            (JsSet.values subs).
Proof.
  unfold notify_events. induction (JsSet.values subs) as [|callback l IH]; [done|].
  change (flat_map ?f (callback :: l)) with (f callback ++ flat_map f l).
  rewrite console_errors_app, IH. unfold subscriber_events. simpl.
  by destruct (throws _).
Qed.

(** X7. For a queue whose registered functions do not call back into it:
    [push] puts the item last, so that the current item stays what it was
    unless the queue was empty; it calls no [onClose]; it calls every
    subscriber once with the new queue, and a subscriber that throws is
    logged and does not keep the later ones from being called. *)
Theorem modal_push_reaches_every_subscriber env st item fuel :
  quiet_bodies env ->
  length (subscribers st) + 2 ≤ fuel ->
  let snapshot := queue st ++ [item] in
  ∃ st', push env fuel item st = Some st' ∧
    getQueue st' = snapshot ∧
    getCurrent st' = Some (default item (getCurrent st)) ∧
    subscribers st' = subscribers st ∧
    onClose_calls (trace st') = onClose_calls (trace st) ∧
    subscriber_calls (trace st')
    = subscriber_calls (trace st)
      ++ ((fun callback => (callback, snapshot)) <$> JsSet.values (subscribers st)) ∧
    console_errors (trace st')
    = console_errors (trace st)
      ++ ((fun _ => ("ModalQueue subscriber error:", ""))
            <$> List.filter (fun callback => throws (subscriberBody env callback snapshot))
                  (JsSet.values (subscribers st))).
Proof.
  intros Hq Hfuel. cbv zeta. eexists. split; [by apply push_quiet|].
  simpl. split_and!; try done.
  - unfold getCurrent. simpl. by destruct (queue st).
  - by rewrite onClose_calls_app, onClose_calls_notify_events, app_nil_r.
  - by rewrite subscriber_calls_app, subscriber_calls_notify_events.
  - by rewrite console_errors_app, console_errors_notify_events.
Qed.

Lemma modal_push_reaches_every_subscriber_witness :
  ∃ st', push throwing_bodies 4 (mock "D" None) busy_queue = Some st' ∧
    getCurrent st' = Some (mock "A" (Some 7)) ∧
    subscriber_calls (trace st')
    = [(0, queue busy_queue ++ [mock "D" None]);
       (1, queue busy_queue ++ [mock "D" None])] ∧
    console_errors (trace st')
    = [("ModalQueue subscriber error:", ""); ("ModalQueue subscriber error:", "")].
Proof.
  destruct (modal_push_reaches_every_subscriber throwing_bodies busy_queue
              (mock "D" None) 4)
    as (st' & Hrun & _ & Hcurrent & _ & _ & Hsubs & Herrors).
  - split; intros; reflexivity.
  - simpl. lia.
  - exists st'. split_and!; [exact Hrun|exact Hcurrent|exact Hsubs|exact Herrors].
Defined.

Lemma values_add {A} `{EqDecision A} (x : A) (s : JsSet.jsset A) :
  JsSet.values (JsSet.add x s)
  = if decide (x ∈ JsSet.values s) then JsSet.values s else JsSet.values s ++ [x].
Proof.
  unfold JsSet.add, JsSet.has.
  destruct (decide (x ∈ JsSet.values s)) as [Hin|Hin].
  - by rewrite bool_decide_eq_true_2 by (by apply elem_of_values).
  - rewrite bool_decide_eq_false_2 by (by rewrite <- elem_of_values).
    by rewrite values_app.
Qed.

Lemma filter_ne_absent {A} `{EqDecision A} (x : A) (l : list A) :
  x ∉ l -> List.filter (fun y => bool_decide (y ≠ x)) l = l.
Proof.
  induction l as [|y l IH]; intros H; [done|].
  apply not_elem_of_cons in H as [Hne H]. simpl.
  rewrite bool_decide_eq_true_2 by done. by rewrite IH.
Qed.

Lemma values_delete_add {A} `{EqDecision A} (x : A) (s : JsSet.jsset A) :
  JsSet.values (JsSet.delete x (JsSet.add x s))
  = List.filter (fun y => bool_decide (y ≠ x)) (JsSet.values s).
Proof.
  rewrite values_delete, values_add. case_decide; [done|].
  rewrite List.filter_app. simpl. rewrite bool_decide_eq_false_2 by tauto.
  by rewrite app_nil_r.
Qed.

(** X8. For a queue whose registered functions do not call back into it:
    [subscribe] calls the callback at once with the current queue, also
    when it throws, and registers it once however often it is subscribed;
    the handle returned removes it, calls nobody and leaves the other
    subscribers in their order. *)
Theorem modal_subscribe_then_unsubscribe env st callback fuel :
  quiet_bodies env ->
  1 ≤ fuel ->
  ∃ st1 st2,
    subscribe env fuel callback st = Some st1 ∧
    unsubscribe env fuel callback st1 = Some st2 ∧
    queue st1 = queue st ∧
    subscriber_calls (trace st1)
    = subscriber_calls (trace st) ++ [(callback, queue st)] ∧
    JsSet.values (subscribers st1)
    = (if decide (callback ∈ JsSet.values (subscribers st))
       then JsSet.values (subscribers st)
       else JsSet.values (subscribers st) ++ [callback]) ∧
    queue st2 = queue st ∧
    trace st2 = trace st1 ∧
    JsSet.values (subscribers st2)
    = List.filter (fun y => bool_decide (y ≠ callback)) (JsSet.values (subscribers st)) ∧
    callback ∉ JsSet.values (subscribers st2).
Proof.
  intros Hq Hfuel. eexists. eexists.
  split; [by apply subscribe_quiet|].
  split; [destruct fuel; [lia|reflexivity]|].
  simpl. split_and!; try done.
  - by rewrite subscriber_calls_app, subscriber_calls_subscriber_events.
  - apply values_add.
  - apply values_delete_add.
  - rewrite values_delete_add, list_elem_of_In, filter_In.
    intros [_ H]. by apply bool_decide_eq_true in H.
Qed.

Lemma modal_subscribe_then_unsubscribe_witness :
  ∃ st1 st2,
    subscribe throwing_bodies 1 1 busy_queue = Some st1 ∧
    unsubscribe throwing_bodies 1 1 st1 = Some st2 ∧
    subscriber_calls (trace st1) = [(1, queue busy_queue)] ∧
    JsSet.values (subscribers st1) = [0; 1] ∧
    JsSet.values (subscribers st2) = [0].
Proof.
  destruct (modal_subscribe_then_unsubscribe throwing_bodies busy_queue 1 1)
    as (st1 & st2 & Hrun1 & Hrun2 & _ & Hcalls & Hsubs1 & _ & _ & Hsubs2 & _).
  - split; intros; reflexivity.
  - lia.
  - exists st1, st2.
    split_and!; [exact Hrun1|exact Hrun2|exact Hcalls|exact Hsubs1|exact Hsubs2].
Defined.

Lemma push_all_quiet env fuel items : ∀ st,
  quiet_bodies env ->
  length (subscribers st) + 2 ≤ fuel ->
  ∃ st', push_all env fuel items st = Some st' ∧
    queue st' = queue st ++ items ∧
    subscribers st' = subscribers st ∧
    onClose_calls (trace st') = onClose_calls (trace st).
Proof.
  induction items as [|item rest IH]; intros st Hq Hfuel; simpl.
  - eexists. by rewrite app_nil_r.
  - rewrite push_quiet by done. simpl.
    destruct (IH (log_all (notify_events env (queue st ++ [item]) (subscribers st))
                    (with_queue (queue st ++ [item]) st)) Hq Hfuel)
      as (st' & -> & Hqueue & Hsubs & Hcalls).
    eexists. split; [done|]. simpl in *. split_and!; try done.
    + by rewrite Hqueue, <- app_assoc.
    + by rewrite Hcalls, onClose_calls_app, onClose_calls_notify_events, app_nil_r.
Qed.

Lemma pop_times_quiet env fuel result n : ∀ st,
  quiet_bodies env ->
  length (subscribers st) + 2 ≤ fuel ->
  ∃ st', pop_times env fuel n result st = Some st' ∧
    queue st' = drop n (queue st) ∧
    subscribers st' = subscribers st ∧
    onClose_calls (trace st')
    = onClose_calls (trace st) ++ closings (take n (queue st)) result.
Proof.
  induction n as [|n IH]; intros st Hq Hfuel; simpl.
  - eexists. split; [done|]. unfold closings. simpl. by rewrite app_nil_r.
  - rewrite pop_quiet by done. simpl.
    destruct (queue st) as [|item rest] eqn:Hqueue.
    + destruct (IH (log_all (notify_events env [] (subscribers st)) st) Hq Hfuel)
        as (st' & -> & Hqueue' & Hsubs & Hcalls).
      eexists. split; [done|]. simpl in *. rewrite Hqueue in *.
      split_and!; try done.
      * by rewrite Hqueue', drop_nil.
      * rewrite Hcalls, take_nil, onClose_calls_app, onClose_calls_notify_events.
        unfold closings. simpl. by rewrite !app_nil_r.
    + destruct (IH (log_all (onClose_events env item result
                             ++ notify_events env rest (subscribers st))
                      (with_queue rest st)) Hq Hfuel)
        as (st' & -> & Hqueue' & Hsubs & Hcalls).
      eexists. split; [done|]. simpl in *.
      split_and!; try done.
      rewrite Hcalls, !onClose_calls_app, onClose_calls_notify_events,
        onClose_calls_onClose_events, app_nil_r.
      unfold closings. simpl. rewrite <- app_assoc. f_equal.
      by destruct (onClose item).
Qed.

(** X9. For a queue whose registered functions do not call back into it:
    after pushing [items] and then popping [n] times with [result], the
    queue is what was there and what was pushed, in that order, without
    its first [n] items; the [onClose] functions called are those of
    these [n] items, in that order, each with [result]; and once as many
    items are popped as there were, the queue is empty. *)
Theorem modal_queue_closes_in_push_order env st items n result fuel :
  quiet_bodies env ->
  length (subscribers st) + 2 ≤ fuel ->
  ∃ st', (st1 ← push_all env fuel items st; pop_times env fuel n result st1) = Some st' ∧
    getQueue st' = drop n (queue st ++ items) ∧
    getCurrent st' = (queue st ++ items) !! n ∧
    onClose_calls (trace st')
    = onClose_calls (trace st) ++ closings (take n (queue st ++ items)) result ∧
    (length (queue st ++ items) ≤ n -> isEmpty st' = true).
Proof.
  intros Hq Hfuel.
  destruct (push_all_quiet env fuel items st Hq Hfuel) as (st1 & -> & Hq1 & Hs1 & Hc1).
  simpl.
  destruct (pop_times_quiet env fuel result n st1 Hq ltac:(by rewrite Hs1))
    as (st' & -> & Hq2 & Hs2 & Hc2).
  eexists. split; [done|]. unfold getQueue, getCurrent, isEmpty.
  rewrite Hq2, Hc2, Hc1, Hq1. split_and!; try done.
  - by rewrite head_lookup, lookup_drop, Nat.add_0_r.
  - intros Hlen. rewrite drop_ge by done. done.
Qed.

Lemma modal_queue_closes_in_push_order_witness :
  ∃ st', (st1 ← push_all throwing_bodies 4 [mock "D" (Some 9)] busy_queue;
          pop_times throwing_bodies 4 3 (Some (JStr "ok")) st1) = Some st' ∧
    getQueue st' = [mock "D" (Some 9)] ∧
    getCurrent st' = Some (mock "D" (Some 9)) ∧
    onClose_calls (trace st') = [(7, Some (JStr "ok")); (8, Some (JStr "ok"))].
Proof.
  destruct (modal_queue_closes_in_push_order throwing_bodies busy_queue
              [mock "D" (Some 9)] 3 (Some (JStr "ok")) 4)
    as (st' & Hrun & Hqueue & Hcurrent & Hclose & _).
  - split; intros; reflexivity.
  - simpl. lia.
  - exists st'. split_and!; [exact Hrun|exact Hqueue|exact Hcurrent|exact Hclose].
Defined.

End ModalQueueOperations.

(** ** Event bus: registry and emit *)

Section BusRegistry.
Import Json EventBus.
Local Arguments on : simpl never.
Local Arguments off : simpl never.
Local Arguments once : simpl never.

Lemma calls_app t1 t2 : calls (t1 ++ t2) = calls t1 ++ calls t2.
Proof. apply omap_app. Qed.

Lemma errors_app t1 t2 : errors (t1 ++ t2) = errors t1 ++ errors t2.
Proof. apply omap_app. Qed.

Lemma calls_emit_events body name data l :
  calls (flat_map (emit_events body name data) l) = (fun cb => (target cb, data)) <$> l.
Proof.
  induction l as [|cb l IH]; [done|].
  change (flat_map ?g (cb :: l)) with (g cb ++ flat_map g l).
  rewrite calls_app, IH. unfold emit_events. simpl. by destruct (throws _).
Qed.

Lemma errors_emit_events body name data l :
  errors (flat_map (emit_events body name data) l)
  = (fun _ => name) <$> List.filter (fun cb => throws (body (target cb) data)) l.
Proof.
  induction l as [|cb l IH]; [done|].
  change (flat_map ?g (cb :: l)) with (g cb ++ flat_map g l).
  rewrite errors_app, IH. unfold emit_events. simpl. by destruct (throws _).
Qed.

Lemma registered_on_any st event cb ev :
  registered (on event cb st) ev
  = if decide (ev = event)
    then (if decide (cb ∈ registered st event) then registered st event
          else registered st event ++ [cb])
    else registered st ev.
Proof.
  destruct (decide (cb ∈ registered st event)) as [Hin|Hnew].
  - unfold registered, on in *. simpl.
    destruct (decide (ev = event)) as [->|Hne].
    + destruct (decide (is_Some (listeners st !! event))) as [[s Hs]|Hnone].
      * rewrite lookup_alter_eq, Hs in *. simpl in *.
        unfold JsSet.add, JsSet.has.
        by rewrite bool_decide_eq_true_2 by (by apply elem_of_values).
      * apply eq_None_not_Some in Hnone. rewrite Hnone in Hin.
        by apply elem_of_nil in Hin.
    + destruct (decide (is_Some (listeners st !! event))).
      * by rewrite lookup_alter_ne.
      * by rewrite lookup_alter_ne, lookup_insert_ne.
  - rewrite registered_on by done. by destruct (decide (ev = event)) as [->|].
Qed.

Lemma registered_once st event cb ev :
  (once event cb st).1 ∉ registered st event ->
  registered (once event cb st).2 ev
  = if decide (ev = event) then registered st ev ++ [(once event cb st).1]
    else registered st ev.
Proof.
  intros Hnew. unfold once in *. cbn [fst snd] in *.
  by rewrite registered_on.
Qed.

Lemma bool_filter_filter {A} (f g : A -> bool) (l : list A) :
  List.filter f (List.filter g l) = List.filter (fun x => g x && f x) l.
Proof.
  induction l as [|x l IH]; [done|]. simpl.
  destruct (g x); simpl; [|done]. destruct (f x); by rewrite IH.
Qed.

Lemma without_nil name l : without [] name l = l.
Proof.
  unfold without. rewrite <- (filter_true l) at 2. apply filter_ext.
  intros cb. apply bool_decide_eq_true_2, not_elem_of_nil.
Qed.

Lemma without_app gone1 gone2 name l :
  without gone2 name (without gone1 name l) = without (gone1 ++ gone2) name l.
Proof.
  unfold without. rewrite bool_filter_filter. apply filter_ext. intros cb.
  apply eq_true_iff_eq. rewrite andb_true_iff, !bool_decide_eq_true, not_elem_of_app.
  done.
Qed.

Lemma registered_off_without st event cb ev :
  registered (off event cb st) ev = without [(event, cb)] ev (registered st ev).
Proof.
  rewrite registered_off. unfold without. destruct (decide (ev = event)) as [->|Hne].
  - apply filter_ext. intros x. apply eq_true_iff_eq.
    rewrite !bool_decide_eq_true, list_elem_of_singleton. split; [congruence|].
    intros H ->. by apply H.
  - rewrite <- (filter_true (registered st ev)) at 1. apply filter_ext. intros x.
    symmetry. apply bool_decide_eq_true_2. rewrite list_elem_of_singleton. congruence.
Qed.

Section QuietRegistry.
Variable body : nat -> option json -> script.
Variable api : call -> state -> option state.
Hypothesis Hquiet : ∀ f data, quiet (body f data) = true.

(** Calling a listener whose function makes no call on the bus removes
    from the registry the [once] wrappers called, and nothing else. *)
Lemma invoke_quiet_registered cb data : ∀ st,
  ∃ st', invoke body api cb data st
         = Some (if throws (body (target cb) data) then Thrown else Normal, st') ∧
    trace st' = trace st ++ [Called (target cb) data] ∧
    ∀ ev, registered st' ev = without (spent cb) ev (registered st ev).
Proof.
  induction cb as [f|serial event inner IH]; intros st; simpl.
  - rewrite bus_run_body_quiet by done. eexists. split; [done|]. split; [done|].
    intros ev. by rewrite without_nil.
  - destruct (IH (off event (OnceWrapper serial event inner) st))
      as (st' & -> & Ht & Hreg).
    eexists. split; [done|]. split; [done|]. intros ev.
    rewrite Hreg, registered_off_without. apply without_app.
Qed.

Lemma emit_loop_quiet_registered event data snapshot : ∀ st,
  ∃ st', emit_loop body api event snapshot data st = Some st' ∧
    trace st' = trace st ++ flat_map (emit_events body event data) snapshot ∧
    ∀ ev, registered st' ev = without (flat_map spent snapshot) ev (registered st ev).
Proof.
  induction snapshot as [|cb rest IH]; intros st; simpl.
  - eexists. split; [done|]. rewrite app_nil_r. split; [done|].
    intros ev. by rewrite without_nil.
  - destruct (invoke_quiet_registered cb data st) as (st1 & -> & Ht1 & Hreg1). simpl.
    unfold emit_events at 1.
    set (st1' := if throws (body (target cb) data)
                 then log (ConsoleError event) st1 else st1).
    assert (Hreg : ∀ ev, registered st1' ev = registered st1 ev)
      by (intros ev; unfold st1'; by destruct (throws _)).
    assert (Htr : trace st1' = trace st ++ Called (target cb) data ::
                    (if throws (body (target cb) data)
                     then [ConsoleError event] else [])).
    { unfold st1'. destruct (throws _); simpl; rewrite Ht1;
        by rewrite <- ?app_assoc. }
    destruct (IH st1') as (st' & Hrun & Ht & Hreg').
    exists st'. split.
    { unfold st1' in Hrun. by destruct (throws _). }
    split; [by rewrite Ht, Htr, <- app_assoc|].
    intros ev. rewrite Hreg', Hreg, Hreg1. apply without_app.
Qed.

End QuietRegistry.

Lemma emit_quiet body fuel event data st :
  (∀ f d, quiet (body f d) = true) ->
  ∃ st', emit body (S fuel) event data st = Some st' ∧
    trace st' = trace st ++ flat_map (emit_events body event data) (registered st event) ∧
    ∀ ev, registered st' ev
          = without (flat_map spent (registered st event)) ev (registered st ev).
Proof.
  intros Hquiet. unfold emit.
  change (exec body (S fuel) (CEmit event data) st)
    with (emit_with body (exec body fuel) event data st).
  rewrite emit_with_registered.
  by apply emit_loop_quiet_registered.
Qed.

Lemma elem_of_without gone name l cb :
  cb ∈ without gone name l ↔ cb ∈ l ∧ (name, cb) ∉ gone.
Proof.
  unfold without. by rewrite list_elem_of_In, filter_In, <- list_elem_of_In,
    bool_decide_eq_true.
Qed.

Lemma spent_wrappers name g l : (name, Fn g) ∉ flat_map spent l.
Proof.
  assert (H : ∀ cb, (name, Fn g) ∉ spent cb).
  { induction cb as [|serial event inner IH]; simpl; [apply not_elem_of_nil|].
    apply not_elem_of_cons. split; [congruence|done]. }
  induction l as [|cb l IH]; simpl; [apply not_elem_of_nil|].
  apply not_elem_of_app. split; [apply H|done].
Qed.

Lemma calls_of_without body event data f gone name l :
  (∀ cb, cb ∈ l -> target cb ≠ f) ->
  calls_of f (flat_map (emit_events body event data) (without gone name l)) = [].
Proof.
  intros Hl. apply calls_of_other_listeners. intros cb Hin.
  apply elem_of_without in Hin as [Hin _]. by apply Hl.
Qed.

(** X10. On a bus whose registered functions make no call on it (they
    return or throw): [emit] calls the listeners registered for the event,
    and those only, once each in registration order and with the data; a
    listener that throws is logged under the event name and the later ones
    are still called; afterwards the bus has the listeners it had, less
    the [once] wrappers that were called, so that a listener registered
    with [on] stays; and with no listener for the event nothing changes. *)
Theorem emit_reaches_every_listener body event data fuel st :
  (∀ f d, quiet (body f d) = true) ->
  ∃ st', emit body (S fuel) event data st = Some st' ∧
    calls (trace st')
    = calls (trace st) ++ ((fun cb => (target cb, data)) <$> registered st event) ∧
    errors (trace st')
    = errors (trace st)
      ++ ((fun _ => event)
            <$> List.filter (fun cb => throws (body (target cb) data))
                  (registered st event)) ∧
    (∀ ev, registered st' ev
           = without (flat_map spent (registered st event)) ev (registered st ev)) ∧
    (∀ ev g, Fn g ∈ registered st ev -> Fn g ∈ registered st' ev) ∧
    (registered st event = [] -> st' = st).
Proof.
  intros Hquiet.
  destruct (emit_quiet body fuel event data st Hquiet) as (st' & Hrun & Ht & Hleft).
  exists st'. split; [done|]. split_and!.
  - by rewrite Ht, calls_app, calls_emit_events.
  - by rewrite Ht, errors_app, errors_emit_events.
  - exact Hleft.
  - intros ev g Hin. rewrite Hleft. apply elem_of_without. split; [done|].
    apply spent_wrappers.
  - intros Hnone. unfold emit in Hrun.
    change (exec body (S fuel) (CEmit event data) st)
      with (emit_with body (exec body fuel) event data st) in Hrun.
    rewrite emit_with_registered, Hnone in Hrun. simpl in Hrun. congruence.
Qed.

Lemma emit_reaches_every_listener_witness :
  ∃ st', emit throwing_body 1 "x" None two_listeners = Some st' ∧
    calls (trace st') = [(1, None); (2, None)] ∧
    errors (trace st') = ["x"; "x"].
Proof.
  destruct (emit_reaches_every_listener throwing_body "x" None 0 two_listeners)
    as (st' & Hrun & Hcalls & Herrors & _).
  - intros f d. reflexivity.
  - exists st'. split; [exact Hrun|]. split.
    + rewrite Hcalls. vm_compute. reflexivity.
    + rewrite Herrors. vm_compute. reflexivity.
Defined.

(** X11. The listeners of an event are a set in insertion order: [on]
    adds a callback last, or not at all when it is registered already;
    [off] removes it wherever it is, and is without effect for a callback
    or an event that is not registered; neither touches the listeners of
    another event. *)
Theorem bus_registration_is_a_set st event cb :
  registered (on event cb st) event
  = (if decide (cb ∈ registered st event) then registered st event
     else registered st event ++ [cb]) ∧
  registered (on event cb (on event cb st)) event = registered (on event cb st) event ∧
  registered (off event cb (on event cb st)) event
  = List.filter (fun y => bool_decide (y ≠ cb)) (registered st event) ∧
  (cb ∉ registered (off event cb st) event) ∧
  (cb ∉ registered st event -> registered (off event cb st) event = registered st event) ∧
  (∀ ev, ev ≠ event ->
     registered (on event cb st) ev = registered st ev ∧
     registered (off event cb st) ev = registered st ev).
Proof.
  assert (E1 : registered (on event cb st) event
               = if decide (cb ∈ registered st event) then registered st event
                 else registered st event ++ [cb])
    by (by rewrite registered_on_any, decide_True).
  split_and!.
  - exact E1.
  - rewrite (registered_on_any (on event cb st)), decide_True by done.
    rewrite E1. destruct (decide (cb ∈ registered st event)) as [Hin|Hnew].
    + by rewrite decide_True.
    + rewrite decide_True; [done|]. apply elem_of_app. right. by left.
  - rewrite registered_off, decide_True by done. rewrite E1.
    case_decide; [done|]. rewrite List.filter_app. simpl.
    rewrite bool_decide_eq_false_2 by tauto. by rewrite app_nil_r.
  - rewrite registered_off, decide_True by done.
    rewrite list_elem_of_In, filter_In. intros [_ H].
    by apply bool_decide_eq_true in H.
  - intros Hnew. rewrite registered_off, decide_True by done.
    by apply filter_ne_absent.
  - intros ev Hne. by rewrite registered_on_any, registered_off, !decide_False.
Qed.


(** X13. On a bus whose registered functions make no call on it, and for
    a function [f] not otherwise registered for the event: two calls of
    [once(event, f)] register two wrappers, so that the next emit calls
    [f] twice and the emit after it not at all; two calls of
    [on(event, f)] register [f] once, so that every emit calls it once. *)
Theorem once_twice_is_two_registrations body event f data1 data2 fuel st :
  (∀ g data, quiet (body g data) = true) ->
  (∀ cb, cb ∈ registered st event -> target cb ≠ f) ->
  (∃ st1 st2,
     emit body (S fuel) event data1
       (once event (Fn f) (once event (Fn f) st).2).2 = Some st1 ∧
     emit body (S fuel) event data2 st1 = Some st2 ∧
     calls_of f (trace st1) = calls_of f (trace st) ++ [data1; data1] ∧
     calls_of f (trace st2) = calls_of f (trace st1)) ∧
  (∃ st1 st2,
     emit body (S fuel) event data1 (on event (Fn f) (on event (Fn f) st)) = Some st1 ∧
     emit body (S fuel) event data2 st1 = Some st2 ∧
     calls_of f (trace st1) = calls_of f (trace st) ++ [data1] ∧
     calls_of f (trace st2) = calls_of f (trace st) ++ [data1; data2]).
Proof.
  intros Hquiet Hother. split.
  - set (w0 := (once event (Fn f) st).1).
    set (s1 := (once event (Fn f) st).2).
    set (w1 := (once event (Fn f) s1).1).
    assert (Hw0 : w0 ∉ registered st event) by (intros Hin; by apply (Hother w0 Hin)).
    assert (Hreg1 : registered s1 event = registered st event ++ [w0]).
    { unfold s1. rewrite registered_once by done. by rewrite decide_True. }
    assert (Hw1 : w1 ∉ registered s1 event).
    { rewrite Hreg1. intros Hin. apply elem_of_app in Hin as [Hin|Hin].
      - by apply (Hother w1 Hin).
      - apply list_elem_of_singleton in Hin. unfold w1, w0, s1, once in Hin.
        cbn in Hin. injection Hin as Hin. lia. }
    assert (Hreg2 : registered (once event (Fn f) s1).2 event
                    = registered st event ++ [w0; w1]).
    { rewrite registered_once by done. rewrite decide_True by done.
      by rewrite Hreg1, <- app_assoc. }
    destruct (emit_quiet body fuel event data1 (once event (Fn f) s1).2 Hquiet)
      as (st1 & Hrun1 & Ht1 & Hleft1).
    assert (Hother1 : ∀ cb, cb ∈ registered st1 event -> target cb ≠ f).
    { intros cb. rewrite Hleft1, Hreg2, elem_of_without, flat_map_app.
      intros [Hin Hgone]. apply not_elem_of_app in Hgone as [_ Hgone].
      apply elem_of_app in Hin as [Hin|Hin]; [by apply Hother|].
      exfalso. apply Hgone.
      apply elem_of_cons in Hin as [->|Hin]; [by left|].
      apply list_elem_of_singleton in Hin as ->. right. by left. }
    destruct (emit_quiet body fuel event data2 st1 Hquiet) as (st2 & Hrun2 & Ht2 & _).
    exists st1, st2. split_and!; try done.
    + rewrite Ht1, Hreg2, calls_of_app, flat_map_app, calls_of_app.
      rewrite (calls_of_other_listeners body event data1 f _ Hother).
      change (flat_map ?g [w0; w1]) with (g w0 ++ g w1 ++ []).
      rewrite !calls_of_app, !calls_of_emit_events, !decide_True by done.
      done.
    + rewrite Ht2, calls_of_app.
      rewrite (calls_of_other_listeners body event data2 f _ Hother1).
      by rewrite app_nil_r.
  - assert (Hnew : Fn f ∉ registered st event).
    { intros Hin. by apply (Hother _ Hin). }
    assert (Hreg : registered (on event (Fn f) (on event (Fn f) st)) event
                   = registered st event ++ [Fn f]).
    { assert (E1 : registered (on event (Fn f) st) event
                   = registered st event ++ [Fn f]).
      { rewrite registered_on_any, decide_True by done. by rewrite decide_False. }
      rewrite (registered_on_any (on event (Fn f) st)), decide_True by done.
      rewrite E1, decide_True; [done|]. apply elem_of_app. right. by left. }
    destruct (emit_quiet body fuel event data1 (on event (Fn f) (on event (Fn f) st))
                Hquiet) as (st1 & Hrun1 & Ht1 & Hleft1).
    destruct (emit_quiet body fuel event data2 st1 Hquiet) as (st2 & Hrun2 & Ht2 & _).
    assert (Hcalls1 : calls_of f (trace st1) = calls_of f (trace st) ++ [data1]).
    { rewrite Ht1, Hreg, calls_of_app, flat_map_app, calls_of_app.
      rewrite (calls_of_other_listeners body event data1 f _ Hother).
      change (flat_map ?g [Fn f]) with (g (Fn f) ++ []).
      rewrite !calls_of_app, !calls_of_emit_events, !decide_True by done.
      done. }
    exists st1, st2. split_and!; try done.
    rewrite Ht2, calls_of_app, Hcalls1, Hleft1, Hreg.
    unfold without at 1. rewrite List.filter_app.
    fold (without (flat_map spent (registered st event ++ [Fn f])) event
            (registered st event)).
    simpl. rewrite bool_decide_eq_true_2 by apply spent_wrappers.
    rewrite flat_map_app, calls_of_app, calls_of_without by done.
    change (flat_map ?g [Fn f]) with (g (Fn f) ++ []).
    rewrite !calls_of_app, !calls_of_emit_events, !decide_True by done.
    simpl. by rewrite <- app_assoc.
Qed.

Lemma once_twice_is_two_registrations_witness :
  ∃ st1 st2,
    emit throwing_body 1 "x" (Some (JNum 1%Z))
      (once "x" (Fn 0) (once "x" (Fn 0) two_listeners).2).2 = Some st1 ∧
    emit throwing_body 1 "x" (Some (JNum 2%Z)) st1 = Some st2 ∧
    calls_of 0 (trace st1)
    = calls_of 0 (trace two_listeners) ++ [Some (JNum 1%Z); Some (JNum 1%Z)] ∧
    calls_of 0 (trace st2) = calls_of 0 (trace st1).
Proof.
  apply (once_twice_is_two_registrations throwing_body "x" 0
           (Some (JNum 1%Z)) (Some (JNum 2%Z)) 0 two_listeners).
  - intros g data. reflexivity.
  - intros cb Hcb. vm_compute in Hcb.
    apply elem_of_cons in Hcb as [->|Hcb]; [discriminate|].
    apply list_elem_of_singleton in Hcb as ->. discriminate.
Defined.

(** X14. For a function [f] not otherwise registered for the event: the
    handle that [once(event, f)] returns, called before any emit, leaves
    every event with the listeners it had before the [once]; an emit then
    does not call [f]. *)
Theorem once_handle_cancels body event f data fuel st :
  (∀ cb, cb ∈ registered st event -> target cb ≠ f) ->
  let wrapper := (once event (Fn f) st).1 in
  let st0 := off event wrapper (once event (Fn f) st).2 in
  (∀ ev, registered st0 ev = registered st ev) ∧
  ((∀ g d, quiet (body g d) = true) ->
   ∃ st1, emit body (S fuel) event data st0 = Some st1 ∧
          calls_of f (trace st1) = calls_of f (trace st)).
Proof.
  intros Hother. cbv zeta.
  set (w := (once event (Fn f) st).1).
  assert (Hw : w ∉ registered st event) by (intros Hin; by apply (Hother w Hin)).
  assert (Hreg : ∀ ev, registered (off event w (once event (Fn f) st).2) ev
                       = registered st ev).
  { intros ev. rewrite registered_off, registered_once by done.
    destruct (decide (ev = event)) as [->|]; [|done].
    rewrite List.filter_app. simpl. rewrite bool_decide_eq_false_2 by tauto.
    rewrite app_nil_r. by apply filter_ne_absent. }
  split; [done|]. intros Hquiet.
  destruct (emit_quiet body fuel event data (off event w (once event (Fn f) st).2)
              Hquiet) as (st1 & Hrun & Ht & _).
  exists st1. split; [done|].
  rewrite Ht, calls_of_app, Hreg.
  rewrite (calls_of_other_listeners body event data f _ Hother).
  by rewrite app_nil_r.
Qed.

Lemma once_handle_cancels_witness :
  registered (off "x" (once "x" (Fn 0) two_listeners).1
                (once "x" (Fn 0) two_listeners).2) "x"
  = registered two_listeners "x".
Proof.
  destruct (once_handle_cancels throwing_body "x" 0 None 0 two_listeners) as [H _].
  - intros cb Hcb. vm_compute in Hcb.
    apply elem_of_cons in Hcb as [->|Hcb]; [discriminate|].
    apply list_elem_of_singleton in Hcb as ->. discriminate.
  - exact (H "x").
Defined.

End BusRegistry.

(** ** Store with middleware: the other writes *)

Section MiddlewareWrites.
Import Json Middleware.

(** X15. [reset] runs no [beforePatch] hook: it resets the base store,
    which notifies its subscribers, and then calls the [afterPatch] hooks
    in pipeline order, each with the state as it was before and with the
    state after the reset both as the new state and as the patch.  What
    [get] returns afterwards is the initial state, and a second [reset]
    leaves it so. *)
Theorem middleware_reset_runs_only_afterPatch mws w :
  valid w ->
  let w' := reset mws w in
  get_value w' = base_initial w ∧
  trace w' = trace w ++ install_events (base_subscribers w) (base_initial w)
               ++ after_events mws (stored w) (base_initial w) (base_initial w) ∧
  hook_order (trace w')
  = hook_order (trace w) ++ ("", "write")
      :: omap (fun mw => (fun _ => (name mw, "afterPatch")) <$> afterPatch mw) mws ∧
  get_value (reset mws w') = get_value w'.
Proof.
  intros Hv. cbv zeta.
  destruct (reset_spec mws w Hv) as (V & S & I & U & T).
  split_and!.
  - by rewrite get_value_stored.
  - exact T.
  - rewrite T, !hook_order_app, hook_order_install_events, hook_order_after_events.
    done.
  - destruct (reset_spec mws (reset mws w) V) as (V' & S' & _).
    rewrite !get_value_stored by done. by rewrite S', S, I.
Qed.

Lemma middleware_reset_runs_only_afterPatch_witness :
  get_value (reset [doubling; meddling]
               (patch_literal [doubling] [("count", JNum 5)]
                  (createGameStore initialState)))
  = initialState.
Proof.
  destruct (middleware_reset_runs_only_afterPatch [doubling; meddling]
              (patch_literal [doubling] [("count", JNum 5)]
                 (createGameStore initialState))) as (H & _).
  - unfold valid. vm_compute. lia.
  - rewrite H. vm_compute. reflexivity.
Defined.

Lemma chained_patch_app pre post state patch :
  chained_patch (pre ++ post) state patch
  = chained_patch post state (chained_patch pre state patch).
Proof. unfold chained_patch. apply fold_left_app. Qed.

Lemma step_patch_throws mw state patch :
  always_throws mw -> step_patch mw state patch = patch.
Proof.
  intros Hthrow. unfold step_patch, hook_patch.
  destruct (beforePatch mw) as [hook|] eqn:Hhook; [|done].
  by rewrite (Hthrow hook state patch Hhook).
Qed.

(** X16. A middleware whose [beforePatch] throws on every call changes
    nothing about what is stored: the patch goes on to the next hook as
    it was, so that [patch], [set] and [update] store what they store
    with that middleware taken out of the pipeline; the call and the error
    are logged. *)
Theorem middleware_throwing_hook_is_skipped pre mw post w :
  valid w ->
  always_throws mw ->
  (∀ state patch,
     chained_patch (pre ++ mw :: post) state patch
     = chained_patch (pre ++ post) state patch) ∧
  (∀ partial, partial < length (heap w) ->
     get_value (patch (pre ++ mw :: post) partial w)
     = get_value (patch (pre ++ post) partial w)) ∧
  (∀ newState, newState < length (heap w) ->
     get_value (set (pre ++ mw :: post) newState w)
     = get_value (set (pre ++ post) newState w)) ∧
  (∀ updater,
     get_value (update (pre ++ mw :: post) updater w)
     = get_value (update (pre ++ post) updater w)) ∧
  (∀ hook state patch, beforePatch mw = Some hook ->
     before_step_events mw state patch
     = [BeforePatchCalled (name mw) state patch;
        ConsoleError (name mw) "beforePatch"]).
Proof.
  intros Hv Hthrow.
  assert (Hchain : ∀ state patch,
    chained_patch (pre ++ mw :: post) state patch
    = chained_patch (pre ++ post) state patch).
  { intros state patch. rewrite !chained_patch_app.
    change (chained_patch (mw :: post) state ?p)
      with (chained_patch post state (step_patch mw state p)).
    by rewrite step_patch_throws. }
  split_and!.
  - exact Hchain.
  - intros partial Hp.
    destruct (patch_spec (pre ++ mw :: post) partial w Hv Hp) as (V1 & S1 & _).
    destruct (patch_spec (pre ++ post) partial w Hv Hp) as (V2 & S2 & _).
    rewrite !get_value_stored by done. by rewrite S1, S2, Hchain.
  - intros newState Hp.
    destruct (set_spec (pre ++ mw :: post) newState w Hv Hp) as (V1 & S1 & _).
    destruct (set_spec (pre ++ post) newState w Hv Hp) as (V2 & S2 & _).
    rewrite !get_value_stored by done. by rewrite S1, S2, Hchain.
  - intros updater.
    destruct (update_spec (pre ++ mw :: post) updater w Hv) as (V1 & S1 & _).
    destruct (update_spec (pre ++ post) updater w Hv) as (V2 & S2 & _).
    rewrite !get_value_stored by done. by rewrite S1, S2, Hchain.
  - intros hook state patch Hhook. unfold before_step_events.
    by rewrite Hhook, (Hthrow hook state patch Hhook).
Qed.

Lemma middleware_throwing_hook_is_skipped_witness :
  get_value (patch [doubling; failing; addingOne] 0 (createGameStore initialState))
  = get_value (patch [doubling; addingOne] 0 (createGameStore initialState)).
Proof.
  destruct (middleware_throwing_hook_is_skipped [doubling] failing [addingOne]
              (createGameStore initialState)) as (_ & H & _).
  - unfold valid. simpl. lia.
  - intros hook state patch [= <-]. reflexivity.
  - apply (H 0). simpl. lia.
Defined.

(** X17. [update(updater)] stores what [set(updater(get()))] stores and
    makes the same calls of hooks and subscribers: the updater is applied
    to a copy of the current state and its result goes through the
    pipeline as the whole new state. *)
Theorem middleware_update_is_set_of_the_updated_state mws updater w :
  valid w ->
  get_value (update mws updater w)
  = get_value (set_literal mws (updater (get_value w)) w) ∧
  trace (update mws updater w)
  = trace (set_literal mws (updater (get_value w)) w) ∧
  get_value (update mws updater w)
  = chained_patch mws (get_value w) (updater (get_value w)).
Proof.
  intros Hv. rewrite (get_value_stored w Hv).
  destruct (update_spec mws updater w Hv) as (V1 & S1 & _ & _ & T1).
  pose proof (valid_alloc (updater (stored w)) w Hv) as Va.
  pose proof (stored_alloc (updater (stored w)) w Hv) as Sa.
  pose proof (read_alloc (updater (stored w)) w) as Ra.
  pose proof (alloc_length (updater (stored w)) w) as La.
  change (set_literal mws (updater (stored w)) w)
    with (set mws (length (heap w)) (alloc (updater (stored w)) w).2).
  set (wa := (alloc (updater (stored w)) w).2) in *.
  assert (Ta : trace wa = trace w) by done.
  assert (Ua : base_subscribers wa = base_subscribers w) by done.
  clearbody wa.
  destruct (set_spec mws (length (heap w)) wa Va ltac:(lia)) as (V2 & S2 & _ & _ & T2).
  rewrite Sa, Ra, Ta, Ua in *.
  rewrite !get_value_stored by done. split_and!; congruence.
Qed.

Lemma middleware_update_is_set_of_the_updated_state_witness :
  get_value (update [doubling] (fun state => spread state [("count", JNum 2)])
               (createGameStore initialState))
  = get_value (set_literal [doubling]
                 (spread (get_value (createGameStore initialState)) [("count", JNum 2)])
                 (createGameStore initialState)).
Proof.
  destruct (middleware_update_is_set_of_the_updated_state [doubling]
              (fun state => spread state [("count", JNum 2)])
              (createGameStore initialState)) as (H & _).
  - unfold valid. simpl. lia.
  - exact H.
Defined.

(** X18. The [beforePatch] hooks are given copies of the state and of the
    current patch: whatever they write to them, the state the store
    holds, what [get] returns, and the state and patch objects that were
    passed to the pipeline are as before; the patch the pipeline returns
    is the chained patch. *)
Theorem beforePatch_hooks_cannot_change_state mws state patch w :
  valid w ->
  state < length (heap w) ->
  patch < length (heap w) ->
  let r := runBeforePatch mws state patch w in
  stored r.2 = stored w ∧
  get_value r.2 = get_value w ∧
  base_state r.2 = base_state w ∧
  read state r.2 = read state w ∧
  read patch r.2 = read patch w ∧
  read r.1 r.2 = chained_patch mws (read state w) (read patch w) ∧
  trace r.2 = trace w ++ before_events mws (read state w) (read patch w).
Proof.
  intros Hv Hs Hp. cbv zeta. unfold runBeforePatch.
  destruct (before_loop_spec mws state patch w Hs Hp) as (E & L & R & T).
  assert (V' : valid (before_loop mws state patch w).2) by (by eapply extends_valid).
  split_and!; try done.
  - by apply extends_stored.
  - rewrite !get_value_stored by done. by apply extends_stored.
  - by destruct E as (_ & -> & _).
  - by apply extends_read.
  - by apply extends_read.
Qed.

Lemma beforePatch_hooks_cannot_change_state_witness :
  stored (runBeforePatch [meddlingBefore] 0 0 (createGameStore initialState)).2
  = initialState.
Proof.
  destruct (beforePatch_hooks_cannot_change_state [meddlingBefore] 0 0
              (createGameStore initialState)) as (H & _).
  - unfold valid. simpl. lia.
  - simpl. lia.
  - simpl. lia.
  - rewrite H. reflexivity.
Defined.

End MiddlewareWrites.

(** ** Scoped store: writes and subscriptions *)

Section ScopedWrites.
Import Json ScopedStore.

Lemma NoDup_values_add {A} `{EqDecision A} (x : A) (s : JsSet.jsset A) :
  NoDup (JsSet.values s) -> NoDup (JsSet.values (JsSet.add x s)).
Proof.
  intros Hnd. rewrite values_add. case_decide; [done|].
  apply NoDup_app. split_and!; [done| |apply NoDup_singleton].
  intros y Hy Hy'. apply list_elem_of_singleton in Hy' as ->. done.
Qed.

Lemma NoDup_allKeys old new : NoDup (allKeys old new).
Proof.
  unfold allKeys. generalize (keys old ++ keys new) as l.
  assert (G : ∀ l (s : JsSet.jsset string), NoDup (JsSet.values s) ->
            NoDup (JsSet.values (fold_left (fun s k => JsSet.add k s) l s))).
  { induction l as [|k l IH]; intros s Hs; [done|]. simpl. apply IH.
    by apply NoDup_values_add. }
  intros l. apply G. constructor.
Qed.

Lemma getChangedKeys_nil old new :
  getChangedKeys old new = [] ↔ ∀ key, get_field old key = get_field new key.
Proof.
  split.
  - intros E key.
    destruct (decide (get_field old key = get_field new key)) as [|Hne]; [done|].
    apply elem_of_getChangedKeys in Hne. rewrite E in Hne. by apply elem_of_nil in Hne.
  - intros Hsame. destruct (getChangedKeys old new) as [|key l] eqn:E; [done|].
    assert (Hin : key ∈ getChangedKeys old new) by (rewrite E; by left).
    apply elem_of_getChangedKeys in Hin. by specialize (Hsame key).
Qed.

Lemma getChangedKeys_same state : getChangedKeys state state = [].
Proof. by apply getChangedKeys_nil. Qed.

(** X19. The changed keys of two states: each key is reported once; a
    state has no changed key against itself; no key is reported exactly
    when the two states hold the same value under every key, whatever the
    order of their keys; a key is changed one way round when it is the
    other way round; every key reported is a key of one of the states; and
    a key that only the new state has is reported. *)
Theorem getChangedKeys_compares_values old new :
  NoDup (getChangedKeys old new) ∧
  getChangedKeys old old = [] ∧
  (getChangedKeys old new = [] ↔ ∀ key, get_field old key = get_field new key) ∧
  (∀ key, key ∈ getChangedKeys old new ↔ key ∈ getChangedKeys new old) ∧
  (∀ key, key ∈ getChangedKeys old new -> key ∈ keys old ∨ key ∈ keys new) ∧
  (∀ key value, get_field old key = None -> get_field new key = Some value ->
     key ∈ getChangedKeys old new).
Proof.
  split_and!.
  - unfold getChangedKeys.
    apply NoDup_ListNoDup, List.NoDup_filter, NoDup_ListNoDup, NoDup_allKeys.
  - apply getChangedKeys_same.
  - apply getChangedKeys_nil.
  - intros key. rewrite !elem_of_getChangedKeys. split; intros H E; by apply H.
  - intros key. unfold getChangedKeys.
    rewrite list_elem_of_In, filter_In, <- list_elem_of_In, elem_of_allKeys. tauto.
  - intros key value Ho Hn. apply elem_of_getChangedKeys. congruence.
Qed.

Section PassiveWrites.
Variable options : ScopedStoreOptions.
Variable env : bodies.
Variable api : call -> world -> option (completion * world).
Hypothesis Hpassive : passive env.

Lemma scoped_set_passive steps v w :
  enough steps w ->
  ∃ w', scoped_set options env api steps v w = Some w' ∧
    parent_state w' = update options (parent_state w) v ∧
    same_stores (with_parent_state (update options (parent_state w) v) w) w'.
Proof.
  intros He.
  set (new := update options (parent_state w) v).
  change (scoped_set options env api steps v w)
    with (parent_notify_loop options env api steps
            (JsSet.values (parent_subscribers w)) new (with_parent_state new w)).
  destruct (parent_notify_loop_passive options env api Hpassive steps new
              (JsSet.values (parent_subscribers w)) (with_parent_state new w) He)
    as (w' & -> & S).
  exists w'. split; [done|]. split; [|done]. by destruct S as (-> & _).
Qed.

Lemma parent_notify_loop_app steps state l1 l2 w :
  parent_notify_loop options env api steps (l1 ++ l2) state w
  = w1 ← parent_notify_loop options env api steps l1 state w;
    parent_notify_loop options env api steps l2 state w1.
Proof.
  revert w. induction l1 as [|cb l1 IH]; intros w; simpl; [done|].
  destruct (parent_call options env api steps cb state w) as [w1|]; simpl; [|done].
  apply IH.
Qed.

(** After a notification that reached the handler, the state last seen
    agrees with the projection of the state notified. *)
Lemma parent_notify_loop_in_sync steps state snapshot w :
  enough steps w ->
  ScopedHandler ∈ snapshot ->
  ∃ w', parent_notify_loop options env api steps snapshot state w = Some w' ∧
    same_stores w w' ∧
    getChangedKeys (lastScopedState w') (select options state) = [].
Proof.
  intros He Hin. apply list_elem_of_split in Hin as (l1 & l2 & ->).
  rewrite parent_notify_loop_app.
  destruct (parent_notify_loop_passive options env api Hpassive steps state l1 w He)
    as (w1 & -> & S1). simpl.
  pose proof (same_stores_enough _ _ _ S1 He) as He1.
  unfold parent_call at 1.
  rewrite (handler_passive options env api Hpassive steps state w1 He1). simpl.
  set (w2 := if decide (0 < length (getChangedKeys (lastScopedState w1)
                                      (select options state)))
             then _ else w1).
  assert (S2 : same_stores w1 w2).
  { unfold w2. destruct (decide _); by repeat split. }
  assert (Hsync : getChangedKeys (lastScopedState w2) (select options state) = []).
  { unfold w2. destruct (decide _) as [|Hlen]; simpl.
    - apply getChangedKeys_same.
    - destruct (getChangedKeys _ _); [done|]. simpl in Hlen. lia. }
  clearbody w2.
  destruct (parent_notify_loop_unchanged options env api Hpassive steps state l2 w2 Hsync)
    as (w3 & -> & S3 & L3 & _).
  exists w3. split; [done|]. split.
  - eapply same_stores_trans; [exact S1|]. by eapply same_stores_trans.
  - by rewrite L3.
Qed.

End PassiveWrites.

Lemma enough_watched_player_world : enough 3 watched_player_world.
Proof.
  split; [simpl; lia|]. intros key subs H.
  unfold watched_player_world in H. cbn [keySubscribers] in H.
  apply lookup_singleton_Some in H as [_ <-]. simpl. lia.
Qed.

Lemma put_get_field_scope k : put_get (field_scope k).
Proof. intros state scoped. apply field_scope_update_slice. Qed.

(** X20. For a scoped store whose subscribers return without calling back
    and whose [update] puts what [select] gets: after [set(s)] the scoped
    [get] returns [s]; after [patch(p)] it returns the former state
    merged with [p], every key that [p] omits keeping its value; after
    [update(f)] it returns [f] of the former state; and after [reset] it
    returns the scoped state as it was when the scoped store was
    created, which no write changes. *)
Theorem scoped_writes_can_be_read_back options env api steps w :
  passive env ->
  enough steps w ->
  put_get options ->
  (∀ newState,
     ∃ w', scoped_set options env api steps newState w = Some w' ∧
       get options w' = newState ∧
       parent_state w' = update options (parent_state w) newState) ∧
  (∀ partial,
     ∃ w', scoped_patch options env api steps partial w = Some w' ∧
       get options w' = spread (get options w) partial ∧
       ∀ key, key ∉ keys partial ->
         get_field (get options w') key = get_field (get options w) key) ∧
  (∀ updater,
     ∃ w', scoped_update options env api steps updater w = Some w' ∧
       get options w' = updater (get options w)) ∧
  (∃ w', scoped_reset options env api steps w = Some w' ∧
     get options w' = initialScopedState w ∧
     initialScopedState w' = initialScopedState w).
Proof.
  intros Hp He Hlaw.
  assert (Hset : ∀ v, ∃ w', scoped_set options env api steps v w = Some w' ∧
                   get options w' = v ∧
                   parent_state w' = update options (parent_state w) v ∧
                   initialScopedState w' = initialScopedState w).
  { intros v. destruct (scoped_set_passive options env api Hp steps v w He)
      as (w' & Hrun & Hstate & S).
    exists w'. split; [done|]. unfold get, parent_get, deepClone.
    rewrite Hstate, Hlaw. split_and!; try done. by destruct S as (_ & _ & _ & -> & _). }
  split_and!.
  - intros v. destruct (Hset v) as (w' & ? & ? & ? & ?). by exists w'.
  - intros partial.
    destruct (Hset (spread (select options (parent_state w)) partial))
      as (w' & Hrun & Hget & _).
    exists w'. split; [exact Hrun|]. split; [exact Hget|].
    intros key Hkey. rewrite Hget. by apply get_field_spread_omitted.
  - intros updater.
    destruct (Hset (updater (select options (parent_state w)))) as (w' & Hrun & Hget & _).
    by exists w'.
  - destruct (Hset (initialScopedState w)) as (w' & Hrun & Hget & _ & Hinit).
    by exists w'.
Qed.

Lemma scoped_writes_can_be_read_back_witness :
  ∃ w', scoped_set (field_scope "player") passive_bodies
          (exec (field_scope "player") passive_bodies 3) 3
          [("name", JStr "Zed")] watched_player_world = Some w' ∧
    get (field_scope "player") w' = [("name", JStr "Zed")].
Proof.
  destruct (scoped_writes_can_be_read_back (field_scope "player") passive_bodies
              (exec (field_scope "player") passive_bodies 3) 3 watched_player_world)
    as (H & _).
  - by repeat split.
  - exact enough_watched_player_world.
  - apply put_get_field_scope.
  - destruct (H [("name", JStr "Zed")]) as (w' & Hrun & Hget & _).
    exists w'. split; [exact Hrun|exact Hget].
Defined.

(** X21. For such a scoped store, with its handler subscribed to the
    parent: writing the same state twice calls no scoped subscriber the
    second time; after either write [get] returns the state written. *)
Theorem scoped_same_write_twice_notifies_once options env api steps w newState :
  passive env ->
  enough steps w ->
  put_get options ->
  attached w ->
  ∃ w1 w2,
    scoped_set options env api steps newState w = Some w1 ∧
    scoped_set options env api steps newState w1 = Some w2 ∧
    get options w1 = newState ∧
    get options w2 = newState ∧
    scoped_calls (trace w2) = scoped_calls (trace w1).
Proof.
  intros Hp He Hlaw Hatt.
  set (p1 := update options (parent_state w) newState).
  destruct (parent_notify_loop_in_sync options env api Hp steps p1
              (JsSet.values (parent_subscribers w)) (with_parent_state p1 w) He Hatt)
    as (w1 & Hrun1 & S1 & Hsync).
  assert (Hstate1 : parent_state w1 = p1) by (by destruct S1 as (-> & _)).
  set (p2 := update options (parent_state w1) newState).
  assert (Hsync2 : getChangedKeys (lastScopedState (with_parent_state p2 w1))
                     (select options p2) = []).
  { simpl. unfold p2. rewrite Hlaw. unfold p1 in Hsync. by rewrite Hlaw in Hsync. }
  destruct (parent_notify_loop_unchanged options env api Hp steps p2
              (JsSet.values (parent_subscribers w1)) (with_parent_state p2 w1) Hsync2)
    as (w2 & Hrun2 & S2 & _ & T2).
  exists w1, w2. split_and!.
  - exact Hrun1.
  - exact Hrun2.
  - unfold get, parent_get, deepClone. rewrite Hstate1. apply Hlaw.
  - unfold get, parent_get, deepClone. destruct S2 as (-> & _). apply Hlaw.
  - exact T2.
Qed.


Lemma scoped_same_write_twice_notifies_once_witness :
  ∃ w1 w2,
    scoped_set (field_scope "player") passive_bodies
      (exec (field_scope "player") passive_bodies 3) 3
      [("name", JStr "Zed")] watched_player_world = Some w1 ∧
    scoped_set (field_scope "player") passive_bodies
      (exec (field_scope "player") passive_bodies 3) 3
      [("name", JStr "Zed")] w1 = Some w2 ∧
    get (field_scope "player") w1 = [("name", JStr "Zed")] ∧
    get (field_scope "player") w2 = [("name", JStr "Zed")] ∧
    scoped_calls (trace w2) = scoped_calls (trace w1).
Proof.
  apply (scoped_same_write_twice_notifies_once (field_scope "player") passive_bodies
           (exec (field_scope "player") passive_bodies 3) 3 watched_player_world
           [("name", JStr "Zed")]).
  - by repeat split.
  - exact enough_watched_player_world.
  - apply put_get_field_scope.
  - unfold attached. simpl. by left.
Defined.

(** X22. For a scoped store whose subscribers return: [subscribe] calls
    the callback at once with the current scoped state and registers it
    once however often it is subscribed; [subscribeToKey] calls it at
    once with the current value under the key, which is [undefined] for
    a key the state does not have, and registers it for that key only;
    the handles returned remove the callback, call nobody and leave the
    other subscribers in their order. *)
Theorem scoped_subscriptions_start_with_a_call options env fuel w :
  passive env ->
  (∀ callback,
     ∃ w1 w2,
       exec options env (S fuel) (CSubscribe callback) w = Some (Normal, w1) ∧
       exec options env (S fuel) (CUnsubscribe callback) w1 = Some (Normal, w2) ∧
       trace w1 = trace w ++ [SubscriberCalled callback (get options w)] ∧
       JsSet.values (subscribers w1)
       = (if decide (callback ∈ JsSet.values (subscribers w))
          then JsSet.values (subscribers w)
          else JsSet.values (subscribers w) ++ [callback]) ∧
       trace w2 = trace w1 ∧
       JsSet.values (subscribers w2)
       = List.filter (fun y => bool_decide (y ≠ callback)) (JsSet.values (subscribers w)) ∧
       parent_state w2 = parent_state w) ∧
  (∀ key callback,
     ∃ w1 w2,
       exec options env (S fuel) (CSubscribeToKey key callback) w = Some (Normal, w1) ∧
       exec options env (S fuel) (CUnsubscribeFromKey key callback) w1
       = Some (Normal, w2) ∧
       trace w1
       = trace w ++ [KeySubscriberCalled key callback (get_field (get options w) key)] ∧
       (key ∉ keys (get options w) -> get_field (get options w) key = None) ∧
       key_registered w1 key
       = (if decide (callback ∈ key_registered w key)
          then key_registered w key
          else key_registered w key ++ [callback]) ∧
       key_registered w2 key
       = List.filter (fun y => bool_decide (y ≠ callback)) (key_registered w key) ∧
       (∀ other, other ≠ key ->
          key_registered w1 other = key_registered w other ∧
          key_registered w2 other = key_registered w other)).
Proof.
  intros Hp. split.
  - intros callback. eexists. eexists. simpl. unfold scoped_subscribe.
    rewrite (call_subscriber_passive env _ Hp). split; [done|].
    split; [done|]. simpl. split_and!; try done.
    + apply values_add.
    + apply values_delete_add.
  - intros key callback. eexists. eexists. simpl. unfold scoped_subscribeToKey.
    rewrite (call_key_subscriber_passive env _ Hp). split; [done|].
    split; [done|]. simpl.
    set (m := if decide (is_Some (keySubscribers w !! key)) then keySubscribers w
              else <[key:=JsSet.empty]> (keySubscribers w)).
    assert (Hm : default JsSet.empty (m !! key)
                 = default JsSet.empty (keySubscribers w !! key)).
    { unfold m. destruct (decide _) as [|Hnone]; [done|].
      rewrite lookup_insert_eq. apply eq_None_not_Some in Hnone. by rewrite Hnone. }
    assert (Hm' : is_Some (m !! key)).
    { unfold m. destruct (decide _) as [|Hnone]; [done|]. by rewrite lookup_insert_eq. }
    assert (Hother : ∀ other, other ≠ key -> m !! other = keySubscribers w !! other).
    { intros other Hne. unfold m. destruct (decide _); [done|].
      by rewrite lookup_insert_ne. }
    unfold key_registered. simpl. split_and!; try done.
    + apply get_field_None.
    + rewrite lookup_alter_eq. destruct Hm' as [s Hs]. rewrite Hs in *. simpl in *.
      rewrite <- Hm. apply values_add.
    + rewrite !lookup_alter_eq. destruct Hm' as [s Hs]. rewrite Hs in *. simpl in *.
      rewrite <- Hm. apply values_delete_add.
    + intros other Hne. rewrite !lookup_alter_ne by done. by rewrite Hother.
Qed.

Lemma scoped_subscriptions_start_with_a_call_witness :
  ∃ w1 w2,
    exec (field_scope "player") passive_bodies 1 (CSubscribeToKey "mana" 5)
      watched_player_world = Some (Normal, w1) ∧
    exec (field_scope "player") passive_bodies 1 (CUnsubscribeFromKey "mana" 5) w1
    = Some (Normal, w2) ∧
    trace w1 = [KeySubscriberCalled "mana" 5 None] ∧
    key_registered w1 "mana" = [5] ∧
    key_registered w2 "mana" = [].
Proof.
  destruct (scoped_subscriptions_start_with_a_call (field_scope "player")
              passive_bodies 0 watched_player_world) as (_ & H).
  - by repeat split.
  - destruct (H "mana" 5) as (w1 & w2 & Hrun1 & Hrun2 & Ht & _ & Hreg1 & Hreg2 & _).
    exists w1, w2. split_and!; [exact Hrun1|exact Hrun2| | |].
    + rewrite Ht. vm_compute. reflexivity.
    + rewrite Hreg1. vm_compute. reflexivity.
    + rewrite Hreg2. vm_compute. reflexivity.
Defined.

End ScopedWrites.

(** ** Scene store *)

Section SceneStoreProperties.
Import Json SceneStore.

Lemma scene_log_all_nil w : log_all [] w = w.
Proof. destruct w. unfold log_all. simpl. by rewrite app_nil_r. Qed.

Lemma scene_log_all_app es1 es2 w :
  log_all es2 (log_all es1 w) = log_all (es1 ++ es2) w.
Proof. unfold log_all. simpl. by rewrite app_assoc. Qed.

Lemma scene_frame_refl w : frame w w.
Proof. by repeat split. Qed.

Lemma scene_frame_trans w1 w2 w3 : frame w1 w2 -> frame w2 w3 -> frame w1 w3.
Proof. intros (?&?&?) (?&?&?). repeat split; congruence. Qed.

Section AnyBodies.
Variable env : bodies.

Lemma notify_loop_frame l : ∀ w,
  let r := notify_loop env l w in
  frame w r.2 ∧ state r.2 = state w ∧ currentSceneData r.2 = currentSceneData w ∧
  raised r.1.
Proof.
  induction l as [|cb rest IH]; intros w; simpl; [by repeat split|].
  destruct (subscriberBody env cb (state w)); [|by repeat split].
  destruct (IH (log (SubscriberCalled cb (state w)) w)) as (F & S & D & R).
  split_and!; try done.
Qed.

Lemma setState_frame partial w :
  let r := setState env partial w in
  frame w r.2 ∧ state r.2 = partial (state w) ∧
  currentSceneData r.2 = currentSceneData w ∧ raised r.1.
Proof.
  unfold setState, notify.
  destruct (notify_loop_frame (JsSet.values (subscribers (with_state (partial (state w)) w)))
              (with_state (partial (state w)) w)) as (F & S & D & R).
  split_and!; try done.
Qed.

Lemma await_hook_frame called hook w :
  let r := await_hook env called hook w in
  frame w r.2 ∧ state r.2 = state w ∧ currentSceneData r.2 = currentSceneData w ∧
  raised r.1.
Proof.
  unfold await_hook. destruct hook as [h|]; [|by repeat split].
  destruct (hookBody env h (state w)); by repeat split.
Qed.

(** A transition, however it ends, leaves the store on the scene it was
    on or on the target, which is then a known scene. *)
Lemma transitionTo_frame targetId transition data w :
  let r := transitionTo env targetId transition data w in
  frame w r.2 ∧
  (currentScene (state r.2) = currentScene (state w) ∨
   (currentScene (state r.2) = targetId ∧ known w targetId)) ∧
  (known w targetId -> raised r.1).
Proof.
  cbv zeta. unfold transitionTo.
  destruct (sceneMap w !! targetId) as [targetScene|] eqn:Htarget.
  2: { split; [apply scene_frame_refl|]. split; [by left|].
       intros [x Hx]. congruence. }
  assert (Hknown : known w targetId) by (by eexists).
  destruct (decide (currentScene (state w) = targetId)) as [Hsame|Hne].
  { split; [apply scene_frame_refl|]. split; [by left|]. done. }
  unfold and_then.
  pose proof (setState_frame
    (fun s => {| currentScene := currentScene s; previousScene := previousScene s;
                 isTransitioning := true;
                 transition := default defaultTransition transition |}) w) as H1.
  destruct (setState env _ w) as [[|e1] w1]; simpl in H1;
    destruct H1 as (F1 & S1 & D1 & R1).
  2: { simpl. split; [done|]. split; [left; by rewrite S1|]. done. }
  pose proof (await_hook_frame OnExitCalled
                (sceneMap w !! currentScene (state w) ≫= onExit) w1) as H2.
  destruct (await_hook env OnExitCalled _ w1) as [[|e2] w2]; simpl in H2;
    destruct H2 as (F2 & S2 & D2 & R2).
  2: { simpl. split; [by eapply scene_frame_trans|]. split; [left; by rewrite S2, S1|]. done. }
  set (w3 := with_currentSceneData (or_null data) w2).
  pose proof (setState_frame
    (fun s => {| currentScene := targetId;
                 previousScene := Some (currentScene (state w3));
                 isTransitioning := isTransitioning s;
                 transition := SceneStore.transition s |}) w3) as H4.
  destruct (setState env _ w3) as [[|e4] w4]; simpl in H4;
    destruct H4 as (F4 & S4 & D4 & R4).
  2: { simpl. split; [eapply scene_frame_trans; [exact F1|]; by eapply scene_frame_trans|].
       split; [right; by rewrite S4|]. done. }
  pose proof (await_hook_frame OnEnterCalled (onEnter targetScene) w4) as H5.
  destruct (await_hook env OnEnterCalled _ w4) as [[|e5] w5]; simpl in H5;
    destruct H5 as (F5 & S5 & D5 & R5).
  2: { simpl. split.
       - eapply scene_frame_trans; [exact F1|]. eapply scene_frame_trans; [exact F2|].
         by eapply scene_frame_trans.
       - split; [right; by rewrite S5, S4|]. done. }
  pose proof (setState_frame
    (fun s => {| currentScene := currentScene s; previousScene := previousScene s;
                 isTransitioning := false; transition := JNull |}) w5) as H6.
  destruct (setState env _ w5) as [o6 w6]; simpl in H6;
    destruct H6 as (F6 & S6 & D6 & R6).
  simpl. split.
  - eapply scene_frame_trans; [exact F1|]. eapply scene_frame_trans; [exact F2|].
    eapply scene_frame_trans; [exact F4|]. by eapply scene_frame_trans.
  - split; [right; by rewrite S6, S5, S4|]. done.
Qed.

End AnyBodies.

Lemma scene_world_eq w w' :
  sceneMap w = sceneMap w' -> state w = state w' -> sceneStack w = sceneStack w' ->
  subscribers w = subscribers w' -> currentSceneData w = currentSceneData w' ->
  trace w = trace w' -> w = w'.
Proof. destruct w, w'. simpl. by intros -> -> -> -> -> ->. Qed.

Section CalmBodies.
Variable env : bodies.
Hypothesis Hcalm : calm env.

Lemma notify_loop_calm l : ∀ w,
  notify_loop env l w
  = (Fulfilled, log_all ((fun callback => SubscriberCalled callback (state w)) <$> l) w).
Proof.
  induction l as [|cb rest IH]; intros w; simpl.
  - by rewrite scene_log_all_nil.
  - rewrite (proj1 Hcalm). rewrite IH. simpl.
    change (log ?e w) with (log_all [e] w). by rewrite scene_log_all_app.
Qed.

Lemma setState_calm partial w :
  setState env partial w
  = (Fulfilled, log_all (notifications w (partial (state w)))
                  (with_state (partial (state w)) w)).
Proof. unfold setState, notify. by rewrite notify_loop_calm. Qed.

Lemma await_hook_calm called hook w :
  await_hook env called hook w = (Fulfilled, log_all (hook_events called hook) w).
Proof.
  unfold await_hook, hook_events. destruct hook as [h|].
  - by rewrite (proj2 Hcalm).
  - by rewrite scene_log_all_nil.
Qed.

Lemma transitionTo_calm targetId transition data w target :
  sceneMap w !! targetId = Some target ->
  currentScene (state w) ≠ targetId ->
  let tr := default defaultTransition transition in
  transitionTo env targetId transition data w
  = (Fulfilled,
     log_all (notifications w (began tr (state w))
              ++ hook_events OnExitCalled (sceneMap w !! currentScene (state w) ≫= onExit)
              ++ notifications w (switched targetId tr (state w))
              ++ hook_events OnEnterCalled (onEnter target)
              ++ notifications w (arrived targetId (state w)))
       (with_state (arrived targetId (state w))
          (with_currentSceneData (or_null data) w))).
Proof.
  intros Htarget Hne. cbv zeta. unfold transitionTo. rewrite Htarget.
  rewrite decide_False by done. unfold and_then.
  rewrite setState_calm.
  match goal with |- context [await_hook env OnExitCalled ?h ?x] =>
    rewrite (await_hook_calm OnExitCalled h x) end.
  match goal with |- context [setState env ?p (with_currentSceneData ?d ?x)] =>
    rewrite (setState_calm p (with_currentSceneData d x)) end.
  match goal with |- context [await_hook env OnEnterCalled ?h ?x] =>
    rewrite (await_hook_calm OnEnterCalled h x) end.
  match goal with |- context [setState env ?p ?x] =>
    rewrite (setState_calm p x) end.
  f_equal.
  apply scene_world_eq;
    cbn [sceneMap state sceneStack subscribers currentSceneData trace
         log_all with_state with_currentSceneData notifications
         currentScene previousScene isTransitioning SceneStore.transition];
    try reflexivity.
  unfold notifications, began, switched, arrived.
  cbn [sceneMap state sceneStack subscribers currentSceneData trace
       log_all with_state with_currentSceneData].
  by rewrite <- !app_assoc.
Qed.
End CalmBodies.


(** The options as [goto] and [push] read them. *)
Lemma goto_unfold env sceneId options w :
  goto env sceneId options w
  = transitionTo env sceneId (parse options).1 (parse options).2 (with_sceneStack [] w).
Proof. unfold goto. by destruct (parse options). Qed.

Lemma push_unfold env sceneId options w :
  push env sceneId options w
  = transitionTo env sceneId (parse options).1 (parse options).2
      (with_sceneStack (sceneStack w ++ [currentScene (state w)]) w).
Proof. unfold push. by destruct (parse options). Qed.

(** X25. With hooks and subscribers that return: [goto] to a known scene
    other than the current one is fulfilled and leaves the store on the
    target, with the scene left as the previous scene, no transition in
    progress, an empty stack and the data passed (or [null]) as the scene
    data.  On the way the subscribers are notified three times: when the
    transition begins, when the scene has changed and when the
    transition is over; [onExit] of the scene left runs between the first
    two and [onEnter] of the target between the last two.  The options
    are read as a transition when they have a [type], which drops any
    data, and as [{ transition, data }] otherwise, a missing transition
    standing for the default one. *)
Theorem scene_navigation_completes env targetId options w target :
  calm env ->
  sceneMap w !! targetId = Some target ->
  currentScene (state w) ≠ targetId ->
  let transition := default defaultTransition (parse options).1 in
  let data := or_null (parse options).2 in
  let exit := sceneMap w !! currentScene (state w) ≫= onExit in
  ∃ w', goto env targetId options w = (Fulfilled, w') ∧
    getState w' = arrived targetId (state w) ∧
    getSceneData w' = data ∧
    getStackDepth w' = 0 ∧
    canGoBack w' = false ∧
    trace w' = trace w
      ++ notifications w (began transition (state w))
      ++ hook_events OnExitCalled exit
      ++ notifications w (switched targetId transition (state w))
      ++ hook_events OnEnterCalled (onEnter target)
      ++ notifications w (arrived targetId (state w)) ∧
    (options = None -> transition = defaultTransition ∧ data = JNull) ∧
    (∀ o, options = Some o -> isSceneTransition o = true ->
       transition = JObj o ∧ data = JNull) ∧
    (∀ o, options = Some o -> isSceneTransition o = false ->
       transition = default defaultTransition (get_field o "transition") ∧
       data = default JNull (get_field o "data")).
Proof.
  intros Hcalm Htarget Hne. cbv zeta. rewrite goto_unfold.
  rewrite (transitionTo_calm env Hcalm targetId _ _ (with_sceneStack [] w) target)
    by done.
  eexists. split; [reflexivity|]. simpl. split_and!; try done.
  - by intros ->.
  - intros o -> Ho. unfold parse. by rewrite Ho.
  - intros o -> Ho. unfold parse. by rewrite Ho.
Qed.

Lemma scene_navigation_completes_witness :
  ∃ w', goto calm_bodies "game" (Some [("data", JObj [("score", JNum 100)])])
          (subscribe calm_bodies 0 menuStore).2 = (Fulfilled, w') ∧
    getState w' = arrived "game" (state menuStore) ∧
    getSceneData w' = JObj [("score", JNum 100)] ∧
    getStackDepth w' = 0.
Proof.
  destruct (scene_navigation_completes calm_bodies "game"
              (Some [("data", JObj [("score", JNum 100)])])
              (subscribe calm_bodies 0 menuStore).2 (scene "game"))
    as (w' & Hrun & Hstate & Hdata & Hdepth & _).
  - split; intros; reflexivity.
  - vm_compute. reflexivity.
  - vm_compute. discriminate.
  - exists w'. split_and!; [exact Hrun|exact Hstate| |exact Hdepth].
    rewrite Hdata. reflexivity.
Defined.

Lemma last_snoc_removelast {A} (l : list A) (x : A) :
  last (l ++ [x]) = Some x ∧ removelast (l ++ [x]) = l.
Proof. split; [apply last_snoc|]. apply removelast_last. Qed.

(** X26. With hooks and subscribers that return, on a store whose current
    scene is known: [push] to another known scene puts the current scene
    on the stack, so that going back is possible, and moves to the
    target with the data passed; [pop] then moves back to the scene
    pushed from, with the scene left as the previous scene, the stack as
    it was before the [push] and no scene data. *)
Theorem scene_push_then_pop_returns env targetId options transition w target :
  calm env ->
  sceneMap w !! targetId = Some target ->
  currentScene (state w) ≠ targetId ->
  known w (currentScene (state w)) ->
  ∃ w1 w2,
    push env targetId options w = (Fulfilled, w1) ∧
    pop env transition w1 = (Fulfilled, w2) ∧
    currentScene (getState w1) = targetId ∧
    getStackDepth w1 = S (getStackDepth w) ∧
    canGoBack w1 = true ∧
    getSceneData w1 = or_null (parse options).2 ∧
    currentScene (getState w2) = currentScene (state w) ∧
    previousScene (getState w2) = Some targetId ∧
    isTransitioning (getState w2) = false ∧
    sceneStack w2 = sceneStack w ∧
    getSceneData w2 = JNull.
Proof.
  intros Hcalm Htarget Hne [current Hcurrent].
  rewrite push_unfold.
  rewrite (transitionTo_calm env Hcalm targetId _ _ _ target) by done.
  eexists. eexists. split; [reflexivity|].
  unfold pop. cbn [sceneStack log_all with_state with_currentSceneData with_sceneStack].
  destruct (last_snoc_removelast (sceneStack w) (currentScene (state w))) as [-> ->].
  rewrite (transitionTo_calm env Hcalm (currentScene (state w)) _ _ _ current)
    by (simpl; done).
  split; [reflexivity|]. simpl. split_and!; try done.
  - unfold getStackDepth. simpl. rewrite length_app. simpl. lia.
  - unfold canGoBack. simpl. rewrite length_app. simpl.
    apply bool_decide_eq_true_2. lia.
Qed.

Lemma scene_push_then_pop_returns_witness :
  ∃ w1 w2,
    push calm_bodies "game" (Some [("data", JNum 1)]) menuStore = (Fulfilled, w1) ∧
    pop calm_bodies None w1 = (Fulfilled, w2) ∧
    currentScene (getState w1) = "game" ∧
    canGoBack w1 = true ∧
    currentScene (getState w2) = "menu" ∧
    previousScene (getState w2) = Some "game" ∧
    sceneStack w2 = [] ∧
    getSceneData w2 = JNull.
Proof.
  destruct (scene_push_then_pop_returns calm_bodies "game" (Some [("data", JNum 1)])
              None menuStore (scene "game"))
    as (w1 & w2 & Hrun1 & Hrun2 & Hcur1 & _ & Hback & _ & Hcur2 & Hprev & _ & Hstack & Hdata).
  - split; intros; reflexivity.
  - vm_compute. reflexivity.
  - vm_compute. discriminate.
  - exists (scene "menu"). vm_compute. reflexivity.
  - exists w1, w2.
    split_and!; [exact Hrun1|exact Hrun2|exact Hcur1|exact Hback|exact Hcur2
                |exact Hprev|exact Hstack|exact Hdata].
Defined.

Lemma transitionTo_unknown env targetId transition data w :
  sceneMap w !! targetId = None ->
  transitionTo env targetId transition data w = (Rejected (SceneNotFound targetId), w).
Proof. intros H. unfold transitionTo. by rewrite H. Qed.

Lemma transitionTo_same env targetId transition data w :
  known w targetId ->
  currentScene (state w) = targetId ->
  transitionTo env targetId transition data w = (Fulfilled, w).
Proof.
  intros [target H] Hsame. unfold transitionTo. rewrite H.
  by rewrite decide_True.
Qed.

(** X27. Navigation that does not move.  [goto] and [push] to an
    unknown scene are rejected with the error that names it, after they
    have changed the stack: the state, the scene data and the subscribers
    are untouched and nobody is called, but [goto] has emptied the stack
    and [push] has put the current scene on it, so that going back has
    become possible.  [goto] and [push] to the current scene are
    fulfilled without any call and keep the scene data, dropping the data
    passed; they change the stack in the same way, and a [pop] after such
    a [push] gives back the store as it was.  [pop] on an empty stack does
    nothing. *)
Theorem scene_navigation_that_does_not_move env targetId options w :
  (sceneMap w !! targetId = None ->
     goto env targetId options w
     = (Rejected (SceneNotFound targetId), with_sceneStack [] w) ∧
     push env targetId options w
     = (Rejected (SceneNotFound targetId),
        with_sceneStack (sceneStack w ++ [currentScene (state w)]) w) ∧
     canGoBack (push env targetId options w).2 = true) ∧
  (known w targetId -> currentScene (state w) = targetId ->
     goto env targetId options w = (Fulfilled, with_sceneStack [] w) ∧
     push env targetId options w
     = (Fulfilled, with_sceneStack (sceneStack w ++ [targetId]) w) ∧
     getSceneData (goto env targetId options w).2 = getSceneData w ∧
     getSceneData (push env targetId options w).2 = getSceneData w ∧
     ∀ transition,
       pop env transition (push env targetId options w).2 = (Fulfilled, w)) ∧
  (sceneStack w = [] -> ∀ transition, pop env transition w = (Fulfilled, w)).
Proof.
  split_and!.
  - intros Hnone. rewrite goto_unfold, push_unfold.
    rewrite !transitionTo_unknown by done. split_and!; try reflexivity.
    unfold canGoBack. cbn [snd sceneStack with_sceneStack]. rewrite length_app.
    apply bool_decide_eq_true_2. cbn [length]. lia.
  - intros Hknown Hsame. rewrite goto_unfold, push_unfold.
    rewrite !transitionTo_same by done. rewrite Hsame.
    split_and!; try reflexivity.
    intros transition. unfold pop. cbn [snd sceneStack with_sceneStack].
    destruct (last_snoc_removelast (sceneStack w) targetId) as [-> ->].
    rewrite transitionTo_same by done. by destruct w.
  - intros Hempty transition. unfold pop. by rewrite Hempty.
Qed.

(** [new Map(entries)]: of the scenes with one id, the last is kept. *)
Lemma scene_map_lookup scenes i :
  scene_map scenes !! i = last (List.filter (fun s => bool_decide (id s = i)) scenes).
Proof.
  unfold scene_map. induction scenes as [|s scenes IH] using rev_ind.
  { apply lookup_empty. }
  rewrite foldl_snoc, List.filter_app. cbn [List.filter].
  destruct (decide (id s = i)) as [E|Hne].
  - rewrite bool_decide_eq_true_2 by done. rewrite last_snoc, E.
    apply lookup_insert_eq.
  - rewrite bool_decide_eq_false_2 by done. rewrite app_nil_r.
    by rewrite lookup_insert_ne.
Qed.

Lemma scene_map_known scenes i :
  is_Some (scene_map scenes !! i) ↔ i ∈ id <$> scenes.
Proof.
  rewrite scene_map_lookup, last_is_Some, list_elem_of_fmap. split.
  - intros Hne. destruct (List.filter _ scenes) as [|s l] eqn:E; [done|].
    assert (Hin : In s (List.filter (fun s => bool_decide (id s = i)) scenes))
      by (rewrite E; by left).
    apply filter_In in Hin as [Hin Hid]. apply bool_decide_eq_true in Hid.
    exists s. split; [done|]. by apply list_elem_of_In.
  - intros (s & -> & Hin) E.
    assert (Hin' : In s (List.filter (fun s0 => bool_decide (id s0 = id s)) scenes)).
    { apply filter_In. split; [by apply list_elem_of_In|].
      by apply bool_decide_eq_true_2. }
    by rewrite E in Hin'.
Qed.

(** X23. [createSceneStore] throws for an empty list of scenes and for an
    initial scene that no scene has as its id, and for nothing else.  The
    store it returns is on the initial scene, without previous scene,
    transition, stack or scene data; and of several scenes with the same
    id, [getSceneById] returns the last. *)
Theorem scene_store_construction scenes initialScene :
  (createSceneStore scenes initialScene = Throws ScenesEmpty ↔ scenes = []) ∧
  (createSceneStore scenes initialScene = Throws (InitialSceneNotFound initialScene)
   ↔ scenes ≠ [] ∧ initialScene ∉ id <$> scenes) ∧
  ((∃ w, createSceneStore scenes initialScene = Store w) ↔ initialScene ∈ id <$> scenes) ∧
  (∀ w, createSceneStore scenes initialScene = Store w ->
     getState w = {| currentScene := initialScene; previousScene := None;
                     isTransitioning := false; transition := JNull |} ∧
     getStackDepth w = 0 ∧ canGoBack w = false ∧ getSceneData w = JNull ∧
     ∀ i, getSceneById w i
          = last (List.filter (fun s => bool_decide (id s = i)) scenes)).
Proof.
  unfold createSceneStore.
  destruct (decide (length scenes = 0)) as [Hlen|Hlen].
  { apply nil_length_inv in Hlen as ->. split_and!; try done.
    - split; [done|]. by intros [? _].
    - split; [by intros [? ?]|]. intros Hin. by apply elem_of_nil in Hin. }
  assert (Hne : scenes ≠ []) by (by intros ->).
  destruct (decide (is_Some (scene_map scenes !! initialScene))) as [Hin|Hout].
  - pose proof (proj1 (scene_map_known _ _) Hin) as Hin'. split_and!.
    + split; [done|]. intros ->. done.
    + split; [done|]. by intros [_ ?].
    + split; [done|]. intros _. by eexists.
    + intros w [= <-]. split_and!; try done. intros i. apply scene_map_lookup.
  - assert (Hout' : initialScene ∉ id <$> scenes) by (by rewrite <- scene_map_known).
    split_and!.
    + split; [done|]. intros ->. done.
    + done.
    + split; [by intros [? ?]|]. done.
    + done.
Qed.

Lemma scene_exec_well_formed env c w :
  well_formed w ->
  well_formed (exec env c w) ∧ sceneMap (exec env c w) = sceneMap w.
Proof.
  intros [Hcur Hstack].
  assert (Hstep : ∀ targetId transition data stack,
    Forall (known w) stack ->
    let r := transitionTo env targetId transition data (with_sceneStack stack w) in
    well_formed r.2 ∧ sceneMap r.2 = sceneMap w).
  { intros targetId transition data stack Hs. cbv zeta.
    destruct (transitionTo_frame env targetId transition data (with_sceneStack stack w))
      as ((Fm & Fs & _) & Hscene & _).
    simpl in *. split; [|done]. unfold well_formed, known in *. rewrite Fm, Fs.
    split; [|done]. destruct Hscene as [->|[-> ?]]; done. }
  destruct c as [sceneId options|sceneId options|transition|callback|callback]; simpl.
  - rewrite goto_unfold. by apply Hstep.
  - rewrite push_unfold. apply Hstep. rewrite Forall_app, Forall_singleton. done.
  - unfold pop. destruct (last (sceneStack w)) as [previous|] eqn:Hlast; [|done].
    apply Hstep.
    destruct (sceneStack w) as [|x l] using rev_ind; [done|].
    rewrite removelast_last. by apply Forall_app in Hstack as [? _].
  - done.
  - done.
Qed.

Lemma scene_run_well_formed env calls : ∀ w,
  well_formed w ->
  well_formed (run env calls w) ∧ sceneMap (run env calls w) = sceneMap w.
Proof.
  unfold run. induction calls as [|c calls IH]; intros w Hw; [done|]. simpl.
  destruct (scene_exec_well_formed env c w Hw) as [Hw1 Hm1].
  destruct (IH _ Hw1) as [Hw2 Hm2]. split; [done|]. by rewrite Hm2.
Qed.

(** X24. Whatever calls of [goto], [push], [pop], [subscribe] and
    unsubscribe are made on a store one after the other, however they end
    and whether the hooks and subscribers return or throw: the current
    scene is one of the scenes the store was created with, so that the
    current component is defined;
    every scene on the stack is one of them, so that [pop] is never
    rejected for a scene not found; and the scenes themselves stay as
    they were. *)
Theorem scene_store_shows_only_known_scenes env scenes initialScene w0 calls :
  createSceneStore scenes initialScene = Store w0 ->
  let w := run env calls w0 in
  currentScene (getState w) ∈ id <$> scenes ∧
  is_Some (getSceneById w (currentScene (getState w))) ∧
  is_Some (getCurrentSceneComponent w) ∧
  Forall (fun i => i ∈ id <$> scenes) (sceneStack w) ∧
  (∀ transition i, (pop env transition w).1 ≠ Rejected (SceneNotFound i)) ∧
  (∀ i, getSceneById w i = getSceneById w0 i).
Proof.
  intros Hc. cbv zeta.
  assert (Hmap : sceneMap w0 = scene_map scenes).
  { unfold createSceneStore in Hc. repeat case_decide; try done. by injection Hc as <-. }
  assert (Hw0 : well_formed w0).
  { unfold createSceneStore in Hc. repeat case_decide; try done.
    injection Hc as <-. split; [done|]. by apply Forall_nil. }
  destruct (scene_run_well_formed env calls w0 Hw0) as [[Hcur Hstack] Hm].
  set (w := run env calls w0) in *.
  assert (Hknown : ∀ i, known w i ↔ i ∈ id <$> scenes).
  { intros i. unfold known. rewrite Hm, Hmap. apply scene_map_known. }
  split_and!.
  - by apply Hknown.
  - done.
  - unfold getCurrentSceneComponent. destruct Hcur as [s Hs]. rewrite Hs. by eexists.
  - eapply Forall_impl; [exact Hstack|]. intros i. apply Hknown.
  - intros transition i. unfold pop.
    destruct (last (sceneStack w)) as [previous|] eqn:Hlast; [|done].
    assert (Hprev : known w previous).
    { apply last_Some in Hlast as [l E]. rewrite E in Hstack.
      rewrite Forall_app, Forall_singleton in Hstack. by destruct Hstack. }
    destruct (transitionTo_frame env previous transition None
                (with_sceneStack (removelast (sceneStack w)) w)) as (_ & _ & Hraised).
    specialize (Hraised Hprev). intros E. rewrite E in Hraised. done.
  - intros i. unfold getSceneById. by rewrite Hm.
Qed.

Lemma scene_store_shows_only_known_scenes_witness :
  currentScene
    (getState (run failing_hooks
                 [Push "game" None; Goto "nowhere" None; Pop None] menuStore))
  ∈ id <$> testScenes.
Proof.
  apply (scene_store_shows_only_known_scenes failing_hooks testScenes "menu" menuStore
           [Push "game" None; Goto "nowhere" None; Pop None]).
  vm_compute. reflexivity.
Defined.



End SceneStoreProperties.

(** ** Reactive achievement manager *)

Section ReactiveAchievementsProperties.
Import ReactiveAchievements.
Context {T M A : Type}.
Implicit Types (definitions : list (ReactiveAchievementDefinition T)).

Lemma map_set_keys {V} (m : list (string * V)) k v :
  (map_set m k v).*1 = if decide (k ∈ m.*1) then m.*1 else m.*1 ++ [k].
Proof.
  induction m as [|[k' v'] m IH].
  - rewrite decide_False by apply not_elem_of_nil. done.
  - cbn [map_set]. rewrite fmap_cons. cbn [fst].
    destruct (decide (k' = k)) as [->|Hne]; rewrite fmap_cons; cbn [fst].
    + rewrite decide_True; [done|]. by left.
    + rewrite IH. destruct (decide (k ∈ m.*1)) as [Hin|Hout].
      * rewrite decide_True; [done|]. by right.
      * rewrite decide_False; [done|]. apply not_elem_of_cons. split; [congruence|done].
Qed.

Lemma conditions_keys definitions :
  NoDup (conditions T definitions).*1 ∧
  ∀ i, i ∈ (conditions T definitions).*1 ↔ i ∈ conditioned definitions.
Proof.
  unfold conditions, conditioned.
  assert (G : ∀ defs (m : list (string * (T -> result bool))),
    NoDup m.*1 ->
    let m' := fold_left (fun m def => match condition def with
                                      | Some c => map_set m (id def) c
                                      | None => m
                                      end) defs m in
    NoDup m'.*1 ∧
    ∀ i, i ∈ m'.*1
         ↔ i ∈ m.*1 ∨ i ∈ omap (fun def => (fun _ => id def) <$> condition def) defs).
  { induction defs as [|def defs IH]; intros m Hm; simpl.
    - split; [done|]. intros i. rewrite elem_of_nil. tauto.
    - destruct (condition def) as [c|]; simpl.
      + destruct (IH (map_set m (id def) c)) as [Hnd Hin].
        { rewrite map_set_keys. case_decide; [done|].
          apply NoDup_app. split_and!; [done| |apply NoDup_singleton].
          intros x Hx Hx'. apply list_elem_of_singleton in Hx' as ->. done. }
        split; [done|]. intros i. rewrite Hin, map_set_keys, elem_of_cons.
        case_decide as Hk.
        * split; [tauto|]. intros [?|[->|?]]; tauto.
        * rewrite elem_of_app, list_elem_of_singleton. tauto.
      + by apply IH. }
  destruct (G definitions [] ltac:(constructor)) as [Hnd Hin].
  split; [done|]. intros i. rewrite Hin. simpl. rewrite elem_of_nil. tauto.
Qed.

Lemma looked_app t1 t2 : looked (t1 ++ t2) = looked t1 ++ looked t2.
Proof. apply omap_app. Qed.
Lemma evaluated_app t1 t2 : evaluated (t1 ++ t2) = evaluated t1 ++ evaluated t2.
Proof. apply omap_app. Qed.
Lemma unlocks_app t1 t2 : unlocks (t1 ++ t2) = unlocks t1 ++ unlocks t2.
Proof. apply omap_app. Qed.
Lemma fetched_app t1 t2 : fetched (t1 ++ t2) = fetched t1 ++ fetched t2.
Proof. apply omap_app. Qed.

Lemma attempt_spec (base : AchievementManager M A) state i c m acc :
  let r := attempt T M A base state i c m acc in
  looked r.2 = [] ∧ evaluated r.2 = [i] ∧
  unlocks r.2 ⊆ [i] ∧ fetched r.2 ⊆ unlocks r.2 ∧
  length r.1.2 ≤ length acc + length (fetched r.2).
Proof.
  cbv zeta. unfold attempt.
  destruct (c state) as [[|]|]; simpl;
    [|split_and!; first [done|apply list_subseteq_nil|lia]..].
  destruct (unlock base i m) as [[[|]|] m1]; simpl;
    [|split_and!; first [done|apply list_subseteq_nil|lia]..].
  destruct (getById base i m1) as [[[a|]|] m2]; simpl;
    split_and!; first [done|apply list_subseteq_nil|rewrite ?length_app; simpl; lia].
Qed.

Lemma check_loop_spec (base : AchievementManager M A) state l : ∀ m acc t,
  let r := check_loop T M A base state l m acc t in
  ∃ es, r.2 = t ++ es ∧ orderly l.*1 r.1.1.1 es ∧
        length r.1.2 ≤ length acc + length (fetched es).
Proof.
  induction l as [|[i c] rest IH]; intros m acc t; simpl.
  - exists []. rewrite app_nil_r. split; [done|]. split; [|simpl; lia].
    unfold orderly. simpl. split_and!; first [done|apply list_subseteq_nil].
  - destruct (isUnlocked base i m) as [[[|]|] m1]; simpl.
    + destruct (IH m1 acc (t ++ [IsUnlockedCalled i]))
        as (es & Ht & (Hp & Hn & He & Hu & Hf) & Hlen).
      exists (IsUnlockedCalled i :: es). rewrite Ht, <- app_assoc.
      split; [done|]. split; [|simpl; exact Hlen].
      unfold orderly. simpl. split_and!.
      * by apply prefix_cons.
      * intros E. by rewrite Hn.
      * intros x Hx. right. by apply He.
      * exact Hu.
      * exact Hf.
    + pose proof (attempt_spec base state i c m1 acc) as Ha.
      destruct (attempt T M A base state i c m1 acc) as [[m2 acc2] es0].
      simpl in Ha. destruct Ha as (Hl0 & He0 & Hu0 & Hf0 & Hlen0).
      destruct (IH m2 acc2 (t ++ IsUnlockedCalled i :: es0))
        as (es & Ht & (Hp & Hn & He & Hu & Hf) & Hlen).
      exists (IsUnlockedCalled i :: es0 ++ es). rewrite Ht, <- app_assoc.
      split; [done|]. split.
      * unfold orderly. simpl.
        rewrite looked_app, evaluated_app, unlocks_app, fetched_app, Hl0, He0. simpl.
        split_and!.
        -- by apply prefix_cons.
        -- intros E. by rewrite Hn.
        -- intros x Hx. apply elem_of_cons in Hx as [->|Hx]; [by left|].
           right. by apply He.
        -- intros x Hx. apply elem_of_app in Hx as [Hx|Hx].
           ++ apply Hu0 in Hx. apply list_elem_of_singleton in Hx as ->. by left.
           ++ right. by apply Hu.
        -- intros x Hx. apply elem_of_app. apply elem_of_app in Hx as [Hx|Hx].
           ++ left. by apply Hf0.
           ++ right. by apply Hf.
      * simpl. rewrite fetched_app, length_app. lia.
    + exists [IsUnlockedCalled i]. split; [done|]. split; [|simpl; lia].
      unfold orderly. simpl.
      split_and!; first [done|apply list_subseteq_nil|apply prefix_cons, prefix_nil].
Qed.


End ReactiveAchievementsProperties.
